(** * Breakpoint table of the interpreter (libinterp/parse-tree/bp-table.cc)

    A shallow embedding of the breakpoint bookkeeping, the line resolver,
    the dbstop/dbclear argument parser, the trigger flags with their status
    report, the list of breakpoints and the condition check, followed by
    the properties established about them.

    Values of type int (line numbers, indices, counts) are integers of Z:
    the code compares and stores them and counts upwards from 0, so no
    operation on them leaves the range of int on inputs of realistic size;
    the one conversion from text, atoi, is reduced to the range of int.
    Pointers are options, nullptr being None. *)

From Stdlib Require Import ZArith String Ascii List Lia Bool.
From stdpp Require Import base option list gmap sets strings sorting.

Local Open Scope string_scope.
Local Open Scope Z_scope.

(* ================================================================== *)
(** * Part I: the model *)
(* ================================================================== *)

(** ** Interpreter values (octave_value), seen through the observers that
    bp-table.cc calls on them. *)

Record octave_value := mk_value {
  is_string : bool;
  string_value : option string;   (* None: string_value () raises *)
  isnumeric : bool;
  array_value : list Z;           (* the elements, each cast to int *)
  type_name : string
}.

Definition ov_string (s : string) : octave_value :=
  mk_value true (Some s) false [] "string".

Definition ov_undefined : octave_value :=
  mk_value false None false [] "<undefined>".

(** args(pos) of an octave_value_list. *)
Definition arg_at (args : list octave_value) (pos : nat) : octave_value :=
  default ov_undefined (args !! pos).

(** ** C library: atoi (leading white space, optional sign, decimal
    digits).  atoi (s) is (int) strtol (s, nullptr, 10): strtol stops at
    LONG_MAX and LONG_MIN (64 bits), and the conversion to int keeps the low
    32 bits in two's complement, so that "2147483648" gives -2147483648 and
    "4294967296" gives 0. *)

Definition is_space (c : ascii) : bool :=
  let n := N_of_ascii c in
  (n =? 32)%N || ((9 <=? n)%N && (n <=? 13)%N).

Definition digit_of (c : ascii) : option Z :=
  let n := Z.of_N (N_of_ascii c) in
  if (48 <=? n) && (n <=? 57) then Some (n - 48) else None.

Fixpoint atoi_digits (acc : Z) (s : string) : Z :=
  match s with
  | EmptyString => acc
  | String c s' =>
      match digit_of c with
      | Some d => atoi_digits (acc * 10 + d) s'
      | None => acc
      end
  end.

Fixpoint skip_space (s : string) : string :=
  match s with
  | String c s' => if is_space c then skip_space s' else s
  | EmptyString => s
  end.

Definition LONG_MAX : Z := 9223372036854775807.
Definition LONG_MIN : Z := -9223372036854775808.

Definition strtol (s : string) : Z :=
  let n := match skip_space s with
           | String "-" s' => - atoi_digits 0 s'
           | String "+" s' => atoi_digits 0 s'
           | s' => atoi_digits 0 s'
           end in
  Z.max LONG_MIN (Z.min LONG_MAX n).

(** The conversion (int) n of a long. *)
Definition to_int (n : Z) : Z :=
  (n + 2147483648) mod 4294967296 - 2147483648.

Definition atoi (s : string) : Z := to_int (strtol s).

(** ** Statement lists and their breakpoints *)

(** An expression, seen through the one observer the condition check uses. *)
Record tree_expression := mk_expression {
  is_assignment_expression : bool
}.

Record tree_statement := mk_statement {
  stmt_line : Z;
  stmt_bp : option string;         (* the condition of the breakpoint, if set *)
  expression : option tree_expression   (* None: the statement is a command *)
}.

Definition is_expression (stmt : tree_statement) : bool :=
  match expression stmt with
  | Some _ => true
  | None => false
  end.

Abbreviation tree_statement_list := (list tree_statement).

(** bp_table::intmap is std::map<int, int>. *)
Abbreviation intmap := (gmap Z Z).

(** ** The table, together with the process-wide flags it toggles and the
    statement lists that the body pointers of the routines refer to. *)

Record bp_table := mk_bp_table {
  m_bp_set : gset string;
  m_errors_that_stop : gset string;
  m_caught_that_stop : gset string;
  m_warnings_that_stop : gset string;
  debug_on_error : bool;
  debug_on_caught : bool;
  debug_on_warning : bool;
  Vdebug_on_interrupt : bool;
  stmt_lists : gmap nat tree_statement_list
}.

Definition set_bp_set (s : gset string) (t : bp_table) : bp_table :=
  mk_bp_table s (m_errors_that_stop t) (m_caught_that_stop t)
    (m_warnings_that_stop t) (debug_on_error t) (debug_on_caught t)
    (debug_on_warning t) (Vdebug_on_interrupt t) (stmt_lists t).

Definition set_errors_that_stop (s : gset string) (t : bp_table) : bp_table :=
  mk_bp_table (m_bp_set t) s (m_caught_that_stop t)
    (m_warnings_that_stop t) (debug_on_error t) (debug_on_caught t)
    (debug_on_warning t) (Vdebug_on_interrupt t) (stmt_lists t).

Definition set_caught_that_stop (s : gset string) (t : bp_table) : bp_table :=
  mk_bp_table (m_bp_set t) (m_errors_that_stop t) s
    (m_warnings_that_stop t) (debug_on_error t) (debug_on_caught t)
    (debug_on_warning t) (Vdebug_on_interrupt t) (stmt_lists t).

Definition set_warnings_that_stop (s : gset string) (t : bp_table) : bp_table :=
  mk_bp_table (m_bp_set t) (m_errors_that_stop t) (m_caught_that_stop t)
    s (debug_on_error t) (debug_on_caught t)
    (debug_on_warning t) (Vdebug_on_interrupt t) (stmt_lists t).

Definition set_debug_on_error (b : bool) (t : bp_table) : bp_table :=
  mk_bp_table (m_bp_set t) (m_errors_that_stop t) (m_caught_that_stop t)
    (m_warnings_that_stop t) b (debug_on_caught t)
    (debug_on_warning t) (Vdebug_on_interrupt t) (stmt_lists t).

Definition set_debug_on_caught (b : bool) (t : bp_table) : bp_table :=
  mk_bp_table (m_bp_set t) (m_errors_that_stop t) (m_caught_that_stop t)
    (m_warnings_that_stop t) (debug_on_error t) b
    (debug_on_warning t) (Vdebug_on_interrupt t) (stmt_lists t).

Definition set_debug_on_warning (b : bool) (t : bp_table) : bp_table :=
  mk_bp_table (m_bp_set t) (m_errors_that_stop t) (m_caught_that_stop t)
    (m_warnings_that_stop t) (debug_on_error t) (debug_on_caught t)
    b (Vdebug_on_interrupt t) (stmt_lists t).

Definition set_debug_on_interrupt (b : bool) (t : bp_table) : bp_table :=
  mk_bp_table (m_bp_set t) (m_errors_that_stop t) (m_caught_that_stop t)
    (m_warnings_that_stop t) (debug_on_error t) (debug_on_caught t)
    (debug_on_warning t) b (stmt_lists t).

Definition set_stmt_lists (h : gmap nat tree_statement_list) (t : bp_table)
  : bp_table :=
  mk_bp_table (m_bp_set t) (m_errors_that_stop t) (m_caught_that_stop t)
    (m_warnings_that_stop t) (debug_on_error t) (debug_on_caught t)
    (debug_on_warning t) (Vdebug_on_interrupt t) h.

Definition empty_table : bp_table :=
  mk_bp_table ∅ ∅ ∅ ∅ false false false false ∅.

(** ** Commands on the table: state passing with exceptions.  An exception
    (a call of error) keeps the state reached so far.  [OutOfFuel] is the
    outcome of a loop of the model that was given too few iterations. *)

Inductive outcome (A : Type) : Type :=
| Ok (a : A)
| Error (msg : string)
| OutOfFuel.
Arguments Ok {A} a.
Arguments Error {A} msg.
Arguments OutOfFuel {A}.

Definition M (A : Type) : Type := bp_table → outcome A * bp_table.

#[global] Instance M_ret : MRet M := λ A a st, (Ok a, st).

#[global] Instance M_bind : MBind M := λ A B k m st,
  match m st with
  | (Ok a, st') => k a st'
  | (Error msg, st') => (Error msg, st')
  | (OutOfFuel, st') => (OutOfFuel, st')
  end.

Definition error {A : Type} (msg : string) : M A := λ st, (Error msg, st).
Definition out_of_fuel {A : Type} : M A := λ st, (OutOfFuel, st).
Definition gets {A : Type} (f : bp_table → A) : M A := λ st, (Ok (f st), st).
Definition modify (f : bp_table → bp_table) : M unit := λ st, (Ok tt, f st).

(** ** Trigger flags *)

(** The std::set<std::string>& parameter of process_id_list. *)
Inductive id_list_ref := errors_that_stop | warnings_that_stop | caught_that_stop.

Definition read_ids (r : id_list_ref) (t : bp_table) : gset string :=
  match r with
  | errors_that_stop => m_errors_that_stop t
  | warnings_that_stop => m_warnings_that_stop t
  | caught_that_stop => m_caught_that_stop t
  end.

Definition write_ids (r : id_list_ref) (s : gset string) (t : bp_table)
  : bp_table :=
  match r with
  | errors_that_stop => set_errors_that_stop s t
  | warnings_that_stop => set_warnings_that_stop s t
  | caught_that_stop => set_caught_that_stop s t
  end.

Definition set_stop_flag (who condition : string) (on_off : bool) : M unit :=
  if String.eqb condition "error" then modify (set_debug_on_error on_off)
  else if String.eqb condition "warning" then modify (set_debug_on_warning on_off)
  else if String.eqb condition "caught" then modify (set_debug_on_caught on_off)
  else error (who +:+ ": internal error in set_stop_flag").

(** string_value () of a value; raises when the value has no string form. *)
Definition get_string (v : octave_value) : M string :=
  match string_value v with
  | Some s => mret s
  | None => error "wrong type argument"
  end.

(** Returns the new value of the in-out parameter pos. *)
Definition process_id_list (who condition : string) (args : list octave_value)
    (nargin : nat) (pos : nat) (on_off : bool) (id_list : id_list_ref) : M nat :=
  let pos := S pos in
  if decide (pos < nargin)%nat then
    (* only affect a single error ID *)
    if negb (is_string (arg_at args pos)) || bool_decide (S pos < nargin)%nat
    then error (who +:+ ": ID must be a single string")
    else if on_off then
      id ← get_string (arg_at args pos);
      modify (λ t, write_ids id_list ({[id]} ∪ read_ids id_list t) t);;
      set_stop_flag who condition true;;
      mret pos
    else
      id ← get_string (arg_at args pos);
      modify (λ t, write_ids id_list (read_ids id_list t ∖ {[id]}) t);;
      empty ← gets (λ t, bool_decide (read_ids id_list t = ∅));
      (if empty : bool then set_stop_flag who condition false else mret tt);;
      mret pos
  else
    (* unqualified.  Turn all on or off *)
    modify (write_ids id_list ∅);;
    set_stop_flag who condition on_off;;
    (if String.eqb condition "error"
     then modify (set_debug_on_interrupt on_off)   (* Matlab stops on both. *)
     else mret tt);;
    mret pos.

(** The three triggers and the arguments process_id_list receives for each. *)
Inductive trigger := trig_error | trig_warning | trig_caught.

#[global] Instance trigger_eq_dec : EqDecision trigger.
Proof. solve_decision. Defined.

Definition trigger_condition (t : trigger) : string :=
  match t with
  | trig_error => "error"
  | trig_warning => "warning"
  | trig_caught => "caught"
  end.

Definition trigger_ids (t : trigger) : id_list_ref :=
  match t with
  | trig_error => errors_that_stop
  | trig_warning => warnings_that_stop
  | trig_caught => caught_that_stop
  end.

Definition trigger_flag (t : trigger) (st : bp_table) : bool :=
  match t with
  | trig_error => debug_on_error st
  | trig_warning => debug_on_warning st
  | trig_caught => debug_on_caught st
  end.

(** ** User code: functions and scripts *)

(** An octave_user_code object.  [is_user_function] tells a function from a
    script; only functions have a beginning and an ending line.  [body] is
    the pointer to the statement list (None: null).  [subfunctions] is the
    std::map from names to routines, listed in the order in which the map
    is iterated; [subfunction_names] is the list of names in the order of
    the file. *)
#[warnings="-register-all"]
Inductive octave_user_code := mk_user_code {
  is_user_function : bool;
  name : string;
  fcn_file_name : string;
  beginning_line : Z;
  ending_line : Z;
  body : option nat;
  subfunction_names : list string;
  subfunctions : list (string * octave_user_code)
}.

(** subfcns.find (nm) *)
Definition find_subfunction (subfcns : list (string * octave_user_code))
    (nm : string) : option octave_user_code :=
  snd <$> List.find (λ p, String.eqb (fst p) nm) subfcns.

(** ** The line resolver *)

Definition INT_MAX : Z := 2147483647.

(** ! p, for a pointer p. *)
Definition is_null {A : Type} (p : option A) : bool :=
  match p with
  | None => true
  | Some _ => false
  end.

(** The variables that the loop over the subfunctions updates. *)
Record resolver_state := mk_resolver_state {
  retval : option octave_user_code;
  next_fcn : option octave_user_code;   (* 1st function starting after lineno *)
  earliest_end : Z
}.

(** One iteration of the loop; [rec] is the recursive call, which receives
    the address of earliest_end and returns what it left there. *)
Definition resolver_step
    (rec : octave_user_code → Z → option Z → option octave_user_code * option Z)
    (lineno : Z) (st : resolver_state) (str_val_p : string * octave_user_code)
  : resolver_state :=
  let dbg_subfcn := snd str_val_p in
  if is_user_function dbg_subfcn then
    let st1 :=
      if (ending_line dbg_subfcn <? earliest_end st)
         && (lineno <=? ending_line dbg_subfcn)
         && (beginning_line dbg_subfcn <=? lineno)
      then
        let '(r, e) := rec dbg_subfcn lineno (Some (ending_line dbg_subfcn)) in
        mk_resolver_state r (next_fcn st) (default (ending_line dbg_subfcn) e)
      else st in
    if (lineno <=? beginning_line dbg_subfcn) && is_null (next_fcn st1)
    then mk_resolver_state (retval st1) (Some dbg_subfcn) (earliest_end st1)
    else st1
  else st.

(** What the function does once the loop is over. *)
Definition resolver_finish (main_fcn : octave_user_code) (lineno : Z)
    (end_line : option Z) (st : resolver_state)
  : option octave_user_code * option Z :=
  let retval :=
    if is_user_function main_fcn then
      let e := ending_line main_fcn in
      let retval :=
        if (lineno <=? e) && (e <? earliest_end st) then Some main_fcn
        else retval st in
      match retval with
      | None => next_fcn st
      | Some _ => retval
      end
    else  (* main_fcn is a script. *)
      match retval st with
      | None => Some main_fcn
      | Some r => Some r
      end in
  let end_line :=
    match end_line with
    | Some e => if earliest_end st <? e then Some (earliest_end st) else Some e
    | None => None
    end in
  (retval, end_line).

(** find_fcn_by_line (main_fcn, lineno, end_line): the routine found (None:
    nullptr) and the final contents of *end_line ([end_line] is None when the
    pointer is null). *)
Fixpoint find_fcn_by_line (main_fcn : octave_user_code) (lineno : Z)
    (end_line : option Z) {struct main_fcn}
  : option octave_user_code * option Z :=
  resolver_finish main_fcn lineno end_line
    (fold_left (resolver_step find_fcn_by_line lineno)
       (subfunctions main_fcn)
       (mk_resolver_state None None INT_MAX)).

(** ** Ranges of routines, and the shape of the function tree of a file *)

(** The routine itself and all routines below it. *)
Fixpoint routines (c : octave_user_code) : list octave_user_code :=
  c :: flat_map (λ p, routines (snd p)) (subfunctions c).


Definition within (inner outer : octave_user_code) : bool :=
  (beginning_line outer <=? beginning_line inner)
  && (ending_line inner <=? ending_line outer).

Definition apart (a b : octave_user_code) : bool :=
  (ending_line a <? beginning_line b) || (ending_line b <? beginning_line a).

Fixpoint pairwise_apart (l : list octave_user_code) : bool :=
  match l with
  | [] => true
  | a :: l' => forallb (apart a) l' && pairwise_apart l'
  end.

Definition valid_range (c : octave_user_code) : bool :=
  (beginning_line c <=? ending_line c) && (ending_line c <? INT_MAX).

(** A function below the top level: its range is valid, the routines
    declared in it are functions nested in its range, and no two of them
    overlap. *)
Fixpoint well_nested (c : octave_user_code) : bool :=
  is_user_function c
  && valid_range c
  && forallb (λ p, within (snd p) c && well_nested (snd p)) (subfunctions c)
  && pairwise_apart (map snd (subfunctions c)).

(** The routine a file defines: its subfunctions are well-nested functions
    that do not overlap; when the routine is itself a function, each of them
    lies inside its range (a nested function) or apart from it (a
    subfunction of the file). *)
Definition well_formed (main_fcn : octave_user_code) : bool :=
  forallb (λ p, well_nested (snd p)) (subfunctions main_fcn)
  && pairwise_apart (map snd (subfunctions main_fcn))
  && (negb (is_user_function main_fcn)
      || (valid_range main_fcn
          && forallb (λ p, within (snd p) main_fcn || apart (snd p) main_fcn)
               (subfunctions main_fcn))).

(** ** Fixtures: the routines of two small files *)

Definition leaf_function (nm : string) (b e : Z) (bd : nat) : octave_user_code :=
  mk_user_code true nm "/w/f.m" b e (Some bd) [] [].

(** f.m: function f on lines 3 to 10 and, after it, the subfunctions g
    (lines 12 to 20) and h (lines 30 to 60, with k nested at 40 to 50). *)
Definition fx_g : octave_user_code := leaf_function "g" 12 20 1.
Definition fx_k : octave_user_code := leaf_function "k" 40 50 3.
Definition fx_h : octave_user_code :=
  mk_user_code true "h" "/w/f.m" 30 60 (Some 2%nat) ["k"] [("k", fx_k)].
Definition fx_f : octave_user_code :=
  mk_user_code true "f" "/w/f.m" 3 10 (Some 0%nat) ["g"; "h"]
    [("g", fx_g); ("h", fx_h)].

(** s.m: a script with no functions of its own. *)
Definition fx_script : octave_user_code :=
  mk_user_code false "s" "/w/s.m" 0 0 (Some 4%nat) [] [].




(** ** The statement list of a routine body *)

(** Modelled from the spec: the routine body store (the breakpoint
    operations of tree_statement_list, which live in pt-stmt.cc and are not
    part of bp-table.cc).  A body is the list of its statements in line
    order.  Inserting at a line sets the breakpoint on the first statement at
    or after that line and reports the line of that statement, 0 when there
    is none; deleting clears the breakpoint of the statements on the line;
    listing gives the lines that hold a breakpoint; removing all gives the
    removed entries. *)
Fixpoint set_breakpoint (lineno : Z) (condition : string)
    (cmds : tree_statement_list) : Z * tree_statement_list :=
  match cmds with
  | [] => (0, [])
  | stmt :: rest =>
      if lineno <=? stmt_line stmt
      then (stmt_line stmt,
            mk_statement (stmt_line stmt) (Some condition) (expression stmt) :: rest)
      else let '(r, rest') := set_breakpoint lineno condition rest in
           (r, stmt :: rest')
  end.

(** Modelled from the spec: delete (line) of the body store. *)
Definition delete_breakpoint (lineno : Z) (cmds : tree_statement_list)
  : tree_statement_list :=
  map (λ stmt, if stmt_line stmt =? lineno
               then mk_statement (stmt_line stmt) None (expression stmt)
               else stmt) cmds.

(** Modelled from the spec: list () of the body store, the current lines. *)
Definition list_breakpoints (cmds : tree_statement_list) : list Z :=
  map stmt_line (List.filter (λ stmt, negb (is_null (stmt_bp stmt))) cmds).

(** Modelled from the spec: insert (file, requested_lines, condition) of the
    body store, giving the actual line per index; one requested line. *)
Definition stmts_add_step (line : intmap) (condition : string)
    (acc : intmap * tree_statement_list) (i : Z) : intmap * tree_statement_list :=
  let '(retval, cmds) := acc in
  match line !! i with
  | Some lineno =>
      let '(r, cmds') := set_breakpoint lineno condition cmds in
      (<[i := r]> retval, cmds')
  | None => (retval, cmds)
  end.

(** Modelled from the spec: insert (file, requested_lines, condition) of the
    body store, the indices 0 .. size - 1 in turn. *)
Definition stmts_add_breakpoint (line : intmap) (condition : string)
    (cmds : tree_statement_list) : intmap * tree_statement_list :=
  fold_left (stmts_add_step line condition)
    (seqZ 0 (Z.of_nat (size line))) (∅, cmds).

(** Modelled from the spec: remove_all (file) of the body store. *)
Definition stmts_remove_all_breakpoints (cmds : tree_statement_list)
  : intmap * tree_statement_list :=
  let bkpts := list_breakpoints cmds in
  (list_to_map (zip (seqZ 0 (Z.of_nat (length bkpts))) bkpts),
   fold_left (λ cmds lineno, delete_breakpoint lineno cmds) bkpts cmds).

(** Reading and writing the statement list a body pointer refers to. *)
Definition deref (st : bp_table) (cmds : nat) : tree_statement_list :=
  default [] (stmt_lists st !! cmds).

Definition load (cmds : nat) : M tree_statement_list := gets (λ st, deref st cmds).

Definition store (cmds : nat) (l : tree_statement_list) : M unit :=
  modify (λ st, set_stmt_lists (<[cmds := l]> (stmt_lists st)) st).

(** ** The evaluator and the interpreter behind it, as far as the table
    consults them. *)

Record parse_result := mk_parse_result {
  parse_status : Z;
  statement_list : option (list (option tree_statement))
}.

Record tree_evaluator := mk_evaluator {
  get_user_code : string → string → option octave_user_code;
  in_debug_repl : bool;
  debugged_profiler_name : string;  (* get_user_code ()->profiler_name () *)
  parser_run : string → parse_result
}.

(** ** Adding and removing breakpoints

    The calls that tell the event manager about a change
    (update_breakpoint) and the evaluator to look for breakpoints again
    (reset_debug_state) do not touch the table and are left out. *)

(** strchr (s, c): the index of the first occurrence. *)
Fixpoint strchr (s : string) (c : ascii) : option nat :=
  match s with
  | EmptyString => None
  | String c' s' => if Ascii.eqb c' c then Some O else S <$> strchr s' c
  end.

(** Returns found and the new value of the reference parameter retval. *)
Definition add_breakpoint_1 (fcn : octave_user_code) (fname : string)
    (line : intmap) (condition : string) (retval : intmap) : M (bool * intmap) :=
  match body fcn with
  | Some cmds =>
      l ← load cmds;
      let '(retval, l') := stmts_add_breakpoint line condition l in
      store cmds l';;
      if existsb (λ idx_line_p, negb (snd idx_line_p =? 0)) (map_to_list retval)
      then
        (* Normalize to store only the file name. *)
        modify (λ st,
          match strchr fname ">" with
          | Some n => set_bp_set ({[ substring 0 n fname ]} ∪ m_bp_set st) st
          | None => set_bp_set ({[ fname ]} ∪ m_bp_set st) st
          end);;
        mret (true, retval)
      else mret (false, retval)
  | None => mret (false, retval)
  end.

Definition condition_valid (ev : tree_evaluator) (cond : string) : M bool :=
  if (0 <? String.length cond)%nat then
    (* ; to reject partial expr like "y==" *)
    let parser := parser_run ev (cond +:+ " ;") in
    if negb (parse_status parser =? 0)
    then error ("dbstop: Cannot parse condition '" +:+ cond +:+ "'")
    else
      match statement_list parser with
      | None =>
          error "dbstop: condition is not empty, but has nothing to evaluate"
      | Some stmt_list =>
          match stmt_list with
          | [Some stmt] =>
              match expression stmt with
              | Some expr =>
                  if is_assignment_expression expr
                  then error ("dbstop: condition cannot be an assignment.  "
                              +:+ "Did you mean '=='?")
                  else mret true
              | None => error "dbstop: condition must be an expression"
              end
          | _ => error "dbstop: condition must be an expression"
          end
      end
  else mret true.

(** for (int i = 0; i < len; i++) over an accumulator. *)
Fixpoint for_each {A S : Type} (l : list A) (f : S → A → M S) (s : S) : M S :=
  match l with
  | [] => mret s
  | a :: l' => s' ← f s a; for_each l' f s'
  end.

(** The body of the loop of add_breakpoint, for the index i. *)
Definition add_breakpoint_line (main_fcn : octave_user_code) (fname : string)
    (line : intmap) (condition : string) (retval : intmap) (i : Z) : M intmap :=
  match line !! i with
  | Some lineno =>
      match fst (find_fcn_by_line main_fcn lineno None) with
      | Some dbg_fcn =>
          (* We've found the right (sub)function.  Now insert the breakpoint. *)
          '(found, ret_one) ← add_breakpoint_1 dbg_fcn fname line condition ∅;
          if found : bool then
            (* retval.insert: an entry that is already there is kept *)
            match ret_one !! i, retval !! i with
            | Some l, None => mret (<[i := l]> retval)
            | _, _ => mret retval
            end
          else mret retval
      | None => mret retval
      end
  | None => mret retval
  end.

Definition add_breakpoint (ev : tree_evaluator) (fname class_name : string)
    (line : intmap) (condition : string) : M intmap :=
  match get_user_code ev fname class_name with
  | None => error ("add_breakpoint: unable to find function '" +:+ fname +:+ "'")
  | Some main_fcn =>
      condition_valid ev condition;;
      for_each (seqZ 0 (Z.of_nat (size line)))
        (add_breakpoint_line main_fcn fname line condition) ∅
  end.

Definition remove_breakpoint_1 (fcn : octave_user_code) (fname : string)
    (line : intmap) : M Z :=
  match body fcn with
  | Some cmds =>
      l ← load cmds;
      let results := list_breakpoints l in
      if (0 <? length results)%nat then
        let l' :=
          fold_left
            (λ l i, match line !! i with
                    | Some lineno => delete_breakpoint lineno l
                    | None => l
                    end)
            (seqZ 0 (Z.of_nat (size line))) l in
        store cmds l';;
        let results := list_breakpoints l' in
        modify (λ st,
          if (length results =? 0)%nat && bool_decide (fname ∈ m_bp_set st)
          then set_bp_set (m_bp_set st ∖ {[ fname ]}) st
          else st);;
        mret (Z.of_nat (length results))
      else mret (Z.of_nat (length results))
  | None => mret 0
  end.

(** Remove all breakpoints from a file. *)
Definition remove_all_breakpoints_in_file (ev : tree_evaluator) (fname : string)
    (silent : bool) : M intmap :=
  match get_user_code ev fname "" with
  | Some dbg_fcn =>
      match body dbg_fcn with
      | Some cmds =>
          l ← load cmds;
          let '(retval, l') := stmts_remove_all_breakpoints l in
          store cmds l';;
          modify (λ st,
            if bool_decide (fname ∈ m_bp_set st)
            then set_bp_set (m_bp_set st ∖ {[ fname ]}) st
            else st);;
          mret retval
      | None => mret ∅
      end
  | None =>
      if silent then mret ∅
      else error ("remove_all_breakpoint_in_file: unable to find function "
                  +:+ fname)
  end.

Definition remove_breakpoint (ev : tree_evaluator) (fname : string)
    (line : intmap) : M Z :=
  if (size line =? 0)%nat then
    results ← remove_all_breakpoints_in_file ev fname false;
    mret (Z.of_nat (size results))
  else
    match get_user_code ev fname "" with
    | None => error ("remove_breakpoint: unable to find function " +:+ fname)
    | Some dbg_fcn =>
        retval ← remove_breakpoint_1 dbg_fcn fname line;
        (* Search subfunctions in the order they appear in the file. *)
        for_each (subfunction_names dbg_fcn)
          (λ retval subf_nm,
             match find_subfunction (subfunctions dbg_fcn) subf_nm with
             | Some dbg_subfcn =>
                 r ← remove_breakpoint_1 dbg_subfcn fname line;
                 mret (retval + r)
             | None => mret retval
             end)
          retval
    end.

(** ** Clearing the whole table *)

(** m_bp_set is a std::set: it is walked in the order of its keys. *)
Definition set_min (s : gset string) : option string :=
  head (merge_sort String.le (elements s)).

(** ++it, for an iterator at the element x of s. *)
Definition set_next (s : gset string) (x : string) : option string :=
  set_min (filter (λ y, x ≠ y ∧ String.le x y) s).

(** The loop of remove_all_breakpoints; [it] is None at the end of the set.
    The successor is taken from the set as it is before the removal. *)
Fixpoint remove_all_breakpoints_loop (ev : tree_evaluator) (fuel : nat)
    (it : option string) : M unit :=
  match it with
  | None => mret tt
  | Some fname =>
      match fuel with
      | O => out_of_fuel
      | S fuel' =>
          it_next ← gets (λ st, set_next (m_bp_set st) fname);
          remove_all_breakpoints_in_file ev fname false;;
          remove_all_breakpoints_loop ev fuel' it_next
      end
  end.

Definition remove_all_breakpoints (ev : tree_evaluator) (fuel : nat) : M unit :=
  it ← gets (λ st, set_min (m_bp_set st));
  remove_all_breakpoints_loop ev fuel it.

(** The statement lists of the fixture routines and an evaluator that knows
    the two files; its parser accepts whatever it is given as one
    expression that is not an assignment. *)

Definition stmt_at (lineno : Z) : tree_statement := mk_statement lineno None None.

Definition fx_stmt_lists : gmap nat tree_statement_list :=
  {[ 0%nat := [stmt_at 4; stmt_at 5; stmt_at 8];
     1%nat := [stmt_at 13; stmt_at 15];
     2%nat := [stmt_at 31; stmt_at 55];
     3%nat := [stmt_at 41; stmt_at 45];
     4%nat := [stmt_at 1; stmt_at 2] ]}.

Definition fx_table : bp_table := set_stmt_lists fx_stmt_lists empty_table.

Definition fx_parse (text : string) : parse_result :=
  mk_parse_result 0
    (Some [Some (mk_statement 1 None (Some (mk_expression false)))]).

Definition fx_evaluator : tree_evaluator :=
  mk_evaluator
    (λ fname class_name,
       if String.eqb fname "f" then Some fx_f
       else if String.eqb fname "s" then Some fx_script
       else None)
    false "" fx_parse.

(** The statement list a routine has in a state of the table, and the number
    of breakpoints of a file: those of its top-level routine and of the
    subfunctions listed for it. *)
Definition body_of (st : bp_table) (fcn : octave_user_code) : tree_statement_list :=
  match body fcn with
  | Some cmds => deref st cmds
  | None => []
  end.

(** From one state of the statement lists to a later one, the statements
    keep their lines and the breakpoints that are set stay set. *)
Definition grows (st st' : bp_table) : Prop :=
  ∀ cmds,
    map stmt_line (deref st' cmds) = map stmt_line (deref st cmds)
    ∧ ∀ l, l ∈ list_breakpoints (deref st cmds) →
           l ∈ list_breakpoints (deref st' cmds).

(** The line on which the body store puts a breakpoint requested for
    [lineno]; 0 when the body has no statement at or after that line. *)
Definition actual_line (lineno : Z) (cmds : tree_statement_list) : Z :=
  fst (set_breakpoint lineno "" cmds).

Definition file_routines (main_fcn : octave_user_code) : list octave_user_code :=
  main_fcn :: omap (find_subfunction (subfunctions main_fcn))
                (subfunction_names main_fcn).

Definition file_breakpoints (st : bp_table) (main_fcn : octave_user_code) : list Z :=
  flat_map (λ fcn, list_breakpoints (body_of st fcn)) (file_routines main_fcn).

(** The elements of the set from the iterator on; nothing at the end. *)
Definition from_iterator (it : option string) (y : string) : Prop :=
  match it with
  | Some x => String.le x y
  | None => False
  end.

#[global] Instance from_iterator_dec it y : Decision (from_iterator it y).
Proof. destruct it; simpl; apply _. Defined.

(** The name resolves, without a class, to a routine that has a body. *)
Definition resolves_to_body (ev : tree_evaluator) (fname : string) : Prop :=
  ∃ fcn cmds, get_user_code ev fname "" = Some fcn ∧ body fcn = Some cmds.

(** A class with one method: the evaluator finds the method only together
    with the name of its class. *)
Definition fx_method : octave_user_code :=
  mk_user_code true "m" "/w/@cls/m.m" 1 9 (Some 0%nat) [] [].

Definition fx_class_evaluator : tree_evaluator :=
  mk_evaluator
    (λ fname class_name,
       if String.eqb fname "m" && String.eqb class_name "cls"
       then Some fx_method else None)
    false "" fx_parse.

(** ** The argument parser of dbstop and dbclear *)

Inductive dbstop_args := dbstop_in | dbstop_at | dbstop_if | dbstop_none.

#[global] Instance dbstop_args_eq_dec : EqDecision dbstop_args.
Proof. solve_decision. Defined.

(** The reference parameters and the local variables of
    parse_dbfunction_params. *)
Record parse_state := mk_parse_state {
  func_name : string;
  class_name : string;
  lines : intmap;
  cond : string;
  list_idx : Z;
  seen_in : bool;
  seen_at : bool;
  seen_if : bool;
  pos : nat
}.

Definition set_pos (p : nat) (ps : parse_state) : parse_state :=
  mk_parse_state (func_name ps) (class_name ps) (lines ps) (cond ps)
    (list_idx ps) (seen_in ps) (seen_at ps) (seen_if ps) p.

Definition set_func_name (s : string) (ps : parse_state) : parse_state :=
  mk_parse_state s (class_name ps) (lines ps) (cond ps)
    (list_idx ps) (seen_in ps) (seen_at ps) (seen_if ps) (pos ps).

Definition set_class_name (s : string) (ps : parse_state) : parse_state :=
  mk_parse_state (func_name ps) s (lines ps) (cond ps)
    (list_idx ps) (seen_in ps) (seen_at ps) (seen_if ps) (pos ps).

Definition set_cond (s : string) (ps : parse_state) : parse_state :=
  mk_parse_state (func_name ps) (class_name ps) (lines ps) s
    (list_idx ps) (seen_in ps) (seen_at ps) (seen_if ps) (pos ps).

Definition set_seen_in (b : bool) (ps : parse_state) : parse_state :=
  mk_parse_state (func_name ps) (class_name ps) (lines ps) (cond ps)
    (list_idx ps) b (seen_at ps) (seen_if ps) (pos ps).

Definition set_seen_at (b : bool) (ps : parse_state) : parse_state :=
  mk_parse_state (func_name ps) (class_name ps) (lines ps) (cond ps)
    (list_idx ps) (seen_in ps) b (seen_if ps) (pos ps).

(** lines[list_idx++] = line *)
Definition push_line (line : Z) (ps : parse_state) : parse_state :=
  mk_parse_state (func_name ps) (class_name ps)
    (<[list_idx ps := line]> (lines ps)) (cond ps)
    (list_idx ps + 1) (seen_in ps) (seen_at ps) (seen_if ps) (pos ps).

Definition tok_name (tok : dbstop_args) : string :=
  match tok with
  | dbstop_in => "in"
  | dbstop_at => "at"
  | _ => "if"
  end.

(** The head of the loop: allow "in" and "at" to be implicit.  Returns tok
    and the new value of pos. *)
Definition classify (args : list octave_value) (pos : nat)
  : M (dbstop_args * nat) :=
  if is_string (arg_at args pos) then
    arg ← get_string (arg_at args pos);
    if String.eqb arg "in" then mret (dbstop_in, S pos)
    else if String.eqb arg "at" then mret (dbstop_at, S pos)
    else if String.eqb arg "if" then mret (dbstop_if, S pos)
    else if 0 <? atoi arg then mret (dbstop_at, pos)
    else mret (dbstop_in, pos)
  else mret (dbstop_at, pos).

(** Read a list of line numbers (or arrays thereof); [rest] holds the
    arguments from pos on. *)
Fixpoint read_lines (who : string) (rest : list octave_value)
    (ps : parse_state) : M parse_state :=
  match rest with
  | [] => mret ps
  | v :: rest' =>
      if is_string v then
        s ← get_string v;
        let line := atoi s in
        if 0 <? line
        then read_lines who rest' (set_pos (S (pos ps)) (push_line line ps))
        else mret ps              (* may be "if" or a method name *)
      else if isnumeric v then
        read_lines who rest'
          (set_pos (S (pos ps))
             (fold_left (λ ps elem, push_line elem ps) (array_value v) ps))
      else error (who +:+ ": Invalid argument type " +:+ type_name v)
  end.

(** The remaining arguments form the condition; [rest] holds the arguments
    from pos on. *)
Fixpoint read_cond (who : string) (rest : list octave_value) (cond : string)
  : M string :=
  match rest with
  | [] => mret cond
  | v :: rest' =>
      if is_string v then
        s ← get_string v;
        read_cond who rest' (cond +:+ " " +:+ s)
      else error (who +:+ ": arguments to 'if' must all be strings")
  end.

(** cond.substr (1) *)
Definition substr_from_1 (s : string) : string :=
  substring 1 (String.length s - 1) s.

Definition process_in (who : string) (args : list octave_value)
    (ps : parse_state) : M parse_state :=
  func_name ← get_string (arg_at args (pos ps));
  if seen_in ps
  then error (who +:+ ": Too many function names specified -- " +:+ func_name)
  else if seen_at ps || seen_if ps
  then error (who +:+ ": function name must come before line number and 'if'")
  else mret (set_pos (S (pos ps)) (set_seen_in true (set_func_name func_name ps))).

Definition process_at (ev : tree_evaluator) (who : string)
    (args : list octave_value) (ps : parse_state) : M parse_state :=
  if seen_at ps then
    arg ← get_string (arg_at args (pos ps));
    error (who +:+ ": Only one 'at' clause is allowed -- " +:+ arg)
  else if seen_if ps
  then error (who +:+ ": line number must come before 'if' clause")
  else
    let ps := set_seen_at true ps in
    if seen_if ps
    then error (who +:+ ": line number must come before 'if' clause")
    else if seen_in ps then
      arg ← get_string (arg_at args (pos ps));
      if atoi arg =? 0 then
        (* We have class and function names but already
           stored the class name in func_name. *)
        mret (set_pos (S (pos ps))
                (set_func_name arg (set_class_name (func_name ps) ps)))
      else read_lines who (drop (pos ps) args) ps
    else
      (* It was a line number.  Get function name from debugger. *)
      if in_debug_repl ev
      then read_lines who (drop (pos ps) args)
             (set_seen_in true (set_func_name (debugged_profiler_name ev) ps))
      else error (who +:+ ": function name must come before line number "
                      +:+ "and 'if'").

(** DBSTOP_NANINF is not defined: "if naninf" only warns. *)
Definition process_if (who : string) (args : list octave_value)
    (ps : parse_state) : M parse_state :=
  let nargin := length args in
  if seen_in ps then
    (* conditional breakpoint *)
    cond ← read_cond who (drop (pos ps) args) "";
    mret (set_pos (Nat.max (pos ps) nargin) (set_cond (substr_from_1 cond) ps))
  else
    (* stop on event (error, warning, interrupt, NaN/inf) *)
    condition ← get_string (arg_at args (pos ps));
    let on_off := String.eqb who "dbstop" in
    (if String.eqb condition "error"
     then process_id_list who condition args nargin (pos ps) on_off
            errors_that_stop;; mret tt
     else if String.eqb condition "warning"
     then process_id_list who condition args nargin (pos ps) on_off
            warnings_that_stop;; mret tt
     else if String.eqb condition "caught" && bool_decide (S (pos ps) < nargin)%nat
     then
       next ← get_string (arg_at args (S (pos ps)));
       if String.eqb next "error"
       then process_id_list who condition args nargin (S (pos ps)) on_off
              caught_that_stop;; mret tt
       else error (who +:+ ": invalid condition " +:+ condition)
     else if String.eqb condition "interrupt"
     then modify (set_debug_on_interrupt on_off)
     else if String.eqb condition "naninf"
     then mret tt
     else error (who +:+ ": invalid condition " +:+ condition));;
    mret (set_pos nargin ps).

(** One turn of the while loop. *)
Definition parse_step (ev : tree_evaluator) (who : string)
    (args : list octave_value) (ps : parse_state) : M parse_state :=
  '(tok, pos) ← classify args (pos ps);
  if bool_decide (length args ≤ pos)%nat
  then error (who +:+ ": '" +:+ tok_name tok +:+ "' missing argument")
  else
    let ps := set_pos pos ps in
    match tok with
    | dbstop_in => process_in who args ps
    | dbstop_at => process_at ev who args ps
    | dbstop_if => process_if who args ps
    | dbstop_none => mret ps      (* dbstop_none should never occur *)
    end.

Fixpoint parse_loop (ev : tree_evaluator) (who : string)
    (args : list octave_value) (fuel : nat) (ps : parse_state)
  : M parse_state :=
  if bool_decide (pos ps < length args)%nat then
    match fuel with
    | O => out_of_fuel
    | S fuel' => ps' ← parse_step ev who args ps; parse_loop ev who args fuel' ps'
    end
  else mret ps.

(** [cond] is the value the caller's variable holds on entry; every turn of
    the loop consumes an argument, so one turn per argument is enough. *)
Definition parse_dbfunction_params (ev : tree_evaluator) (who : string)
    (args : list octave_value) (cond : string) : M parse_state :=
  if (length args =? 0)%nat || negb (is_string (arg_at args 0))
  then error ("Invalid call to " +:+ who)        (* print_usage *)
  else parse_loop ev who args (length args)
         (mk_parse_state "" "" ∅ cond 0 false false false 0).

(** The clauses on which the loop dispatches, in order; the last one may be
    the clause that raised the error. *)
Fixpoint clause_kinds (ev : tree_evaluator) (who : string)
    (args : list octave_value) (fuel : nat) (ps : parse_state) (st : bp_table)
  : list dbstop_args :=
  if bool_decide (pos ps < length args)%nat then
    match fuel with
    | O => []
    | S fuel' =>
        match classify args (pos ps) st with
        | (Ok (tok, _), _) =>
            tok :: match parse_step ev who args ps st with
                   | (Ok ps', st') => clause_kinds ev who args fuel' ps' st'
                   | _ => []
                   end
        | _ => []
        end
    end
  else [].

Definition parsed_clauses (ev : tree_evaluator) (who : string)
    (args : list octave_value) (cond : string) (st : bp_table)
  : list dbstop_args :=
  clause_kinds ev who args (length args)
    (mk_parse_state "" "" ∅ cond 0 false false false 0) st.

(** A command of the model that does not stop for lack of iterations. *)
Definition total {A : Type} (m : M A) : Prop :=
  ∀ st, fst (m st) ≠ OutOfFuel.

(** The clauses the loop may still accept in a state: no function name after
    a function name or a line number, no second list of line numbers. *)
Definition clauses_allowed (ps : parse_state) : list dbstop_args :=
  (if seen_in ps || seen_at ps then [] else [dbstop_in])
  ++ (if seen_at ps then [] else [dbstop_at])
  ++ [dbstop_if].

(** The argument at the head of a list of line numbers is consumed by it. *)
Definition starts_lines (v : octave_value) : Prop :=
  is_string v = false
  ∨ ∃ s, string_value v = Some s ∧ 0 < atoi s.

(** Some clause [later] comes after some clause [earlier] in the list. *)
Fixpoint follows (later earlier : dbstop_args) (l : list dbstop_args) : bool :=
  match l with
  | [] => false
  | tok :: l' =>
      (bool_decide (tok = earlier) && bool_decide (later ∈ l'))
      || follows later earlier l'
  end.

(** The orderings of clauses that the parser has to reject: "in" after "at"
    or "if", "at" after "if", a second "in", a second "at". *)
Definition clause_order_violated (l : list dbstop_args) : bool :=
  follows dbstop_in dbstop_at l || follows dbstop_in dbstop_if l
  || follows dbstop_at dbstop_if l
  || follows dbstop_in dbstop_in l || follows dbstop_at dbstop_at l.

(** Modelled from the spec: the expression parser on the three conditions
    that the spec names (the parser is not part of bp-table.cc).  A plain
    assignment is flagged by is_assignment_expression; the compound
    assignment and the increment are expressions that are not flagged;
    anything else is taken not to parse. *)
Definition fx_condition_parse (text : string) : parse_result :=
  if String.eqb text "y=5 ;"
  then mk_parse_result 0
         (Some [Some (mk_statement 1 None (Some (mk_expression true)))])
  else if String.eqb text "y+=10 ;" || String.eqb text "y++ ;"
  then mk_parse_result 0
         (Some [Some (mk_statement 1 None (Some (mk_expression false)))])
  else mk_parse_result 1 None.

Definition fx_condition_evaluator : tree_evaluator :=
  mk_evaluator (λ _ _, None) false "" fx_condition_parse.


(** [r] is the function of the map that begins nearest at or after the
    line. *)
Definition nearest_from (subfcns : list (string * octave_user_code))
    (lineno : Z) (r : octave_user_code) : Prop :=
  In r (map snd subfcns)
  ∧ is_user_function r = true
  ∧ lineno ≤ beginning_line r
  ∧ ∀ q, In q subfcns → is_user_function (snd q) = true →
         lineno ≤ beginning_line (snd q) →
         beginning_line r ≤ beginning_line (snd q).

(** The name under which add_breakpoint_1 records fname: what precedes the
    first '>' of a name of the form file>subfunction, else the name. *)
Definition recorded_name (fname : string) : string :=
  match strchr fname ">" with
  | Some n => substring 0 n fname
  | None => fname
  end.

(** The routine is one of the tree of some function of the map. *)
Definition below (subfcns : list (string * octave_user_code))
    (r : octave_user_code) : Prop :=
  ∃ p, In p subfcns ∧ In r (routines (snd p)).

(** A recursive call on a function of the map returns a routine of the tree
    of that function. *)
Definition rec_in_tree
    (rec : octave_user_code → Z → option Z → option octave_user_code * option Z)
    (lineno : Z) (subfcns : list (string * octave_user_code)) : Prop :=
  ∀ p e r, In p subfcns → fst (rec (snd p) lineno e) = Some r →
           In r (routines (snd p)).

(** A recursive call on a function of the map whose end is at or after the
    line finds a routine and does not raise *end_line. *)
Definition rec_finds
    (rec : octave_user_code → Z → option Z → option octave_user_code * option Z)
    (lineno : Z) (subfcns : list (string * octave_user_code)) : Prop :=
  ∀ p E, In p subfcns → is_user_function (snd p) = true →
         lineno ≤ ending_line (snd p) < INT_MAX →
         ∃ r E', rec (snd p) lineno (Some E) = (Some r, Some E') ∧ E' ≤ E.

(** While the loop runs, earliest_end is INT_MAX until a routine is found. *)
Definition found_or_unbounded (st : resolver_state) : Prop :=
  earliest_end st ≤ INT_MAX
  ∧ (is_Some (retval st) ∨ earliest_end st = INT_MAX).

(** A command that leaves the table as it is, whatever its outcome. *)
Definition pure {A : Type} (m : M A) : Prop :=
  ∀ st, snd (m st) = st.

(** A command that leaves the table as it is when it raises an error. *)
Definition error_atomic {A : Type} (m : M A) : Prop :=
  ∀ st msg, fst (m st) = Error msg → snd (m st) = st.

(** The line map of the parser is indexed 0, 1, ..., list_idx - 1. *)
Definition lines_indexed (ps : parse_state) : Prop :=
  0 ≤ list_idx ps
  ∧ Z.of_nat (size (lines ps)) = list_idx ps
  ∧ ∀ i, is_Some (lines ps !! i) ↔ 0 ≤ i < list_idx ps.

(** The parse state after a list of line numbers has been read. *)
Definition add_lines (l : list Z) (ps : parse_state) : parse_state :=
  set_pos (pos ps + length l)
    (fold_left (λ ps elem, push_line elem ps) l ps).

(** Not one of the three keywords of the command. *)
Definition not_keyword (s : string) : Prop :=
  s ≠ "in" ∧ s ≠ "at" ∧ s ≠ "if".

(** A trigger whose identifier set is not empty is switched on. *)
Definition triggers_consistent (st : bp_table) : Prop :=
  ∀ t, read_ids (trigger_ids t) st ≠ ∅ → trigger_flag t st = true.

(** A command that keeps a property of the table, whatever its outcome. *)
Definition preserves {A : Type} (P : bp_table → Prop) (m : M A) : Prop :=
  ∀ st, P st → P (snd (m st)).

(** ** Clearing, reporting and restoring the triggers *)

(** Clear all reasons to stop, other than breakpoints. *)
Definition dbclear_all_signals : M unit :=
  modify (set_debug_on_error false);;
  modify (set_errors_that_stop ∅);;
  modify (set_debug_on_caught false);;
  modify (set_caught_that_stop ∅);;
  modify (set_debug_on_warning false);;
  modify (set_warnings_that_stop ∅);;
  modify (set_debug_on_interrupt false).

(** Modelled from the spec: a value held in a field of a structured record,
    seen through the observers that dbstop_process_map_args calls on it. *)
Record map_value := mk_map_value {
  isempty : bool;
  iscell : bool;
  cell_value : list octave_value
}.

(** Modelled from the spec: octave_value (""), the marker of a trigger that
    is active for every event. *)
Definition mv_empty_string : map_value := mk_map_value true false [].

(** Modelled from the spec: octave_value (c) for a Cell c of strings, the
    identifiers of an active trigger. *)
Definition mv_cell (c : list string) : map_value :=
  mk_map_value (bool_decide (c = [])) true (ov_string <$> c).

(** Modelled from the spec: octave_value (), the value of the presence-only
    field. *)
Definition mv_undefined : map_value := mk_map_value true false [].

(** Modelled from the spec: a structured record (octave_map); a field holds
    a Cell with one value for each element of the record. *)
Abbreviation octave_map := (gmap string (list map_value)).

(** Modelled from the spec: mv.contents (k), which is empty for a field
    that the record does not have. *)
Definition contents (mv : octave_map) (k : string) : list map_value :=
  default [] (mv !! k).

(** Modelled from the spec: mv.isfield (k). *)
Definition isfield (mv : octave_map) (k : string) : bool :=
  bool_decide (is_Some (mv !! k)).

(** Modelled from the spec: retval.assign (k, v) on a record of one
    element. *)
Definition assign (k : string) (v : map_value) (mv : octave_map) : octave_map :=
  <[k := [v]]> mv.

(** The block that dbstop_process_map_args runs for each of the fields
    "errs", "caught" and "warn", with the identifier set and the flag of the
    trigger. *)
Definition process_map_field (mv : octave_map) (field : string)
    (id_list : id_list_ref) (set_flag : bool → bp_table → bp_table) : M unit :=
  let U := contents mv field in
  fail ← (if negb (length U =? 1)%nat then mret (1 <? length U)%nat
          else
            match take 1 U with          (* W = U.index (0) *)
            | [] => modify (set_flag true);; mret false
            | w0 :: _ =>
                if isempty w0 then modify (set_flag true);; mret false
                else if negb (iscell w0) then mret true
                else
                  for_each (cell_value w0)
                    (λ _ v,
                       id ← get_string v;
                       modify (λ t, write_ids id_list
                                      ({[id]} ∪ read_ids id_list t) t);;
                       modify (set_flag true))
                    tt;;
                  mret false
            end);
  if fail : bool
  then error ("dbstop: invalid '" +:+ field +:+ "' field")
  else mret tt.

(** Process the "warn", "errs", "caught" and "intr" fields for a call of
    "dbstop (p)". *)
Definition dbstop_process_map_args (mv : octave_map) : M unit :=
  process_map_field mv "errs" errors_that_stop set_debug_on_error;;
  process_map_field mv "caught" caught_that_stop set_debug_on_caught;;
  process_map_field mv "warn" warnings_that_stop set_debug_on_warning;;
  if isfield mv "intr" then modify (set_debug_on_interrupt true) else mret tt.

(** The elements of a std::set of strings in the order of iteration. *)
Definition ids_in_order (s : gset string) : list string :=
  merge_sort String.le (elements s).

(** The block that stop_on_err_warn_status runs for each of the three
    triggers; [out] holds the lines written to octave_stdout so far (without
    their newline), [retval] the record built so far. *)
Definition report_trigger (to_screen flag : bool) (ids : gset string)
    (label field : string) (acc : list string * octave_map)
  : list string * octave_map :=
  let '(out, retval) := acc in
  if flag then
    if bool_decide (ids = ∅) then
      if to_screen then ((out ++ [label])%list, retval)
      else (out, assign field mv_empty_string retval)
    else
      if to_screen
      then ((out ++ ((λ e, label +:+ " " +:+ e) <$> ids_in_order ids))%list,
            retval)
      else (out, assign field (mv_cell (ids_in_order ids)) retval)
  else acc.

(** Report the status of "dbstop if error ..." and "dbstop if warning ...":
    the lines written to octave_stdout and the record returned. *)
Definition stop_on_err_warn_status (to_screen : bool) (st : bp_table)
  : list string * octave_map :=
  let acc := ([], ∅) in
  let acc := report_trigger to_screen (debug_on_error st)
               (m_errors_that_stop st) "stop if error" "errs" acc in
  let acc := report_trigger to_screen (debug_on_caught st)
               (m_caught_that_stop st) "stop if caught error" "caught" acc in
  let acc := report_trigger to_screen (debug_on_warning st)
               (m_warnings_that_stop st) "stop if warning" "warn" acc in
  if Vdebug_on_interrupt st then
    if to_screen then ((acc.1 ++ ["stop if interrupt"])%list, acc.2)
    else (acc.1, assign "intr" mv_undefined acc.2)
  else acc.

(** The field of the status record that reports a trigger. *)
Definition trigger_field (t : trigger) : string :=
  match t with
  | trig_error => "errs"
  | trig_warning => "warn"
  | trig_caught => "caught"
  end.

(** The trigger part of the table: flags, identifier sets, interrupt flag. *)
Definition same_triggers (st st' : bp_table) : Prop :=
  Vdebug_on_interrupt st' = Vdebug_on_interrupt st
  ∧ ∀ t, read_ids (trigger_ids t) st' = read_ids (trigger_ids t) st
         ∧ trigger_flag t st' = trigger_flag t st.

(** The flag setter of a trigger. *)
Definition set_trigger_flag (t : trigger) : bool → bp_table → bp_table :=
  match t with
  | trig_error => set_debug_on_error
  | trig_warning => set_debug_on_warning
  | trig_caught => set_debug_on_caught
  end.

(** One turn of the loop over the identifiers of a field. *)
Definition insert_id (t : trigger) (st : bp_table) (id : string) : bp_table :=
  set_trigger_flag t true
    (write_ids (trigger_ids t) ({[id]} ∪ read_ids (trigger_ids t) st) st).

(** The second table has all that the first has: the identifiers and the
    flags that are on; the breakpoints are the same. *)
Definition triggers_grow (st st' : bp_table) : Prop :=
  (∀ t, read_ids (trigger_ids t) st ⊆ read_ids (trigger_ids t) st'
        ∧ (trigger_flag t st = true → trigger_flag t st' = true))
  ∧ (Vdebug_on_interrupt st = true → Vdebug_on_interrupt st' = true)
  ∧ m_bp_set st' = m_bp_set st
  ∧ stmt_lists st' = stmt_lists st.

(** The number of lines that the text mode of the status report prints for
    a trigger. *)
Definition trigger_lines (flag : bool) (ids : gset string) : nat :=
  if flag then Nat.max 1 (size ids) else 0%nat.

(** ** Listing the breakpoints *)

(** Modelled from the spec: breakpoints_and_conds () of the body store, the
    lines that hold a breakpoint, each with its condition. *)
Definition breakpoints_and_conds (cmds : tree_statement_list)
  : list (Z * string) :=
  omap (λ stmt, (λ c, (stmt_line stmt, c)) <$> stmt_bp stmt) cmds.

(** bp_table::fname_bp_map is std::map<std::string, std::list<bp_type>>. *)
Abbreviation fname_bp_map := (gmap string (list (Z * string))).

Fixpoint find_bkpt_list (slist : list octave_value) (match_ : string)
  : M string :=
  match slist with
  | [] => mret ""
  | v :: rest =>
      s ← get_string v;
      if String.eqb s match_ then get_string v
      else find_bkpt_list rest match_
  end.

(** retval[key] = bkpts, when the body has breakpoints. *)
Definition record_breakpoints (cmds : option nat) (key : string)
    (retval : fname_bp_map) : M fname_bp_map :=
  match cmds with
  | Some cmds =>
      l ← load cmds;
      let bkpts := breakpoints_and_conds l in
      if negb (length bkpts =? 0)%nat
      then mret (<[key := bkpts]> retval)
      else mret retval
  | None => mret retval
  end.

(** The body of the loop of get_breakpoint_list, for one name of the set. *)
Definition get_breakpoint_list_file (ev : tree_evaluator)
    (fname_list : list octave_value) (retval : fname_bp_map)
    (bp_fname : string) : M fname_bp_map :=
  listed ← (if (length fname_list =? 0)%nat then mret true
            else
              s ← find_bkpt_list fname_list bp_fname;
              mret (negb (String.eqb s "")));
  if listed : bool then
    match get_user_code ev bp_fname "" with
    | Some dbg_fcn =>
        retval ← record_breakpoints (body dbg_fcn) bp_fname retval;
        (* look for breakpoints in subfunctions *)
        for_each (subfunction_names dbg_fcn)
          (λ retval subfcn_nm,
             match find_subfunction (subfunctions dbg_fcn) subfcn_nm with
             | Some dbg_subfcn =>
                 record_breakpoints (body dbg_subfcn)
                   (bp_fname +:+ ">" +:+ name dbg_subfcn) retval
             | None => mret retval
             end)
          retval
    | None => mret retval
    end
  else mret retval.

Definition get_breakpoint_list (ev : tree_evaluator)
    (fname_list : list octave_value) : M fname_bp_map :=
  (* make copy since changes may invalidate iters of m_bp_set. *)
  tmp_bp_set ← gets m_bp_set;
  for_each (ids_in_order tmp_bp_set) (get_breakpoint_list_file ev fname_list) ∅.

(** A command that leaves the table [st] as it is and whose result, when it
    returns one, satisfies [Q]. *)
Definition reads {A : Type} (st : bp_table) (m : M A) (Q : A → Prop) : Prop :=
  snd (m st) = st ∧ ∀ a, fst (m st) = Ok a → Q a.

(** A command that returns a result that satisfies [Q] and leaves the table
    [st] as it is. *)
Definition returns {A : Type} (st : bp_table) (m : M A) (Q : A → Prop) : Prop :=
  ∃ a, m st = (Ok a, st) ∧ Q a.

(** What an entry of the list of breakpoints can be: the name of a file of
    the set or the name of one of its subfunctions behind the name of the
    file, for a file that the list of the caller names (when it names any),
    with a list of breakpoints that is not empty. *)
Definition listed_entry (st : bp_table) (fname_list : list octave_value)
    (key : string) (bkpts : list (Z * string)) : Prop :=
  bkpts ≠ []
  ∧ ∃ f, f ∈ m_bp_set st
         ∧ (key = f ∨ ∃ sub, key = f +:+ ">" +:+ sub)
         ∧ (fname_list ≠ [] → ∃ v, v ∈ fname_list ∧ string_value v = Some f).

(** The table after dbstop in f at 5 if a==5. *)
Definition fx_listed_table : bp_table :=
  set_bp_set {[ "f" ]}
    (set_stmt_lists
       (<[0%nat := [stmt_at 4; mk_statement 5 (Some "a==5") None; stmt_at 8]]>
          fx_stmt_lists)
       empty_table).

(** A command that returns a result on every table. *)
Definition never_fails {A : Type} (m : M A) : Prop :=
  ∀ st, ∃ a st', m st = (Ok a, st').

(** u.m: function f on lines 3 to 10 and two subfunctions whose names do not
    sort like their lines: z on lines 12 to 20 and a on lines 30 to 40.  The
    map hands out a before z. *)
Definition fx_u_a : octave_user_code := leaf_function "a" 30 40 1.
Definition fx_u_z : octave_user_code := leaf_function "z" 12 20 2.
Definition fx_u : octave_user_code :=
  mk_user_code true "f" "/w/u.m" 3 10 (Some 0%nat) ["z"; "a"]
    [("a", fx_u_a); ("z", fx_u_z)].






(* ================================================================== *)
(** * Part II: properties *)
(* ================================================================== *)

(** ** Trigger flags *)

Section TriggerFlags.

Variables (who : string) (args : list octave_value) (pos : nat).

(** C4.  For each of the three triggers and every call of process_id_list:
    with an identifier as the last argument, enabling inserts it and turns
    the flag on, disabling erases it and turns the flag off exactly when the
    set is empty afterwards (the flag is left as it is otherwise); with no
    identifier the set is cleared and the flag takes the requested value. *)
Theorem process_id_list_upsert (t : trigger) (st : bp_table) :
  let ids := read_ids (trigger_ids t) in
  let run := λ on_off,
    process_id_list who (trigger_condition t) args (length args) pos on_off
      (trigger_ids t) st in
  (∀ id : string,
      length args = S (S pos) →
      is_string (arg_at args (S pos)) = true →
      string_value (arg_at args (S pos)) = Some id →
      (∃ st', run true = (Ok (S pos), st')
              ∧ ids st' = {[id]} ∪ ids st
              ∧ trigger_flag t st' = true)
      ∧ (∃ st', run false = (Ok (S pos), st')
                ∧ ids st' = ids st ∖ {[id]}
                ∧ trigger_flag t st'
                  = (if decide (ids st' = ∅) then false else trigger_flag t st)))
  ∧ (∀ on_off : bool,
        (length args ≤ S pos)%nat →
        ∃ st', run on_off = (Ok (S pos), st')
               ∧ ids st' = ∅
               ∧ trigger_flag t st' = on_off).
Proof.
  intros ids run. subst ids run. split.
  - intros id Hlen Hstr Hval. unfold process_id_list, get_string.
    rewrite Hlen, Hstr, Hval.
    destruct (decide (S pos < S (S pos))%nat) as [_|]; [|lia].
    rewrite bool_decide_eq_false_2 by lia. simpl negb. simpl orb. cbv iota.
    split.
    + destruct t; eexists; (split; [reflexivity|]); by simpl.
    + destruct t; unfold mbind, M_bind, modify, gets, get_string, mret, M_ret;
        simpl;
        match goal with
        | |- context [bool_decide ?P] => destruct (bool_decide_reflect P) as [He|He]
        end; simpl; eexists; (split; [reflexivity|]); simpl;
        (split; [done|]); by destruct (decide _).
  - intros on_off Hle. unfold process_id_list.
    destruct (decide (S pos < length args)%nat); [lia|].
    destruct t; eexists; (split; [reflexivity|]); by simpl.
Qed.

(** C1 (as amended): the bulk form on the error trigger sets the interrupt
    flag to exactly the requested value, when enabling and when disabling. *)
Theorem process_id_list_error_sets_interrupt (on_off : bool) (st : bp_table) :
  (length args ≤ S pos)%nat →
  ∃ st',
    process_id_list who "error" args (length args) pos on_off
      errors_that_stop st = (Ok (S pos), st')
    ∧ Vdebug_on_interrupt st' = on_off
    ∧ debug_on_error st' = on_off
    ∧ m_errors_that_stop st' = ∅.
Proof.
  intros Hle. unfold process_id_list.
  destruct (decide (S pos < length args)%nat); [lia|].
  eexists. split; [reflexivity|]. by simpl.
Qed.

End TriggerFlags.

(** C1, witness of the amended statement: dbclear if error. *)
Lemma process_id_list_error_sets_interrupt_witness :
  ∃ st',
    process_id_list "dbclear" "error" [ov_string "if"; ov_string "error"]
      2 1 false errors_that_stop (set_debug_on_interrupt true empty_table)
    = (Ok 2%nat, st')
    ∧ Vdebug_on_interrupt st' = false
    ∧ debug_on_error st' = false
    ∧ m_errors_that_stop st' = ∅.
Proof.
  apply (process_id_list_error_sets_interrupt "dbclear"
           [ov_string "if"; ov_string "error"] 1 false).
  simpl. lia.
Defined.

(** C1, counterexample to the statement as written: the interrupt flag is on,
    dbclear if error is given without identifier, and the flag is off
    afterwards. *)
Lemma disabling_error_disables_interrupt :
  let st := set_debug_on_interrupt true empty_table in
  ∃ st',
    process_id_list "dbclear" "error" [ov_string "if"; ov_string "error"]
      2 1 false errors_that_stop st = (Ok 2%nat, st')
    ∧ Vdebug_on_interrupt st = true
    ∧ Vdebug_on_interrupt st' ≠ Vdebug_on_interrupt st.
Proof.
  eexists. split; [reflexivity|]. split; [reflexivity|]. simpl. discriminate.
Qed.

(** C4, witness: the warning trigger, identifier "Octave:some-id". *)
Lemma process_id_list_upsert_witness :
  let args := [ov_string "if"; ov_string "warning"; ov_string "Octave:some-id"] in
  let st := empty_table in
  (∃ st', process_id_list "dbstop" "warning" args 3 1 true warnings_that_stop st
          = (Ok 2%nat, st')
          ∧ m_warnings_that_stop st' = {[ "Octave:some-id" ]} ∪ ∅
          ∧ debug_on_warning st' = true)
  ∧ (∃ st', process_id_list "dbstop" "warning" [ov_string "if"; ov_string "warning"]
              2 1 true warnings_that_stop st = (Ok 2%nat, st')
            ∧ m_warnings_that_stop st' = ∅
            ∧ debug_on_warning st' = true).
Proof.
  intros args st. split.
  - destruct (process_id_list_upsert "dbstop" args 1 trig_warning st) as [H _].
    destruct (H "Octave:some-id") as [H1 _]; [reflexivity..|]. exact H1.
  - destruct (process_id_list_upsert "dbstop" [ov_string "if"; ov_string "warning"]
                1 trig_warning st) as [_ H].
    apply (H true). simpl. lia.
Defined.

(** ** The line resolver *)

Example resolve_f_5 : fst (find_fcn_by_line fx_f 5 None) = Some fx_f.
Proof. reflexivity. Qed.
Example resolve_f_45 : fst (find_fcn_by_line fx_f 45 None) = Some fx_k.
Proof. reflexivity. Qed.
Example resolve_f_55 : fst (find_fcn_by_line fx_f 55 None) = Some fx_h.
Proof. reflexivity. Qed.
Example resolve_f_25 : fst (find_fcn_by_line fx_f 25 None) = Some fx_h.
Proof. reflexivity. Qed.
Example resolve_f_70 : fst (find_fcn_by_line fx_f 70 None) = None.
Proof. reflexivity. Qed.
Example resolve_f_1 : fst (find_fcn_by_line fx_f 1 None) = Some fx_f.
Proof. reflexivity. Qed.
Example fx_f_well_formed : well_formed fx_f = true.
Proof. reflexivity. Qed.

Lemma user_code_ind (P : octave_user_code → Prop) :
  (∀ c, (∀ p, In p (subfunctions c) → P (snd p)) → P c) → ∀ c, P c.
Proof.
  intros H. fix IH 1. intros [f n fn b e bd sn subs]. apply H. simpl.
  induction subs as [|p subs IHs]; intros q Hq.
  - destruct Hq.
  - destruct Hq as [<-|Hq]; [apply IH | apply IHs, Hq].
Qed.

Section ResolverLoop.

Variable rec : octave_user_code → Z → option Z → option octave_user_code * option Z.
Variable lineno : Z.



End ResolverLoop.






(** The map is iterated in the order of the names: in u.m, line 11 lies
    after f, z begins nearest after it (line 12), and the resolver returns
    a (line 30), which the map hands out first. *)
Example snap_forward_follows_map_order :
  fst (find_fcn_by_line fx_u 11 None) = Some fx_u_a
  ∧ nearest_from (subfunctions fx_u) 11 fx_u_z
  ∧ fx_u_a ≠ fx_u_z.
Proof.
  split; [reflexivity|]. split; [|discriminate].
  split; [simpl; tauto|]. split; [done|]. split; [simpl; lia|].
  intros q [<-|[<-|[]]] _ _; simpl; lia.
Qed.


Ltac to_prop :=
  repeat match goal with
    | H : _ && _ = true |- _ => apply andb_true_iff in H; destruct H
    | H : (_ <=? _) = true |- _ => apply Z.leb_le in H
    | H : (_ <? _) = true |- _ => apply Z.ltb_lt in H
    | H : (_ <=? _) = false |- _ => apply Z.leb_gt in H
    | H : (_ <? _) = false |- _ => apply Z.ltb_ge in H
    end.

Lemma find_fcn_by_line_eq c lineno end_line :
  find_fcn_by_line c lineno end_line
  = resolver_finish c lineno end_line
      (fold_left (resolver_step find_fcn_by_line lineno) (subfunctions c)
         (mk_resolver_state None None INT_MAX)).
Proof. by destruct c. Qed.

Lemma routines_eq c :
  routines c = c :: flat_map (λ p, routines (snd p)) (subfunctions c).
Proof. by destruct c. Qed.









Section ResolverLoopContainer.

Variable rec : octave_user_code → Z → option Z → option octave_user_code * option Z.
Variable lineno : Z.




End ResolverLoopContainer.




Section ResolverAnyTree.

Variable rec : octave_user_code → Z → option Z → option octave_user_code * option Z.
Variable lineno : Z.



End ResolverAnyTree.








(** ** Removing breakpoints *)

(** C2, the code at a failing input: f holds breakpoints on lines 4, 5 and 8;
    removing the one on line 5 removes one breakpoint and returns 2, the
    number of breakpoints that remain. *)
Lemma remove_breakpoint_returns_remaining :
  let st := snd (add_breakpoint fx_evaluator "f" "" {[0 := 4; 1 := 5; 2 := 8]}
                   "" fx_table) in
  let res := remove_breakpoint fx_evaluator "f" {[0 := 5]} st in
  file_breakpoints st fx_f = [4; 5; 8]
  ∧ file_breakpoints (snd res) fx_f = [4; 8]
  ∧ fst res = Ok 2.
Proof. vm_compute. done. Qed.

(** C3, the code at a failing input: with a breakpoint in f (line 5) and one
    in its subfunction g (line 15), removing the one on line 5 takes "f" out
    of the set although g still holds its breakpoint. *)
Lemma remove_breakpoint_forgets_subfunction :
  let st1 := snd (add_breakpoint fx_evaluator "f" "" {[0 := 5]} "" fx_table) in
  let st2 := snd (add_breakpoint fx_evaluator "f" "" {[0 := 15]} "" st1) in
  let res := remove_breakpoint fx_evaluator "f" {[0 := 5]} st2 in
  elements (m_bp_set st2) = ["f"]
  ∧ file_breakpoints st2 fx_f = [5; 15]
  ∧ fst res = Ok 1
  ∧ elements (m_bp_set (snd res)) = []
  ∧ list_breakpoints (body_of (snd res) fx_g) = [15].
Proof. vm_compute. done. Qed.

(** ** Clearing the whole table *)

Lemma set_min_None (s : gset string) : set_min s = None → s = ∅.
Proof.
  unfold set_min. intros H. apply leibniz_equiv, elements_empty_inv.
  apply Permutation_nil_r. rewrite <- (merge_sort_Permutation String.le).
  by destruct (merge_sort String.le (elements s)).
Qed.

Lemma set_min_Some (s : gset string) (m : string) :
  set_min s = Some m → m ∈ s ∧ ∀ y, y ∈ s → String.le m y.
Proof.
  unfold set_min. intros H.
  pose proof (StronglySorted_merge_sort String.le (elements s)) as Hsorted.
  pose proof (merge_sort_Permutation String.le (elements s)) as Hperm.
  destruct (merge_sort String.le (elements s)) as [|x l]; simplify_eq/=.
  split.
  - apply elem_of_elements. rewrite <- Hperm. by left.
  - intros y Hy. apply elem_of_elements in Hy. rewrite <- Hperm in Hy.
    apply StronglySorted_inv in Hsorted as [_ Hall].
    apply elem_of_cons in Hy as [->|Hy]; [done|].
    by eapply Forall_forall in Hall.
Qed.

Lemma remove_all_breakpoints_in_file_cases ev fname st :
  (∃ ret st', resolves_to_body ev fname
              ∧ remove_all_breakpoints_in_file ev fname false st = (Ok ret, st')
              ∧ m_bp_set st' = m_bp_set st ∖ {[ fname ]})
  ∨ (∃ fcn, get_user_code ev fname "" = Some fcn ∧ body fcn = None
            ∧ remove_all_breakpoints_in_file ev fname false st = (Ok ∅, st))
  ∨ (∃ msg, get_user_code ev fname "" = None
            ∧ remove_all_breakpoints_in_file ev fname false st = (Error msg, st)).
Proof.
  unfold remove_all_breakpoints_in_file, resolves_to_body.
  destruct (get_user_code ev fname "") as [fcn|] eqn:Hfcn.
  - destruct (body fcn) as [cmds|] eqn:Hbody.
    + left. unfold mbind, M_bind, load, store, gets, modify, mret, M_ret.
      destruct (stmts_remove_all_breakpoints _) as [ret l'] eqn:Hrm.
      eexists _, _. split; [eauto|]. split; [reflexivity|]. simpl.
      destruct (bool_decide _) eqn:Hb; simpl; [done|].
      apply bool_decide_eq_false in Hb. apply set_eq. intros y.
      rewrite elem_of_difference, elem_of_singleton.
      split; [intros Hy; split; [done | by intros ->] | by intros [? _]].
    + right. left. eauto.
  - right. right. eauto.
Qed.

Lemma set_next_Some (s : gset string) (x y : string) :
  set_next s x = Some y →
  y ∈ s ∧ x ≠ y ∧ String.le x y
  ∧ ∀ z, z ∈ s → x ≠ z → String.le x z → String.le y z.
Proof.
  intros Hy. apply set_min_Some in Hy as [Hy Hmin].
  apply elem_of_filter in Hy as [[??] ?]. repeat (split; [done|]).
  intros z ???. by apply Hmin, elem_of_filter.
Qed.

Lemma set_next_None (s : gset string) (x : string) :
  set_next s x = None → ∀ z, z ∈ s → String.le x z → x = z.
Proof.
  intros Hn z Hz Hle. apply set_min_None in Hn.
  destruct (decide (x = z)) as [|Hne]; [done|]. exfalso.
  assert (z ∈ filter (λ y, x ≠ y ∧ String.le x y) s) as Hzin
    by (by apply elem_of_filter).
  rewrite Hn in Hzin. by apply not_elem_of_empty in Hzin.
Qed.

(** What remains to be visited shrinks with every step of the iterator. *)
Lemma from_iterator_shrinks (s s' : gset string) (x : string) :
  x ∈ s → s' ⊆ s →
  filter (from_iterator (set_next s x)) s' ⊂ filter (from_iterator (Some x)) s.
Proof.
  intros Hx Hsub. split.
  - intros z [Hz1 Hz2]%elem_of_filter. apply elem_of_filter.
    split; [|by apply Hsub].
    destruct (set_next s x) as [y|] eqn:Hy; [|done]. simpl in *.
    destruct (set_next_Some _ _ _ Hy) as (_ & _ & Hxy & _). by etrans.
  - intros Hsup.
    assert (x ∈ filter (from_iterator (set_next s x)) s') as Hx'.
    { apply Hsup, elem_of_filter. split; [simpl; reflexivity | done]. }
    apply elem_of_filter in Hx' as [Hx' _].
    destruct (set_next s x) as [y|] eqn:Hy; [|done]. simpl in *.
    destruct (set_next_Some _ _ _ Hy) as (_ & Hne & Hxy & _).
    apply Hne. by apply (anti_symm String.le).
Qed.

Lemma remove_all_breakpoints_loop_step ev fuel x st :
  remove_all_breakpoints_loop ev (S fuel) (Some x) st
  = match remove_all_breakpoints_in_file ev x false st with
    | (Ok _, st') =>
        remove_all_breakpoints_loop ev fuel (set_next (m_bp_set st) x) st'
    | (Error msg, st') => (Error msg, st')
    | (OutOfFuel, st') => (OutOfFuel, st')
    end.
Proof. reflexivity. Qed.

Lemma remove_all_breakpoints_loop_spec ev : ∀ fuel it st,
  (∀ x, it = Some x → x ∈ m_bp_set st) →
  (size (filter (from_iterator it) (m_bp_set st)) ≤ fuel)%nat →
  fst (remove_all_breakpoints_loop ev fuel it st) ≠ OutOfFuel
  ∧ ((∀ y, y ∈ m_bp_set st → resolves_to_body ev y) →
     (∀ y, y ∈ m_bp_set st → from_iterator it y) →
     ∃ st', remove_all_breakpoints_loop ev fuel it st = (Ok tt, st')
            ∧ m_bp_set st' = ∅).
Proof.
  assert (Hdone : ∀ fuel st,
    fst (remove_all_breakpoints_loop ev fuel None st) ≠ OutOfFuel
    ∧ ((∀ y, y ∈ m_bp_set st → resolves_to_body ev y) →
       (∀ y, y ∈ m_bp_set st → from_iterator None y) →
       ∃ st', remove_all_breakpoints_loop ev fuel None st = (Ok tt, st')
              ∧ m_bp_set st' = ∅)).
  { intros fuel st. split; [by destruct fuel|]. intros _ Hall. exists st.
    split; [by destruct fuel|]. apply set_eq. intros y. split.
    - intros Hy. destruct (Hall y Hy).
    - intros Hy. by apply not_elem_of_empty in Hy. }
  induction fuel as [|fuel IH]; intros [x|] st Hin Hsize; try apply Hdone.
  - (* no iteration left and the iterator is not at the end *)
    exfalso. specialize (Hin x eq_refl).
    assert (size (filter (from_iterator (Some x)) (m_bp_set st)) ≠ 0%nat).
    { apply size_non_empty_iff. intros Hempty.
      assert (x ∈ filter (from_iterator (Some x)) (m_bp_set st)) as Hx
        by (apply elem_of_filter; split; [simpl; reflexivity | done]).
      rewrite Hempty in Hx. by apply not_elem_of_empty in Hx. }
    lia.
  - specialize (Hin x eq_refl).
    rewrite remove_all_breakpoints_loop_step.
    destruct (remove_all_breakpoints_in_file_cases ev x st)
      as [(ret & st' & Hres & -> & Hset)|[(fcn & Hf & Hb & ->)|(msg & Hf & ->)]].
    + (* the file is cleared and its name erased *)
      destruct (IH (set_next (m_bp_set st) x) st') as [IH1 IH2].
      { intros y Hy. destruct (set_next_Some _ _ _ Hy) as (? & ? & _).
        rewrite Hset. apply elem_of_difference. split; [done|].
        rewrite elem_of_singleton. congruence. }
      { assert (Hsub := from_iterator_shrinks (m_bp_set st) (m_bp_set st') x Hin).
        apply subset_size in Hsub; [lia|].
        rewrite Hset. intros z Hz. by apply elem_of_difference in Hz as [? _]. }
      split; [done|]. intros Hres' Hall. apply IH2.
      * intros y Hy. apply Hres'. rewrite Hset in Hy.
        by apply elem_of_difference in Hy as [? _].
      * intros y Hy. rewrite Hset in Hy.
        apply elem_of_difference in Hy as [Hy Hne].
        rewrite elem_of_singleton in Hne.
        assert (x ≠ y) by congruence. specialize (Hall y Hy). simpl in Hall.
        destruct (set_next (m_bp_set st) x) as [z|] eqn:Hz; simpl.
        -- destruct (set_next_Some _ _ _ Hz) as (_ & _ & _ & Hmin). by apply Hmin.
        -- by pose proof (set_next_None _ _ Hz y Hy Hall).
    + (* a routine without a body: nothing changes *)
      destruct (IH (set_next (m_bp_set st) x) st) as [IH1 IH2].
      { intros y Hy. by destruct (set_next_Some _ _ _ Hy). }
      { assert (Hsub := from_iterator_shrinks (m_bp_set st) (m_bp_set st) x Hin).
        apply subset_size in Hsub; [lia|done]. }
      split; [done|]. intros Hres' Hall.
      destruct (Hres' x Hin) as (fcn' & cmds & Hf' & Hb'). congruence.
    + (* the name does not resolve: error *)
      split; [done|]. intros Hres' _.
      destruct (Hres' x Hin) as (fcn' & cmds & Hf' & Hb'). congruence.
Qed.

(** C9 (as amended): with one iteration per name of the set, the loop of
    remove_all_breakpoints comes to its end; when every name of the set
    resolves to a routine with a body, it ends without an error and the set
    is empty afterwards. *)
Theorem remove_all_breakpoints_empties (ev : tree_evaluator) (fuel : nat)
    (st : bp_table) :
  (size (m_bp_set st) ≤ fuel)%nat →
  fst (remove_all_breakpoints ev fuel st) ≠ OutOfFuel
  ∧ ((∀ y, y ∈ m_bp_set st → resolves_to_body ev y) →
     ∃ st', remove_all_breakpoints ev fuel st = (Ok tt, st')
            ∧ m_bp_set st' = ∅).
Proof.
  intros Hfuel. unfold remove_all_breakpoints, mbind, M_bind, gets.
  destruct (set_min (m_bp_set st)) as [m|] eqn:Hmin.
  - destruct (set_min_Some _ _ Hmin) as [Hm Hle].
    destruct (remove_all_breakpoints_loop_spec ev fuel (Some m) st) as [H1 H2].
    + by intros x [= <-].
    + assert (size (filter (from_iterator (Some m)) (m_bp_set st))
              ≤ size (m_bp_set st))%nat; [|lia].
      apply subseteq_size. intros z Hz. by apply elem_of_filter in Hz as [_ ?].
    + split; [done|]. intros Hres. apply H2; [done|]. intros y Hy. by apply Hle.
  - apply set_min_None in Hmin.
    destruct (remove_all_breakpoints_loop_spec ev fuel None st) as [H1 H2].
    + done.
    + assert (size (filter (from_iterator None) (m_bp_set st)) = 0%nat) as ->;
        [|lia].
      apply size_empty_iff. intros z. split; [|by intros ?%not_elem_of_empty].
      by intros [[] _]%elem_of_filter.
    + split; [done|]. intros Hres. apply H2; [done|]. rewrite Hmin.
      intros y Hy. by apply not_elem_of_empty in Hy.
Qed.

(** C9, witness: the set holds the name of f.m. *)
Lemma remove_all_breakpoints_empties_witness :
  fst (remove_all_breakpoints fx_evaluator 1 (set_bp_set {[ "f" ]} fx_table))
  ≠ OutOfFuel
  ∧ ∃ st', remove_all_breakpoints fx_evaluator 1 (set_bp_set {[ "f" ]} fx_table)
           = (Ok tt, st')
           ∧ m_bp_set st' = ∅.
Proof.
  destruct (remove_all_breakpoints_empties fx_evaluator 1
              (set_bp_set {[ "f" ]} fx_table)) as [H1 H2].
  - vm_compute. lia.
  - split; [exact H1|]. apply H2. simpl. intros y Hy.
    apply elem_of_singleton in Hy as ->. exists fx_f, 0%nat. by split.
Defined.

(** C9, counterexample to the statement as written: a breakpoint is set in
    the method m of the class cls; its name enters the set, does not resolve
    without the class, and remove_all_breakpoints stops with an error and
    leaves the name in the set. *)
Lemma remove_all_breakpoints_unresolved_name :
  let st := snd (add_breakpoint fx_class_evaluator "m" "cls" {[0 := 5]} ""
                   fx_table) in
  let res := remove_all_breakpoints fx_class_evaluator 1 st in
  elements (m_bp_set st) = ["m"]
  ∧ fst res = Error "remove_all_breakpoint_in_file: unable to find function m"
  ∧ elements (m_bp_set (snd res)) = ["m"].
Proof. vm_compute. done. Qed.

(** ** The argument parser *)

Lemma bind_Ok_inv {A B : Type} (m : M A) (k : A → M B) st r st' :
  (m ≫= k) st = (Ok r, st') →
  ∃ a s, m st = (Ok a, s) ∧ k a s = (Ok r, st').
Proof.
  unfold mbind, M_bind. destruct (m st) as [[a|msg|] s]; [eauto | done | done].
Qed.

Lemma get_string_Ok v st s st' :
  get_string v st = (Ok s, st') → string_value v = Some s ∧ st' = st.
Proof.
  unfold get_string. destruct (string_value v); [|done].
  unfold mret, M_ret. by intros [= -> ->].
Qed.

Lemma total_ret {A : Type} (a : A) : total (mret a).
Proof. by intros st. Qed.

Lemma total_error {A : Type} msg : total (@error A msg).
Proof. by intros st. Qed.

Lemma total_modify f : total (modify f).
Proof. by intros st. Qed.

Lemma total_gets {A : Type} (f : bp_table → A) : total (gets f).
Proof. by intros st. Qed.

Lemma total_bind {A B : Type} (m : M A) (k : A → M B) :
  total m → (∀ a, total (k a)) → total (m ≫= k).
Proof.
  intros Hm Hk st. unfold mbind, M_bind. specialize (Hm st).
  destruct (m st) as [[a|msg|] s]; [apply Hk | done | done].
Qed.

Lemma total_get_string v : total (get_string v).
Proof. unfold get_string. destruct (string_value v); by intros st. Qed.

Lemma total_set_stop_flag who condition on_off :
  total (set_stop_flag who condition on_off).
Proof. unfold set_stop_flag. repeat case_match; by intros st. Qed.

Create HintDb total.

#[local] Hint Resolve total_ret total_error total_modify total_gets
  total_get_string total_set_stop_flag : total.

Ltac total_tac :=
  repeat first
    [ apply total_bind; [|intros ?]
    | progress eauto with total
    | match goal with
      | |- total (if ?b then _ else _) => destruct b
      | |- total (match ?x with _ => _ end) => destruct x
      end ].

Lemma total_process_id_list who condition args nargin pos on_off id_list :
  total (process_id_list who condition args nargin pos on_off id_list).
Proof. unfold process_id_list. total_tac. Qed.

Lemma total_classify args pos : total (classify args pos).
Proof. unfold classify. total_tac. Qed.

Lemma total_read_lines who rest : ∀ ps, total (read_lines who rest ps).
Proof. induction rest as [|v rest IH]; intros ps; simpl; total_tac. Qed.

Lemma total_read_cond who rest : ∀ cond, total (read_cond who rest cond).
Proof. induction rest as [|v rest IH]; intros cond; simpl; total_tac. Qed.

#[local] Hint Resolve total_process_id_list total_classify total_read_lines
  total_read_cond : total.

Lemma total_parse_step ev who args ps : total (parse_step ev who args ps).
Proof.
  unfold parse_step, process_in, process_at, process_if. total_tac.
Qed.

Lemma classify_Ok args p st tok p' st' :
  classify args p st = (Ok (tok, p'), st') →
  st' = st
  ∧ ((p' = S p ∧ tok ≠ dbstop_none)
     ∨ (p' = p ∧ tok = dbstop_in)
     ∨ (p' = p ∧ tok = dbstop_at ∧ starts_lines (arg_at args p))).
Proof.
  unfold classify, starts_lines. destruct (is_string (arg_at args p)) eqn:Hs.
  - intros (arg & s & [Harg ->]%get_string_Ok & Hk)%bind_Ok_inv.
    unfold mret, M_ret in Hk.
    repeat case_match; simplify_eq; (split; [done|]); eauto 8.
    right. right. repeat (split; [done|]). right. exists arg. split; [done|].
    by apply Z.ltb_lt.
  - unfold mret, M_ret. intros [= <- <- <-]. eauto 8.
Qed.

Lemma fold_push_line_flags elems : ∀ ps,
  let ps' := fold_left (λ ps elem, push_line elem ps) elems ps in
  seen_in ps' = seen_in ps ∧ seen_at ps' = seen_at ps ∧ pos ps' = pos ps.
Proof.
  induction elems as [|e elems IH]; intros ps; simpl; [done|].
  destruct (IH (push_line e ps)) as (-> & -> & ->). done.
Qed.

Lemma read_lines_Ok who rest : ∀ ps st ps' st',
  read_lines who rest ps st = (Ok ps', st') →
  st' = st
  ∧ seen_in ps' = seen_in ps ∧ seen_at ps' = seen_at ps
  ∧ (pos ps ≤ pos ps')%nat
  ∧ (∀ v rest', rest = v :: rest' → starts_lines v → (pos ps < pos ps')%nat).
Proof.
  induction rest as [|v rest IH]; intros ps st ps' st'; simpl.
  - unfold mret, M_ret. intros [= <- <-]. by repeat split.
  - destruct (is_string v) eqn:Hs.
    + intros (s & st1 & [Hv ->]%get_string_Ok & Hk)%bind_Ok_inv.
      destruct (0 <? atoi s) eqn:Hpos.
      * apply IH in Hk as (-> & -> & -> & Hle & _). simpl in Hle.
        repeat (split; [done || lia|]). intros ???. lia.
      * unfold mret, M_ret in Hk. simplify_eq. repeat (split; [done|]).
        intros v' rest' [= <- <-] [?|(s' & ? & ?)]; [congruence|].
        simplify_eq. apply Z.ltb_ge in Hpos. lia.
    + destruct (isnumeric v); [|done]. intros Hk.
      apply IH in Hk as (-> & Hin & Hat & Hle & _).
      destruct (fold_push_line_flags (array_value v) ps) as (Hfi & Hfa & Hfp).
      unfold set_pos in Hin, Hat, Hle. cbn [seen_in seen_at pos] in Hin, Hat, Hle.
      rewrite Hfi in Hin. rewrite Hfa in Hat.
      repeat (split; [done || lia|]). intros ???. lia.
Qed.

Lemma arg_at_drop args p v rest :
  drop p args = v :: rest → arg_at args p = v.
Proof.
  intros Hd. unfold arg_at.
  assert (args !! p = Some v) as ->; [|done].
  rewrite <- (Nat.add_0_r p), <- lookup_drop, Hd. done.
Qed.

Lemma drop_lt_cons (args : list octave_value) p :
  (p < length args)%nat → ∃ v rest, drop p args = v :: rest.
Proof.
  intros Hlt. destruct (drop p args) as [|v rest] eqn:Hd; [|eauto].
  apply (f_equal length) in Hd. rewrite length_drop in Hd. simpl in Hd. lia.
Qed.

Lemma process_in_Ok who args ps st ps' st' :
  process_in who args ps st = (Ok ps', st') →
  seen_in ps = false ∧ seen_at ps = false
  ∧ seen_in ps' = true ∧ seen_at ps' = false ∧ pos ps' = S (pos ps).
Proof.
  unfold process_in.
  intros (s & st1 & [Hv ->]%get_string_Ok & Hk)%bind_Ok_inv.
  destruct (seen_in ps) eqn:Hin; [done|].
  destruct (seen_at ps) eqn:Hat; [done|].
  destruct (seen_if ps); [done|]. simpl in Hk.
  unfold mret, M_ret in Hk. simplify_eq. simpl. by rewrite Hat.
Qed.

Lemma process_at_Ok ev who args ps st ps' st' :
  process_at ev who args ps st = (Ok ps', st') →
  seen_at ps = false ∧ seen_at ps' = true ∧ (pos ps ≤ pos ps')%nat
  ∧ ((pos ps < length args)%nat → starts_lines (arg_at args (pos ps)) →
     (pos ps < pos ps')%nat).
Proof.
  unfold process_at.
  destruct (seen_at ps) eqn:Hat.
  { intros (s & st1 & _ & Hk)%bind_Ok_inv. done. }
  destruct (seen_if ps) eqn:Hif; [done|]. cbn [seen_if seen_in set_seen_at].
  rewrite Hif. intros Hk. split; [done|].
  assert (Hlines : ∀ ps0, seen_at ps0 = true → pos ps0 = pos ps →
            read_lines who (drop (pos ps) args) ps0 st = (Ok ps', st') →
            seen_at ps' = true ∧ (pos ps ≤ pos ps')%nat
            ∧ ((pos ps < length args)%nat → starts_lines (arg_at args (pos ps)) →
               (pos ps < pos ps')%nat)).
  { intros ps0 Hat0 Hpos0 Hr.
    apply read_lines_Ok in Hr as (_ & _ & Hat' & Hle & Hprog).
    split; [congruence|]. split; [lia|]. intros Hlt Hstart.
    destruct (drop_lt_cons args (pos ps) Hlt) as (v & rest & Hd).
    rewrite (arg_at_drop _ _ _ _ Hd) in Hstart.
    specialize (Hprog v rest Hd Hstart). lia. }
  destruct (seen_in ps) eqn:Hin.
  - apply bind_Ok_inv in Hk as (s & st1 & [Hv ->]%get_string_Ok & Hk).
    cbn [pos set_seen_at] in Hk.
    destruct (atoi s =? 0).
    + unfold mret, M_ret in Hk. simplify_eq. simpl. split; [done|].
      split; lia.
    + by apply Hlines in Hk.
  - destruct (in_debug_repl ev); [|done]. cbn [pos set_seen_at] in Hk.
    by apply Hlines in Hk.
Qed.

Lemma process_if_Ok who args ps st ps' st' :
  process_if who args ps st = (Ok ps', st') →
  (length args ≤ pos ps')%nat.
Proof.
  unfold process_if. destruct (seen_in ps).
  - intros (c & st1 & _ & Hk)%bind_Ok_inv. unfold mret, M_ret in Hk.
    simplify_eq. simpl. lia.
  - intros (s & st1 & _ & Hk)%bind_Ok_inv.
    apply bind_Ok_inv in Hk as (u & st2 & _ & Hk). unfold mret, M_ret in Hk.
    simplify_eq. simpl. lia.
Qed.

(** A turn of the loop that does not raise: the clause it dispatched on, the
    progress it made and what it recorded. *)
Lemma parse_step_Ok ev who args ps st ps' st' :
  parse_step ev who args ps st = (Ok ps', st') →
  ∃ tok p,
    classify args (pos ps) st = (Ok (tok, p), st)
    ∧ (pos ps < pos ps')%nat
    ∧ match tok with
      | dbstop_in => seen_in ps = false ∧ seen_at ps = false
                     ∧ seen_in ps' = true ∧ seen_at ps' = false
      | dbstop_at => seen_at ps = false ∧ seen_at ps' = true
      | dbstop_if => (length args ≤ pos ps')%nat
      | dbstop_none => False
      end.
Proof.
  unfold parse_step.
  intros ([tok p] & st1 & Hc & Hk)%bind_Ok_inv.
  destruct (classify_Ok _ _ _ _ _ _ Hc) as [-> Hcases].
  exists tok, p. split; [done|].
  destruct (bool_decide (length args ≤ p)%nat) eqn:Hlen; [done|].
  apply bool_decide_eq_false in Hlen.
  destruct tok.
  - apply process_in_Ok in Hk as (? & ? & ? & ? & Hp). simpl in *.
    split; [|done]. destruct Hcases as [[-> _]|[[-> _]|[-> _]]]; lia.
  - apply process_at_Ok in Hk as (? & ? & Hle & Hprog). simpl in *.
    split; [|done]. destruct Hcases as [[-> _]|[[-> ?]|(-> & _ & Hstart)]];
      [lia | done |]. apply Hprog; [lia | done].
  - apply process_if_Ok in Hk. split; [|done].
    destruct Hcases as [[-> _]|[[-> _]|[-> _]]]; lia.
  - destruct Hcases as [[_ ?]|[[_ ?]|(_ & ? & _)]]; done.
Qed.

Lemma total_parse_loop ev who args : ∀ fuel ps,
  (length args - pos ps ≤ fuel)%nat →
  total (parse_loop ev who args fuel ps).
Proof.
  induction fuel as [|fuel IH]; intros ps Hfuel st; simpl;
    destruct (bool_decide (pos ps < length args)%nat) eqn:Hlt; try done.
  - apply bool_decide_eq_true in Hlt. lia.
  - unfold mbind, M_bind.
    pose proof (total_parse_step ev who args ps st) as Hstep.
    destruct (parse_step ev who args ps st) as [[ps'|msg|] st'] eqn:Hs;
      [|done|done].
    apply parse_step_Ok in Hs as (tok & p & _ & Hprog & _).
    apply IH. lia.
Qed.

Lemma clause_kinds_allowed ev who args : ∀ fuel ps st ps' st',
  parse_loop ev who args fuel ps st = (Ok ps', st') →
  clause_kinds ev who args fuel ps st `sublist_of` clauses_allowed ps.
Proof.
  induction fuel as [|fuel IH]; intros ps st ps' st'; simpl;
    destruct (bool_decide (pos ps < length args)%nat) eqn:Hlt;
    try (intros _; apply sublist_nil_l).
  intros (ps1 & st1 & Hstep & Hloop)%bind_Ok_inv. rewrite Hstep.
  destruct (parse_step_Ok _ _ _ _ _ _ _ Hstep) as (tok & p & -> & _ & Htok).
  specialize (IH _ _ _ _ Hloop). unfold clauses_allowed in *.
  destruct tok.
  - destruct Htok as (-> & -> & Hin1 & Hat1). rewrite Hin1, Hat1 in IH.
    simpl in *. by apply sublist_skip.
  - destruct Htok as (-> & Hat1). rewrite Hat1, orb_true_r in IH. simpl in IH.
    apply sublist_inserts_l. simpl. by apply sublist_skip.
  - assert (clause_kinds ev who args fuel ps1 st1 = []) as ->.
    { destruct fuel; simpl; rewrite bool_decide_eq_false_2 by lia; done. }
    apply sublist_inserts_l, sublist_inserts_l. done.
  - done.
Qed.

Lemma sublist_in_at_if (l : list dbstop_args) :
  l `sublist_of` [dbstop_in; dbstop_at; dbstop_if] →
  clause_order_violated l = false.
Proof.
  intros H.
  repeat match goal with
    | H : _ `sublist_of` (_ :: _) |- _ =>
        apply sublist_cons_r in H as [H|(? & -> & H)]
    | H : _ `sublist_of` [] |- _ => apply sublist_nil_r in H as ->
    end; reflexivity.
Qed.

(** What the parser does reject: when the clauses on which it dispatches
    hold an "in" after an "at", a second "in" or a second "at", it raises an
    error.  (Nothing is dispatched after an "if".) *)
Lemma parse_rejects_disordered_clauses (ev : tree_evaluator) (who : string)
    (args : list octave_value) (cond : string) (st : bp_table) :
  clause_order_violated (parsed_clauses ev who args cond st) = true →
  ∃ msg, fst (parse_dbfunction_params ev who args cond st) = Error msg.
Proof.
  intros Hbad. unfold parse_dbfunction_params, parsed_clauses in *.
  destruct ((length args =? 0)%nat || negb (is_string (arg_at args 0)));
    [by eexists|].
  pose proof (total_parse_loop ev who args (length args)
                (mk_parse_state "" "" ∅ cond 0 false false false 0)
                ltac:(simpl; lia) st) as Htotal.
  destruct (parse_loop ev who args (length args) _ st) as [[ps'|msg|] st'] eqn:Hp;
    [|by eexists|done].
  apply clause_kinds_allowed in Hp. apply sublist_in_at_if in Hp. congruence.
Qed.

(** dbstop f 3 g: a function name after the line number. *)
Example parse_name_after_line :
  ∃ msg,
    fst (parse_dbfunction_params fx_evaluator "dbstop"
           [ov_string "f"; ov_string "3"; ov_string "g"] "" empty_table)
    = Error msg.
Proof. apply parse_rejects_disordered_clauses. reflexivity. Qed.

(** The parser never stops for lack of iterations. *)
Lemma parse_dbfunction_params_total ev who args cond :
  total (parse_dbfunction_params ev who args cond).
Proof.
  unfold parse_dbfunction_params.
  destruct (_ || _); [apply total_error|].
  apply total_parse_loop. simpl. lia.
Qed.

Example parse_in_at_if :
  ∃ out,
    fst (parse_dbfunction_params fx_evaluator "dbstop"
           [ov_string "in"; ov_string "f"; ov_string "at"; ov_string "5";
            ov_string "8"; ov_string "if"; ov_string "a==5"] "" empty_table)
    = Ok out
    ∧ func_name out = "f" ∧ cond out = "a==5"
    ∧ lines out !! 0 = Some 5 ∧ lines out !! 1 = Some 8 ∧ size (lines out) = 2%nat.
Proof. eexists. split; [vm_compute; reflexivity|]. by vm_compute. Qed.

(** dbstop f if x at 3: with a function name before it, "if" takes all the
    remaining arguments as the condition. *)
Example parse_at_after_condition :
  ∃ out,
    fst (parse_dbfunction_params fx_evaluator "dbstop"
           [ov_string "f"; ov_string "if"; ov_string "x"; ov_string "at";
            ov_string "3"] "" empty_table)
    = Ok out
    ∧ func_name out = "f" ∧ cond out = "x at 3" ∧ lines out = ∅.
Proof. eexists. split; [vm_compute; reflexivity|]. by vm_compute. Qed.

(** C7, the code at a failing input: in dbstop if interrupt in f an "in"
    clause follows the "if" clause; the parser sets the interrupt flag, drops
    the rest and raises no error. *)
Lemma parse_accepts_in_after_if :
  let args := [ov_string "if"; ov_string "interrupt"; ov_string "in";
               ov_string "f"] in
  let res := parse_dbfunction_params fx_evaluator "dbstop" args "" empty_table in
  ∃ out, fst res = Ok out
         ∧ func_name out = "" ∧ seen_in out = false ∧ seen_if out = false
         ∧ pos out = 4%nat
         ∧ Vdebug_on_interrupt (snd res) = true.
Proof.
  intros args res. eexists. split; [vm_compute; reflexivity|]. by vm_compute.
Qed.

(** ** The condition check *)

(** C8.  The empty condition is accepted whatever the parser is.  For any
    other condition the answer of the parser on the text followed by " ;"
    decides: a failure to parse is an error; one expression statement is
    accepted unless is_assignment_expression flags it, in which case the
    error message suggests '=='; a statement that is not an expression, no
    statement or several statements are errors.  The parser is a parameter
    of the check (a field of [ev]). *)
Theorem condition_valid_spec (ev : tree_evaluator) (cond : string)
    (st : bp_table) :
  let parsed := parser_run ev (cond +:+ " ;") in
  (* the empty condition: whatever the parser is *)
  (∀ ev', condition_valid ev' "" st = (Ok true, st))
  (* an unparsable condition *)
  ∧ (cond ≠ "" → parse_status parsed ≠ 0 →
     condition_valid ev cond st
     = (Error ("dbstop: Cannot parse condition '" +:+ cond +:+ "'"), st))
  (* one expression statement *)
  ∧ (∀ stmt expr,
        cond ≠ "" → parse_status parsed = 0 →
        statement_list parsed = Some [Some stmt] →
        expression stmt = Some expr →
        condition_valid ev cond st
        = if is_assignment_expression expr
          then (Error
                  "dbstop: condition cannot be an assignment.  Did you mean '=='?",
                st)
          else (Ok true, st))
  (* one statement that is not an expression *)
  ∧ (∀ stmt,
        cond ≠ "" → parse_status parsed = 0 →
        statement_list parsed = Some [Some stmt] →
        expression stmt = None →
        condition_valid ev cond st
        = (Error "dbstop: condition must be an expression", st))
  (* no statement, or more than one *)
  ∧ (∀ stmt_list,
        cond ≠ "" → parse_status parsed = 0 →
        statement_list parsed = Some stmt_list →
        length stmt_list ≠ 1%nat →
        condition_valid ev cond st
        = (Error "dbstop: condition must be an expression", st)).
Proof.
  intros parsed. subst parsed. split; [done|].
  assert (Hlen : cond ≠ "" → (0 <? String.length cond)%nat = true).
  { intros Hne. destruct cond; [done|]. reflexivity. }
  unfold condition_valid.
  split; [|split; [|split]].
  - intros Hne Hst. rewrite Hlen by done.
    by rewrite (proj2 (Z.eqb_neq _ _) Hst).
  - intros stmt expr Hne Hst Hl He. rewrite Hlen, Hst, Hl, He by done. simpl.
    by destruct (is_assignment_expression expr).
  - intros stmt Hne Hst Hl He. by rewrite Hlen, Hst, Hl, He by done.
  - intros stmt_list Hne Hst Hl Hn. rewrite Hlen, Hst, Hl by done. simpl.
    destruct stmt_list as [|[s|] [|??]]; done.
Qed.

(** C8, witness: the conditions y=5, y+=10, y++ and y== with the parser of
    the fixture. *)
Lemma condition_valid_spec_witness :
  condition_valid fx_condition_evaluator "" empty_table = (Ok true, empty_table)
  ∧ condition_valid fx_condition_evaluator "y=5" empty_table
    = (Error "dbstop: condition cannot be an assignment.  Did you mean '=='?",
       empty_table)
  ∧ condition_valid fx_condition_evaluator "y+=10" empty_table
    = (Ok true, empty_table)
  ∧ condition_valid fx_condition_evaluator "y++" empty_table
    = (Ok true, empty_table)
  ∧ condition_valid fx_condition_evaluator "y==" empty_table
    = (Error "dbstop: Cannot parse condition 'y=='", empty_table).
Proof.
  split; [apply (condition_valid_spec fx_condition_evaluator "" empty_table)|].
  split.
  { destruct (condition_valid_spec fx_condition_evaluator "y=5" empty_table)
      as (_ & _ & H & _).
    apply (H (mk_statement 1 None (Some (mk_expression true)))
             (mk_expression true)); done. }
  split.
  { destruct (condition_valid_spec fx_condition_evaluator "y+=10" empty_table)
      as (_ & _ & H & _).
    apply (H (mk_statement 1 None (Some (mk_expression false)))
             (mk_expression false)); done. }
  split.
  { destruct (condition_valid_spec fx_condition_evaluator "y++" empty_table)
      as (_ & _ & H & _).
    apply (H (mk_statement 1 None (Some (mk_expression false)))
             (mk_expression false)); done. }
  destruct (condition_valid_spec fx_condition_evaluator "y==" empty_table)
    as (_ & H & _).
  apply H; done.
Defined.

(** ** Adding breakpoints *)

Lemma set_breakpoint_lines lineno condition cmds :
  map stmt_line (snd (set_breakpoint lineno condition cmds)) = map stmt_line cmds.
Proof.
  induction cmds as [|stmt cmds IH]; simpl; [done|].
  destruct (lineno <=? stmt_line stmt); [done|].
  destruct (set_breakpoint lineno condition cmds) as [r rest]. simpl in *.
  by rewrite IH.
Qed.

Lemma set_breakpoint_actual lineno condition : ∀ cmds cmds',
  map stmt_line cmds = map stmt_line cmds' →
  fst (set_breakpoint lineno condition cmds) = actual_line lineno cmds'.
Proof.
  unfold actual_line.
  induction cmds as [|stmt cmds IH]; intros [|stmt' cmds'] Heq;
    simplify_eq/=; [done|].
  rewrite <- H. destruct (lineno <=? stmt_line stmt); [done|].
  specialize (IH _ H0).
  destruct (set_breakpoint lineno condition cmds) as [r rest].
  destruct (set_breakpoint lineno "" cmds') as [r' rest']. done.
Qed.

Lemma set_breakpoint_keeps lineno condition cmds l :
  l ∈ list_breakpoints cmds →
  l ∈ list_breakpoints (snd (set_breakpoint lineno condition cmds)).
Proof.
  unfold list_breakpoints.
  induction cmds as [|stmt cmds IH]; simpl; [done|].
  destruct (lineno <=? stmt_line stmt); simpl.
  - destruct (stmt_bp stmt); simpl; [done|]. intros ?. by right.
  - destruct (set_breakpoint lineno condition cmds) as [r rest]. simpl in *.
    destruct (stmt_bp stmt); simpl; [|done].
    intros [->|?]%elem_of_cons; [by left | right; auto].
Qed.

Lemma set_breakpoint_sets lineno condition cmds :
  fst (set_breakpoint lineno condition cmds) ≠ 0 →
  fst (set_breakpoint lineno condition cmds)
  ∈ list_breakpoints (snd (set_breakpoint lineno condition cmds)).
Proof.
  unfold list_breakpoints.
  induction cmds as [|stmt cmds IH]; simpl; [done|].
  destruct (lineno <=? stmt_line stmt); simpl; [intros _; by left|].
  destruct (set_breakpoint lineno condition cmds) as [r rest]. simpl in *.
  intros Hr. destruct (stmt_bp stmt); simpl; [right|]; auto.
Qed.

(** The insertion loop of the body store over a list of indices. *)
Lemma stmts_add_breakpoint_fold line condition : ∀ (idxs : list Z) retval0 cmds0,
  let res := fold_left (stmts_add_step line condition) idxs (retval0, cmds0) in
  map stmt_line (snd res) = map stmt_line cmds0
  ∧ (∀ l, l ∈ list_breakpoints cmds0 → l ∈ list_breakpoints (snd res))
  ∧ (∀ i lineno, i ∈ idxs → line !! i = Some lineno →
       fst res !! i = Some (actual_line lineno cmds0)
       ∧ (actual_line lineno cmds0 ≠ 0 →
          actual_line lineno cmds0 ∈ list_breakpoints (snd res)))
  ∧ (∀ i, i ∉ idxs → fst res !! i = retval0 !! i).
Proof.
  induction idxs as [|i idxs IH]; intros retval0 cmds0; simpl.
  { split; [done|]. split; [done|]. split; [|done].
    intros j lineno Hj. by apply elem_of_nil in Hj. }
  destruct (line !! i) as [lineno|] eqn:Hline.
  - pose proof (set_breakpoint_lines lineno condition cmds0) as Hl.
    pose proof (set_breakpoint_keeps lineno condition cmds0) as Hk.
    pose proof (set_breakpoint_sets lineno condition cmds0) as Hs.
    pose proof (set_breakpoint_actual lineno condition cmds0 cmds0 eq_refl) as Ha.
    destruct (set_breakpoint lineno condition cmds0) as [r cmds1]. simpl in *.
    destruct (IH (<[i := r]> retval0) cmds1) as (IH1 & IH2 & IH3 & IH4).
    split; [congruence|]. split; [auto|]. split.
    + intros j lineno' Hj Hline'.
      assert (Hsame : actual_line lineno' cmds1 = actual_line lineno' cmds0).
      { rewrite <- (set_breakpoint_actual lineno' "" cmds1 cmds0 Hl). done. }
      destruct (decide (j ∈ idxs)) as [Hin|Hnin].
      * destruct (IH3 j lineno' Hin Hline') as [H1 H2]. rewrite <- Hsame. done.
      * apply elem_of_cons in Hj as [->|?]; [|done]. simplify_eq.
        rewrite IH4, lookup_insert_eq by done. split; [done|].
        intros Hne. apply IH2, Hs. done.
    + intros j Hj. apply not_elem_of_cons in Hj as [Hne Hj].
      rewrite IH4 by done. by rewrite lookup_insert_ne.
  - destruct (IH retval0 cmds0) as (IH1 & IH2 & IH3 & IH4).
    split; [done|]. split; [done|]. split.
    + intros j lineno' Hj Hline'.
      apply elem_of_cons in Hj as [->|?]; [congruence|]. by apply IH3.
    + intros j Hj. apply not_elem_of_cons in Hj as [Hne Hj]. by apply IH4.
Qed.

Lemma grows_refl st : grows st st.
Proof. by intros cmds. Qed.

Lemma grows_trans st1 st2 st3 : grows st1 st2 → grows st2 st3 → grows st1 st3.
Proof.
  intros H12 H23 cmds. destruct (H12 cmds) as [? ?], (H23 cmds) as [? ?].
  split; [congruence | auto].
Qed.

Lemma deref_store_eq st cmds l :
  deref (set_stmt_lists (<[cmds := l]> (stmt_lists st)) st) cmds = l.
Proof. unfold deref. simpl. by rewrite lookup_insert_eq. Qed.

Lemma deref_store_ne st cmds cmds' l :
  cmds ≠ cmds' →
  deref (set_stmt_lists (<[cmds := l]> (stmt_lists st)) st) cmds' = deref st cmds'.
Proof. intros ?. unfold deref. simpl. by rewrite lookup_insert_ne. Qed.

(** add_breakpoint_1 raises no error; it only adds breakpoints, and puts one
    for each requested line that the body can take. *)
Lemma add_breakpoint_1_spec fcn fname line condition st :
  ∃ found retval st',
    add_breakpoint_1 fcn fname line condition ∅ st = (Ok (found, retval), st')
    ∧ grows st st'
    ∧ ∀ cmds i lineno,
        body fcn = Some cmds →
        0 ≤ i < Z.of_nat (size line) → line !! i = Some lineno →
        actual_line lineno (deref st cmds) ≠ 0 →
        found = true
        ∧ retval !! i = Some (actual_line lineno (deref st cmds))
        ∧ actual_line lineno (deref st cmds) ∈ list_breakpoints (deref st' cmds).
Proof.
  unfold add_breakpoint_1. destruct (body fcn) as [cmds|].
  2:{ exists false, ∅, st. split; [done|]. split; [apply grows_refl|]. done. }
  unfold mbind, M_bind, load, store, gets, modify, mret, M_ret.
  unfold stmts_add_breakpoint.
  destruct (stmts_add_breakpoint_fold line condition
              (seqZ 0 (Z.of_nat (size line))) ∅ (deref st cmds))
    as (Hl & Hk & Hi & _).
  destruct (fold_left _ _ _) as [retval l'] eqn:Hfold. simpl in *.
  set (st1 := set_stmt_lists (<[cmds := l']> (stmt_lists st)) st).
  assert (Hg : grows st st1).
  { intros a. destruct (decide (cmds = a)) as [<-|Hne].
    - subst st1. by rewrite deref_store_eq.
    - subst st1. by rewrite deref_store_ne. }
  assert (Hd : deref st1 cmds = l') by apply deref_store_eq.
  destruct (existsb _ (map_to_list retval)) eqn:Hex.
  - eexists true, retval, _. split; [reflexivity|]. split.
    { intros a. destruct (strchr fname ">"); apply Hg. }
    intros cmds' i lineno [= <-] Hrange Hline Hne.
    destruct (Hi i lineno) as [H1 H2]; [by apply elem_of_seqZ; lia | done |].
    split; [done|]. split; [done|].
    assert (∀ s, deref (set_bp_set s st1) cmds = l') as Hd' by done.
    destruct (strchr fname ">"); rewrite Hd'; auto.
  - exists false, retval, st1. split; [done|]. split; [done|].
    intros cmds' i lineno [= <-] Hrange Hline Hne. exfalso.
    destruct (Hi i lineno) as [H1 H2]; [by apply elem_of_seqZ; lia | done |].
    assert (existsb (λ p : Z * Z, negb (snd p =? 0)) (map_to_list retval) = true)
      as Hex'; [|congruence].
    apply existsb_exists. exists (i, actual_line lineno (deref st cmds)).
    split.
    + apply list_elem_of_In, elem_of_map_to_list. done.
    + simpl. apply negb_true_iff, Z.eqb_neq. done.
Qed.

Lemma actual_line_grows st st' lineno cmds :
  grows st st' →
  actual_line lineno (deref st' cmds) = actual_line lineno (deref st cmds).
Proof.
  intros Hg. destruct (Hg cmds) as [Hl _].
  by apply (set_breakpoint_actual lineno "").
Qed.

Section AddBreakpointLoop.

Variables (main_fcn : octave_user_code) (fname : string) (line : intmap)
          (condition : string) (st0 : bp_table).

Lemma add_breakpoint_line_spec retval0 i st :
  grows st0 st → retval0 !! i = None →
  0 ≤ i < Z.of_nat (size line) →
  ∃ retval st',
    add_breakpoint_line main_fcn fname line condition retval0 i st
    = (Ok retval, st')
    ∧ grows st st'
    ∧ (∀ j, j ≠ i → retval !! j = retval0 !! j)
    ∧ (∀ lineno, line !! i = Some lineno →
         fst (find_fcn_by_line main_fcn lineno None) = None →
         retval !! i = None)
    ∧ (∀ lineno dbg_fcn cmds,
         line !! i = Some lineno →
         fst (find_fcn_by_line main_fcn lineno None) = Some dbg_fcn →
         body dbg_fcn = Some cmds →
         actual_line lineno (deref st0 cmds) ≠ 0 →
         retval !! i = Some (actual_line lineno (deref st0 cmds))
         ∧ actual_line lineno (deref st0 cmds)
           ∈ list_breakpoints (deref st' cmds)).
Proof.
  intros Hg Hnone Hrange. unfold add_breakpoint_line.
  destruct (line !! i) as [lineno|] eqn:Hline.
  2:{ exists retval0, st. split; [done|]. split; [apply grows_refl|].
      repeat split; done. }
  destruct (fst (find_fcn_by_line main_fcn lineno None)) as [dbg_fcn|] eqn:Hfind.
  2:{ exists retval0, st. split; [done|]. split; [apply grows_refl|].
      split; [done|]. split; [by intros|]. intros ??? [= <-] ?. congruence. }
  destruct (add_breakpoint_1_spec dbg_fcn fname line condition st)
    as (found & ret_one & st1 & Hrun & Hg1 & Hins).
  unfold mbind, M_bind. rewrite Hrun. rewrite Hnone.
  assert (Hres : ∃ retval,
    ((if found then
        match ret_one !! i with
        | Some l => mret (<[i := l]> retval0)
        | None => mret retval0
        end
      else mret retval0) : M intmap) st1 = (Ok retval, st1)
    ∧ (∀ j, j ≠ i → retval !! j = retval0 !! j)
    ∧ (found = true → ∀ l, ret_one !! i = Some l → retval !! i = Some l)).
  { destruct found; [destruct (ret_one !! i) as [l|] eqn:Hl|].
    - exists (<[i := l]> retval0). split; [done|]. split.
      + intros j Hj. by rewrite lookup_insert_ne.
      + intros _ l' [= <-]. by rewrite lookup_insert_eq.
    - exists retval0. by repeat split.
    - exists retval0. by repeat split. }
  destruct Hres as (retval & Hres & Hother & Hi).
  exists retval, st1. split; [done|]. split; [done|]. split; [done|].
  split; [intros ? [= <-]; congruence|].
  intros lineno' dbg' cmds [= <-] Hf Hbody Hne.
  rewrite Hfind in Hf. injection Hf as <-.
  rewrite <- (actual_line_grows st0 st lineno cmds Hg) in *.
  destruct (Hins cmds i lineno Hbody Hrange Hline Hne) as (-> & Hret & Hbp).
  split; [by apply Hi | done].
Qed.

Lemma add_breakpoint_loop_spec : ∀ (idxs : list Z) retval0 st,
  NoDup idxs →
  (∀ i, i ∈ idxs → 0 ≤ i < Z.of_nat (size line)) →
  (∀ i, i ∈ idxs → retval0 !! i = None) →
  grows st0 st →
  ∃ retval st',
    for_each idxs (add_breakpoint_line main_fcn fname line condition)
      retval0 st = (Ok retval, st')
    ∧ grows st st'
    ∧ (∀ j, j ∉ idxs → retval !! j = retval0 !! j)
    ∧ (∀ i lineno, i ∈ idxs → line !! i = Some lineno →
         fst (find_fcn_by_line main_fcn lineno None) = None →
         retval !! i = None)
    ∧ (∀ i lineno dbg_fcn cmds,
         i ∈ idxs → line !! i = Some lineno →
         fst (find_fcn_by_line main_fcn lineno None) = Some dbg_fcn →
         body dbg_fcn = Some cmds →
         actual_line lineno (deref st0 cmds) ≠ 0 →
         retval !! i = Some (actual_line lineno (deref st0 cmds))
         ∧ actual_line lineno (deref st0 cmds)
           ∈ list_breakpoints (deref st' cmds)).
Proof.
  induction idxs as [|i idxs IH]; intros retval0 st Hnd Hrange Hnone Hg.
  { exists retval0, st. split; [done|]. split; [apply grows_refl|].
    split; [done|]. split; intros; by apply elem_of_nil in H. }
  apply NoDup_cons in Hnd as [Hi Hnd].
  destruct (add_breakpoint_line_spec retval0 i st Hg)
    as (retval1 & st1 & Hrun1 & Hg1 & Hother1 & Hnull1 & Hset1).
  { apply Hnone. by left. }
  { apply Hrange. by left. }
  destruct (IH retval1 st1 Hnd) as (retval & st' & Hrun & Hg' & Hother & Hnull & Hset).
  { intros j Hj. apply Hrange. by right. }
  { intros j Hj. rewrite Hother1 by (intros ->; done). apply Hnone. by right. }
  { by eapply grows_trans. }
  exists retval, st'. simpl. unfold mbind, M_bind. rewrite Hrun1.
  split; [done|]. split; [by eapply grows_trans|]. split; [|split].
  - intros j [Hj1 Hj2]%not_elem_of_cons. rewrite Hother by done. by apply Hother1.
  - intros j lineno [->|Hj]%elem_of_cons Hline Hfind.
    + rewrite Hother by done. by eapply Hnull1.
    + by eapply Hnull.
  - intros j lineno dbg_fcn cmds [->|Hj]%elem_of_cons Hline Hfind Hbody Hne.
    + destruct (Hset1 lineno dbg_fcn cmds Hline Hfind Hbody Hne) as [Hr Hb].
      rewrite Hother by done. split; [done|]. by apply Hg'.
    + by eapply Hset.
Qed.

End AddBreakpointLoop.

Lemma condition_valid_state ev cond st :
  snd (condition_valid ev cond st) = st.
Proof.
  unfold condition_valid. repeat case_match; done.
Qed.

(** C10.  A requested line that resolves to no routine leaves no entry in the
    returned map and raises no error; every other requested line that the
    routine it resolves to can take gets its entry and its breakpoint. *)
Theorem add_breakpoint_skips_unresolved_lines (ev : tree_evaluator)
    (fname class_name : string) (line : intmap) (condition : string)
    (st : bp_table) (main_fcn : octave_user_code) :
  get_user_code ev fname class_name = Some main_fcn →
  fst (condition_valid ev condition st) = Ok true →
  ∃ retval st',
    add_breakpoint ev fname class_name line condition st = (Ok retval, st')
    ∧ (∀ i lineno,
         line !! i = Some lineno →
         fst (find_fcn_by_line main_fcn lineno None) = None →
         retval !! i = None)
    ∧ (∀ i lineno dbg_fcn cmds,
         0 ≤ i < Z.of_nat (size line) →
         line !! i = Some lineno →
         fst (find_fcn_by_line main_fcn lineno None) = Some dbg_fcn →
         body dbg_fcn = Some cmds →
         actual_line lineno (deref st cmds) ≠ 0 →
         retval !! i = Some (actual_line lineno (deref st cmds))
         ∧ actual_line lineno (deref st cmds) ∈ list_breakpoints (deref st' cmds)).
Proof.
  intros Hcode Hcond. unfold add_breakpoint. rewrite Hcode.
  unfold mbind, M_bind.
  pose proof (condition_valid_state ev condition st) as Hst.
  destruct (condition_valid ev condition st) as [o st1]. simpl in *. subst.
  destruct (add_breakpoint_loop_spec main_fcn fname line condition st
              (seqZ 0 (Z.of_nat (size line))) ∅ st)
    as (retval & st' & Hrun & _ & Hother & Hnull & Hset).
  { apply NoDup_seqZ. }
  { intros i Hi. apply elem_of_seqZ in Hi. lia. }
  { done. }
  { apply grows_refl. }
  exists retval, st'. split; [done|]. split.
  - intros i lineno Hline Hfind.
    destruct (decide (i ∈ seqZ 0 (Z.of_nat (size line)))) as [Hi|Hi].
    + by eapply Hnull.
    + by rewrite Hother.
  - intros i lineno dbg_fcn cmds Hrange. apply Hset. apply elem_of_seqZ. lia.
Qed.

(** C10, witness: dbstop in f at 70 5; line 70 lies beyond the last routine
    of f.m. *)
Lemma add_breakpoint_skips_unresolved_lines_witness :
  ∃ retval st',
    add_breakpoint fx_evaluator "f" "" {[0 := 70; 1 := 5]} "" fx_table
    = (Ok retval, st')
    ∧ retval !! 0 = None
    ∧ retval !! 1 = Some 5
    ∧ 5 ∈ list_breakpoints (deref st' 0).
Proof.
  destruct (add_breakpoint_skips_unresolved_lines fx_evaluator "f" ""
              {[0 := 70; 1 := 5]} "" fx_table fx_f eq_refl eq_refl)
    as (retval & st' & Hrun & Hnull & Hset).
  exists retval, st'. split; [exact Hrun|]. split.
  - apply (Hnull 0 70); reflexivity.
  - apply (Hset 1 5 fx_f 0%nat); try reflexivity.
    + vm_compute. split; [discriminate | reflexivity].
    + vm_compute. discriminate.
Defined.

(** ** What the removal returns, and the names that are recorded *)

(** remove_breakpoint_1 returns the number of breakpoints that the routine
    holds once the requested lines are deleted. *)
Lemma remove_breakpoint_1_returns_remaining fcn fname line st :
  ∃ st',
    remove_breakpoint_1 fcn fname line st
    = (Ok (Z.of_nat (length (list_breakpoints (body_of st' fcn)))), st').
Proof.
  unfold remove_breakpoint_1, body_of. destruct (body fcn) as [cmds|];
    [|by exists st].
  unfold mbind, M_bind, load, store, gets, modify, mret, M_ret.
  destruct (0 <? length (list_breakpoints (deref st cmds)))%nat; [|by exists st].
  eexists. f_equal.
  destruct (_ && _); simpl; unfold deref; simpl; by rewrite lookup_insert_eq.
Qed.

Lemma recorded_name_qualified (file sub : string) :
  strchr file ">" = None →
  recorded_name (file +:+ ">" +:+ sub) = file.
Proof.
  unfold recorded_name. intros Hfile.
  assert (Hidx : strchr (file +:+ ">" +:+ sub) ">" = Some (String.length file)).
  { induction file as [|c file IH]; simpl in *; [done|].
    destruct (Ascii.eqb c ">"); [done|].
    destruct (strchr file ">"); [done|]. by rewrite IH. }
  rewrite Hidx. clear. induction file as [|c file IH]; simpl; [done|].
  by rewrite IH.
Qed.

(** add_breakpoint_1 adds at most one name to the set, the recorded form of
    the name it is given. *)
Lemma add_breakpoint_1_records fcn fname line condition retval st :
  let st' := snd (add_breakpoint_1 fcn fname line condition retval st) in
  m_bp_set st' = m_bp_set st
  ∨ m_bp_set st' = {[ recorded_name fname ]} ∪ m_bp_set st.
Proof.
  unfold add_breakpoint_1, recorded_name. destruct (body fcn) as [cmds|];
    [|by left].
  unfold mbind, M_bind, load, store, gets, modify, mret, M_ret.
  destruct (stmts_add_breakpoint _ _ _) as [ret l']. simpl.
  destruct (existsb _ _); simpl; [|by left].
  right. by destruct (strchr fname ">").
Qed.

(* ================================================================== *)
(** * Part III: further properties of the code *)
(* ================================================================== *)

(** ** The line resolver on arbitrary function trees *)

Section ResolverInvariants.

Variable rec : octave_user_code → Z → option Z → option octave_user_code * option Z.
Variable lineno : Z.

Lemma resolver_step_below subfcns st p :
  In p subfcns → rec_in_tree rec lineno subfcns →
  (∀ r, retval st = Some r → below subfcns r) →
  (∀ r, next_fcn st = Some r → below subfcns r) →
  (∀ r, retval (resolver_step rec lineno st p) = Some r → below subfcns r)
  ∧ (∀ r, next_fcn (resolver_step rec lineno st p) = Some r → below subfcns r).
Proof.
  intros Hp Hrec Hret Hnext. unfold resolver_step.
  assert (Hself : below subfcns (snd p)).
  { exists p. split; [done|]. rewrite routines_eq. by left. }
  destruct (is_user_function (snd p)); [|done].
  destruct (_ && _ && _).
  - destruct (rec (snd p) lineno (Some (ending_line (snd p)))) as [r e] eqn:Hr.
    assert (Hr' : ∀ r', r = Some r' → below subfcns r').
    { intros r' ->. exists p. split; [done|]. eapply (Hrec p); [done|].
      by rewrite Hr. }
    simpl. destruct (_ && _); simpl; split; try done.
    by intros r' [= <-].
  - destruct (_ && _); simpl; split; try done. by intros r' [= <-].
Qed.

Lemma resolver_loop_below subfcns : ∀ l st,
  (∀ p, In p l → In p subfcns) → rec_in_tree rec lineno subfcns →
  (∀ r, retval st = Some r → below subfcns r) →
  (∀ r, next_fcn st = Some r → below subfcns r) →
  let final := fold_left (resolver_step rec lineno) l st in
  (∀ r, retval final = Some r → below subfcns r)
  ∧ (∀ r, next_fcn final = Some r → below subfcns r).
Proof.
  induction l as [|p l IH]; intros st Hsub Hrec Hret Hnext; simpl; [done|].
  destruct (resolver_step_below subfcns st p) as [H1 H2]; try done.
  { apply Hsub. by left. }
  apply IH; try done. intros q Hq. apply Hsub. by right.
Qed.

End ResolverInvariants.

(** X1.  Whatever the shape of the function tree, a routine that the resolver
    returns is the routine it was given or one of the routines below it. *)
Theorem find_fcn_by_line_in_tree (lineno : Z) : ∀ (c : octave_user_code)
    (end_line : option Z) (r : octave_user_code),
  fst (find_fcn_by_line c lineno end_line) = Some r → In r (routines c).
Proof.
  induction c as [c IH] using user_code_ind. intros end_line r.
  rewrite find_fcn_by_line_eq, routines_eq.
  destruct (resolver_loop_below find_fcn_by_line lineno (subfunctions c)
              (subfunctions c) (mk_resolver_state None None INT_MAX))
    as [Hret Hnext]; try done.
  { intros p e r' Hp. by apply IH. }
  set (final := fold_left _ _ _) in *.
  assert (Hbelow : ∀ r', below (subfunctions c) r' →
            In r' (c :: flat_map (λ p, routines (snd p)) (subfunctions c))).
  { intros r' (p & Hp & Hr'). right. apply in_flat_map. eauto. }
  unfold resolver_finish. simpl.
  destruct (is_user_function c).
  - destruct (_ && _); [intros [= <-]; by left|].
    destruct (retval final) as [r'|] eqn:Hr; [intros [= <-]; by apply Hbelow, Hret|].
    intros Hn. by apply Hbelow, Hnext.
  - destruct (retval final) as [r'|] eqn:Hr; intros [= <-];
      [by apply Hbelow, Hret | by left].
Qed.

(** X1, witness: line 45 of f.m. *)
Lemma find_fcn_by_line_in_tree_witness : In fx_k (routines fx_f).
Proof. apply (find_fcn_by_line_in_tree 45 fx_f None fx_k). reflexivity. Defined.

Section ResolverFound.

Variable rec : octave_user_code → Z → option Z → option octave_user_code * option Z.
Variable lineno : Z.

Lemma resolver_step_found subfcns st p :
  In p subfcns → rec_finds rec lineno subfcns →
  found_or_unbounded st →
  found_or_unbounded (resolver_step rec lineno st p).
Proof.
  intros Hp Hrec [Hle Hst]. unfold resolver_step.
  destruct (is_user_function (snd p)) eqn:Hf; [|done].
  assert (Hnext : ∀ st1, found_or_unbounded st1 →
            found_or_unbounded
              (if (lineno <=? beginning_line (snd p)) && is_null (next_fcn st1)
               then mk_resolver_state (retval st1) (Some (snd p)) (earliest_end st1)
               else st1)).
  { intros st1 H1. by destruct (_ && _). }
  apply Hnext. destruct (_ && _ && _) eqn:Hc; [|done].
  to_prop.
  destruct (Hrec p (ending_line (snd p)) Hp Hf) as (r & E' & -> & HE); [lia|].
  split; simpl; [lia | left; eauto].
Qed.

Lemma resolver_loop_found subfcns : ∀ l st,
  (∀ p, In p l → In p subfcns) → rec_finds rec lineno subfcns →
  found_or_unbounded st →
  found_or_unbounded (fold_left (resolver_step rec lineno) l st).
Proof.
  induction l as [|p l IH]; intros st Hsub Hrec Hst; simpl; [done|].
  apply IH; [intros q Hq; apply Hsub; by right | done |].
  eapply resolver_step_found; [apply Hsub; by left | done..].
Qed.

(** The loop leaves next_fcn null only if no function of the map begins at
    or after the line. *)
Lemma resolver_loop_next : ∀ l st,
  next_fcn (fold_left (resolver_step rec lineno) l st) = None →
  next_fcn st = None
  ∧ ∀ p, In p l → is_user_function (snd p) = true →
         beginning_line (snd p) < lineno.
Proof.
  induction l as [|p l IH]; intros st; simpl; [by intros ?; split; [|intros ? []]|].
  intros Hfinal. apply IH in Hfinal as [Hstep Hl].
  assert (Hp : next_fcn st = None
               ∧ (is_user_function (snd p) = true →
                  beginning_line (snd p) < lineno)).
  { revert Hstep. unfold resolver_step.
    destruct (is_user_function (snd p)); [|by intros ->].
    set (st1 := if _ && _ && _ then _ else st).
    assert (next_fcn st1 = next_fcn st) as Hn.
    { subst st1. destruct (_ && _ && _); [|done].
      by destruct (rec _ _ _). }
    destruct (lineno <=? beginning_line (snd p)) eqn:Hb; simpl.
    - destruct (next_fcn st1) eqn:Hn1; simpl; [by rewrite Hn1|done].
    - rewrite Hn. intros ->. split; [done|]. intros _. by apply Z.leb_gt. }
  destruct Hp as [Hst Hp]. split; [done|].
  intros q [<-|Hq]; [done | by apply Hl].
Qed.

End ResolverFound.

Lemma find_fcn_by_line_end_line c lineno E :
  ∃ E', snd (find_fcn_by_line c lineno (Some E)) = Some E' ∧ E' ≤ E.
Proof.
  rewrite find_fcn_by_line_eq. unfold resolver_finish. simpl.
  destruct (_ <? E) eqn:HE; eexists; (split; [reflexivity|]); to_prop; lia.
Qed.

(** From a function that ends at or after the line (and before INT_MAX) the
    resolver always returns a routine. *)
Lemma find_fcn_by_line_finds lineno : ∀ c end_line,
  is_user_function c = true →
  lineno ≤ ending_line c < INT_MAX →
  is_Some (fst (find_fcn_by_line c lineno end_line)).
Proof.
  induction c as [c IH] using user_code_ind. intros end_line Hf Hrange.
  rewrite find_fcn_by_line_eq.
  destruct (resolver_loop_found find_fcn_by_line lineno (subfunctions c)
              (subfunctions c) (mk_resolver_state None None INT_MAX))
    as [Hle Hfound]; try done.
  { intros p E Hp Hfp Hrp.
    destruct (IH p Hp (Some E) Hfp Hrp) as [r Hr].
    destruct (find_fcn_by_line_end_line (snd p) lineno E) as (E' & HE' & Hle).
    exists r, E'. split; [|done].
    by destruct (find_fcn_by_line (snd p) lineno (Some E)); simplify_eq/=. }
  { split; [done | by right]. }
  set (final := fold_left _ _ _) in *.
  unfold resolver_finish. rewrite Hf. simpl.
  destruct ((lineno <=? ending_line c) && (ending_line c <? earliest_end final))
    eqn:Hc; [by eexists|].
  destruct Hfound as [[r ->]|Hmax]; [by eexists|].
  rewrite Hmax in Hc. apply andb_false_iff in Hc as [Hc|Hc]; to_prop; lia.
Qed.

(** X2.  On any function tree the resolver finds no routine only for a
    top-level function, when the line is not at or before its end (or the
    end is INT_MAX) and no function among its subfunctions begins at or
    after the line; in particular a script always resolves. *)
Theorem find_fcn_by_line_not_found (main_fcn : octave_user_code) (lineno : Z)
    (end_line : option Z) :
  fst (find_fcn_by_line main_fcn lineno end_line) = None →
  is_user_function main_fcn = true
  ∧ ¬ (lineno ≤ ending_line main_fcn < INT_MAX)
  ∧ ∀ p, In p (subfunctions main_fcn) → is_user_function (snd p) = true →
         beginning_line (snd p) < lineno.
Proof.
  intros Hnone.
  assert (Hf : is_user_function main_fcn = true).
  { revert Hnone. rewrite find_fcn_by_line_eq. unfold resolver_finish. simpl.
    destruct (is_user_function main_fcn); [done|]. by destruct (retval _). }
  split; [done|]. split.
  { intros Hrange.
    destruct (find_fcn_by_line_finds lineno main_fcn end_line Hf Hrange) as [r Hr].
    congruence. }
  revert Hnone. rewrite find_fcn_by_line_eq. unfold resolver_finish.
  rewrite Hf. simpl. set (final := fold_left _ _ _).
  destruct (_ && _); [done|].
  destruct (retval final); [done|]. intros Hnext.
  by apply (resolver_loop_next find_fcn_by_line lineno) in Hnext as [_ ?].
Qed.

(** X2, witness: line 70 of f.m lies after the last routine. *)
Lemma find_fcn_by_line_not_found_witness :
  is_user_function fx_f = true
  ∧ ¬ (70 ≤ ending_line fx_f < INT_MAX)
  ∧ ∀ p, In p (subfunctions fx_f) → is_user_function (snd p) = true →
         beginning_line (snd p) < 70.
Proof. apply (find_fcn_by_line_not_found fx_f 70 None). reflexivity. Defined.

(** ** The argument parser and the table *)

Lemma pure_ret {A : Type} (a : A) : pure (mret a).
Proof. by intros st. Qed.

Lemma pure_error {A : Type} msg : pure (@error A msg).
Proof. by intros st. Qed.

Lemma pure_gets {A : Type} (f : bp_table → A) : pure (gets f).
Proof. by intros st. Qed.

Lemma pure_bind {A B : Type} (m : M A) (k : A → M B) :
  pure m → (∀ a, pure (k a)) → pure (m ≫= k).
Proof.
  intros Hm Hk st. unfold mbind, M_bind. specialize (Hm st).
  destruct (m st) as [[a|msg|] s]; simpl in *; subst; [apply Hk | done | done].
Qed.

Lemma pure_get_string v : pure (get_string v).
Proof. unfold get_string. destruct (string_value v); by intros st. Qed.

Create HintDb pure.

#[local] Hint Resolve pure_ret pure_error pure_gets pure_get_string : pure.

Ltac pure_tac :=
  repeat first
    [ apply pure_bind; [|intros ?]
    | progress eauto with pure
    | match goal with
      | |- pure (if ?b then _ else _) => destruct b
      | |- pure (match ?x with _ => _ end) => destruct x
      end ].

Lemma pure_classify args pos : pure (classify args pos).
Proof. unfold classify. pure_tac. Qed.

Lemma pure_read_lines who rest : ∀ ps, pure (read_lines who rest ps).
Proof. induction rest as [|v rest IH]; intros ps; simpl; pure_tac. Qed.

Lemma pure_read_cond who rest : ∀ cond, pure (read_cond who rest cond).
Proof. induction rest as [|v rest IH]; intros cond; simpl; pure_tac. Qed.

#[local] Hint Resolve pure_classify pure_read_lines pure_read_cond : pure.

Lemma pure_process_in who args ps : pure (process_in who args ps).
Proof. unfold process_in. pure_tac. Qed.

Lemma pure_process_at ev who args ps : pure (process_at ev who args ps).
Proof. unfold process_at. pure_tac. Qed.

Lemma pure_error_atomic {A : Type} (m : M A) : pure m → error_atomic m.
Proof. intros Hm st msg _. apply Hm. Qed.

Lemma error_atomic_bind_pure {A B : Type} (m : M A) (k : A → M B) :
  pure m → (∀ a, error_atomic (k a)) → error_atomic (m ≫= k).
Proof.
  intros Hm Hk st msg. unfold mbind, M_bind. specialize (Hm st).
  destruct (m st) as [[a|msg'|] s]; simpl in *; subst; [apply Hk | done | done].
Qed.

(** For the three conditions it is called with, process_id_list checks its
    arguments before it changes anything. *)
Lemma error_atomic_process_id_list who args nargin pos on_off (t : trigger) :
  error_atomic (process_id_list who (trigger_condition t) args nargin pos on_off
                  (trigger_ids t)).
Proof.
  intros st msg. unfold process_id_list.
  destruct (decide _); [|by destruct t].
  destruct (_ || _); [done|].
  unfold get_string. destruct (string_value _); [|by destruct on_off].
  destruct on_off; [by destruct t|].
  unfold mbind, M_bind, modify, gets, mret, M_ret. simpl.
  destruct (bool_decide _); by destruct t.
Qed.

Lemma error_atomic_then_ret {A B : Type} (m : M A) (b : B) :
  error_atomic m → error_atomic (m ≫= λ _, mret b).
Proof.
  intros Hm st msg. unfold mbind, M_bind. specialize (Hm st).
  destruct (m st) as [[a|msg'|] s]; simpl in *; [done | eauto | done].
Qed.

Lemma process_if_event_error_atomic who args ps :
  seen_in ps = false → error_atomic (process_if who args ps).
Proof.
  intros Hin. unfold process_if. rewrite Hin.
  apply error_atomic_bind_pure; [apply pure_get_string|]. intros condition.
  apply error_atomic_then_ret.
  destruct (String.eqb condition "error") eqn:He.
  { apply String.eqb_eq in He as ->. apply error_atomic_then_ret.
    apply (error_atomic_process_id_list _ _ _ _ _ trig_error). }
  destruct (String.eqb condition "warning") eqn:Hw.
  { apply String.eqb_eq in Hw as ->. apply error_atomic_then_ret.
    apply (error_atomic_process_id_list _ _ _ _ _ trig_warning). }
  destruct (String.eqb condition "caught") eqn:Hc; simpl.
  { apply String.eqb_eq in Hc as ->. destruct (bool_decide _).
    - apply error_atomic_bind_pure; [apply pure_get_string|]. intros next.
      destruct (String.eqb next "error"); [|apply pure_error_atomic, pure_error].
      apply error_atomic_then_ret.
      apply (error_atomic_process_id_list _ _ _ _ _ trig_caught).
    - apply pure_error_atomic, pure_error. }
  destruct (String.eqb condition "interrupt"); [by intros st msg|].
  destruct (String.eqb condition "naninf"); apply pure_error_atomic;
    [apply pure_ret | apply pure_error].
Qed.

Lemma process_if_condition_pure who args ps :
  seen_in ps = true → pure (process_if who args ps).
Proof. intros Hin. unfold process_if. rewrite Hin. pure_tac. Qed.

Lemma process_if_seen_in who args ps st ps' st' :
  process_if who args ps st = (Ok ps', st') → seen_in ps' = seen_in ps.
Proof.
  unfold process_if. destruct (seen_in ps) eqn:Hin.
  - intros (c & st1 & _ & Hk)%bind_Ok_inv. unfold mret, M_ret in Hk.
    by simplify_eq.
  - intros (s & st1 & _ & Hk)%bind_Ok_inv.
    apply bind_Ok_inv in Hk as (u & st2 & _ & Hk). unfold mret, M_ret in Hk.
    by simplify_eq.
Qed.

(** One turn of the loop: an error leaves the table as it is; a turn that
    changes the table is an event form, which ends the scan. *)
Lemma parse_step_state ev who args ps st :
  (∀ msg, fst (parse_step ev who args ps st) = Error msg →
          snd (parse_step ev who args ps st) = st)
  ∧ (∀ ps', fst (parse_step ev who args ps st) = Ok ps' →
            snd (parse_step ev who args ps st) = st
            ∨ (seen_in ps' = false ∧ (length args ≤ pos ps')%nat)).
Proof.
  unfold parse_step, mbind, M_bind.
  pose proof (pure_classify args (pos ps) st) as Hc.
  destruct (classify args (pos ps) st) as [[[tok p]|msg|] st1]; simpl in Hc;
    subst st1; [|done|done].
  destruct (bool_decide _); [done|].
  destruct tok.
  - pose proof (pure_process_in who args (set_pos p ps) st). auto.
  - pose proof (pure_process_at ev who args (set_pos p ps) st). auto.
  - destruct (seen_in ps) eqn:Hin.
    + pose proof (process_if_condition_pure who args (set_pos p ps) Hin st). auto.
    + split.
      * apply (process_if_event_error_atomic who args (set_pos p ps) Hin).
      * intros ps' Hok. right.
        destruct (process_if who args (set_pos p ps) st) as [o st'] eqn:Hp.
        simpl in Hok. subst o.
        pose proof (process_if_seen_in _ _ _ _ _ _ Hp) as Hs.
        apply process_if_Ok in Hp. simpl in Hs. split; congruence.
  - auto.
Qed.

Lemma parse_loop_state ev who args : ∀ fuel ps st,
  (∀ msg, fst (parse_loop ev who args fuel ps st) = Error msg →
          snd (parse_loop ev who args fuel ps st) = st)
  ∧ (∀ ps', fst (parse_loop ev who args fuel ps st) = Ok ps' →
            seen_in ps' = true →
            snd (parse_loop ev who args fuel ps st) = st).
Proof.
  induction fuel as [|fuel IH]; intros ps st; simpl;
    destruct (bool_decide (pos ps < length args)%nat) eqn:Hlt; try done.
  unfold mbind, M_bind.
  destruct (parse_step_state ev who args ps st) as [Herr Hok].
  destruct (parse_step ev who args ps st) as [[ps1|msg|] st1]; simpl in *;
    [|by split; eauto|done].
  destruct (Hok ps1 eq_refl) as [->|[Hin Hpos]]; [apply IH|].
  assert (parse_loop ev who args fuel ps1 st1 = (Ok ps1, st1)) as ->.
  { destruct fuel; simpl; by rewrite bool_decide_eq_false_2 by lia. }
  simpl. split; [done|]. intros ps' [= <-]. congruence.
Qed.

(** X3.  A command that the parser rejects leaves the table, with its
    trigger flags and identifier sets, as it was; so does every command that
    names a function (or takes one from the debugger): only the event forms
    change the table. *)
Theorem parse_dbfunction_params_state (ev : tree_evaluator) (who : string)
    (args : list octave_value) (cond : string) (st : bp_table) :
  (∀ msg, fst (parse_dbfunction_params ev who args cond st) = Error msg →
          snd (parse_dbfunction_params ev who args cond st) = st)
  ∧ (∀ out, fst (parse_dbfunction_params ev who args cond st) = Ok out →
            seen_in out = true →
            snd (parse_dbfunction_params ev who args cond st) = st).
Proof.
  unfold parse_dbfunction_params. destruct (_ || _); [done|].
  apply parse_loop_state.
Qed.

(** X3, witness: dbstop if error with two identifiers is rejected; dbstop f 5
    names a function. *)
Lemma parse_dbfunction_params_state_witness :
  snd (parse_dbfunction_params fx_evaluator "dbstop"
         [ov_string "if"; ov_string "error"; ov_string "a"; ov_string "b"] ""
         fx_table) = fx_table
  ∧ snd (parse_dbfunction_params fx_evaluator "dbstop"
           [ov_string "f"; ov_string "5"] "" fx_table) = fx_table.
Proof.
  split.
  - eapply (proj1 (parse_dbfunction_params_state _ _ _ _ _)). reflexivity.
  - eapply (proj2 (parse_dbfunction_params_state _ _ _ _ _)); reflexivity.
Defined.

(** ** The line map that the parser builds *)

Lemma push_line_indexed line ps :
  lines_indexed ps → lines_indexed (push_line line ps).
Proof.
  intros (H0 & Hsize & Hdom). unfold lines_indexed, push_line. simpl.
  assert (Hnone : lines ps !! list_idx ps = None).
  { apply eq_None_not_Some. rewrite Hdom. lia. }
  split; [lia|]. split.
  - rewrite map_size_insert_None by done. lia.
  - intros i. destruct (decide (i = list_idx ps)) as [->|Hne].
    + rewrite lookup_insert_eq. split; [lia | by eexists].
    + rewrite lookup_insert_ne by done. rewrite Hdom. lia.
Qed.

Lemma fold_push_line_indexed elems : ∀ ps,
  lines_indexed ps →
  lines_indexed (fold_left (λ ps elem, push_line elem ps) elems ps).
Proof.
  induction elems as [|e elems IH]; intros ps Hps; simpl; [done|].
  by apply IH, push_line_indexed.
Qed.

Lemma read_lines_indexed who rest : ∀ ps st ps' st',
  read_lines who rest ps st = (Ok ps', st') →
  lines_indexed ps → lines_indexed ps'.
Proof.
  induction rest as [|v rest IH]; intros ps st ps' st'; simpl.
  - unfold mret, M_ret. by intros [= <- <-].
  - destruct (is_string v).
    + intros (s & st1 & _ & Hk)%bind_Ok_inv Hps.
      destruct (0 <? atoi s).
      * eapply IH; [exact Hk|]. by apply (push_line_indexed (atoi s)) in Hps.
      * unfold mret, M_ret in Hk. by simplify_eq.
    + destruct (isnumeric v); [|done]. intros Hk Hps.
      eapply IH; [exact Hk|].
      by apply (fold_push_line_indexed (array_value v)) in Hps.
Qed.

Lemma process_in_indexed who args ps st ps' st' :
  process_in who args ps st = (Ok ps', st') →
  lines_indexed ps → lines_indexed ps'.
Proof.
  unfold process_in. intros (s & st2 & _ & Hk)%bind_Ok_inv.
  destruct (seen_in ps); [done|]. destruct (seen_at ps || seen_if ps); [done|].
  unfold mret, M_ret in Hk. by simplify_eq.
Qed.

Lemma process_at_indexed ev who args ps st ps' st' :
  process_at ev who args ps st = (Ok ps', st') →
  lines_indexed ps → lines_indexed ps'.
Proof.
  unfold process_at.
  destruct (seen_at ps); [by intros (? & ? & _ & ?)%bind_Ok_inv|].
  destruct (seen_if ps) eqn:Hif; [done|].
  cbn [seen_if seen_in set_seen_at]. rewrite Hif.
  destruct (seen_in ps).
  - intros (s & st2 & _ & Hk)%bind_Ok_inv.
    destruct (atoi s =? 0).
    + unfold mret, M_ret in Hk. by simplify_eq.
    + intros Hps. by eapply read_lines_indexed in Hk.
  - destruct (in_debug_repl ev); [|done]. intros Hk Hps.
    by eapply read_lines_indexed in Hk.
Qed.

Lemma process_if_indexed who args ps st ps' st' :
  process_if who args ps st = (Ok ps', st') →
  lines_indexed ps → lines_indexed ps'.
Proof.
  unfold process_if. destruct (seen_in ps).
  - intros (c & st2 & _ & Hk)%bind_Ok_inv.
    unfold mret, M_ret in Hk. by simplify_eq.
  - intros (s & st2 & _ & Hk)%bind_Ok_inv.
    apply bind_Ok_inv in Hk as (u & st3 & _ & Hk).
    unfold mret, M_ret in Hk. by simplify_eq.
Qed.

Lemma parse_step_indexed ev who args ps st ps' st' :
  parse_step ev who args ps st = (Ok ps', st') →
  lines_indexed ps → lines_indexed ps'.
Proof.
  unfold parse_step. intros ([tok p] & st1 & _ & Hk)%bind_Ok_inv Hps.
  destruct (bool_decide _); [done|].
  assert (Hp : lines_indexed (set_pos p ps)) by done.
  destruct tok.
  - by eapply process_in_indexed in Hk.
  - by eapply process_at_indexed in Hk.
  - by eapply process_if_indexed in Hk.
  - unfold mret, M_ret in Hk. by simplify_eq.
Qed.

Lemma parse_loop_indexed ev who args : ∀ fuel ps st ps' st',
  parse_loop ev who args fuel ps st = (Ok ps', st') →
  lines_indexed ps → lines_indexed ps'.
Proof.
  induction fuel as [|fuel IH]; intros ps st ps' st'; simpl;
    destruct (bool_decide (pos ps < length args)%nat);
    try (unfold mret, M_ret; by intros [= <- <-]); try done.
  intros (ps1 & st1 & Hstep & Hloop)%bind_Ok_inv Hps.
  eapply IH; [exact Hloop|]. by eapply parse_step_indexed.
Qed.

(** X4.  The line map of an accepted command is indexed without gaps: it has
    an entry for the index i exactly when 0 <= i < size, which is what the
    loops of add_breakpoint and remove_breakpoint_1 go through. *)
Theorem parse_dbfunction_params_lines (ev : tree_evaluator) (who : string)
    (args : list octave_value) (cond : string) (st : bp_table)
    (out : parse_state) :
  fst (parse_dbfunction_params ev who args cond st) = Ok out →
  ∀ i, is_Some (lines out !! i) ↔ 0 ≤ i < Z.of_nat (size (lines out)).
Proof.
  unfold parse_dbfunction_params. destruct (_ || _); [done|].
  destruct (parse_loop _ _ _ _ _ _) as [o st'] eqn:Hloop. simpl. intros ->.
  apply parse_loop_indexed in Hloop as (_ & Hsize & Hdom).
  - intros i. by rewrite Hsize.
  - split; [done|]. split; [done|]. intros i. simpl. rewrite lookup_empty.
    split; [by intros [? ?] | lia].
Qed.

(** X4, witness: dbstop in f at 5 8. *)
Lemma parse_dbfunction_params_lines_witness :
  ∃ out,
    fst (parse_dbfunction_params fx_evaluator "dbstop"
           [ov_string "in"; ov_string "f"; ov_string "at"; ov_string "5";
            ov_string "8"] "" empty_table) = Ok out
    ∧ ∀ i, is_Some (lines out !! i) ↔ 0 ≤ i < Z.of_nat (size (lines out)).
Proof.
  eexists. split; [vm_compute; reflexivity|].
  apply (parse_dbfunction_params_lines fx_evaluator "dbstop"
           [ov_string "in"; ov_string "f"; ov_string "at"; ov_string "5";
            ov_string "8"] "" empty_table).
  vm_compute. reflexivity.
Defined.

(** ** Commands that the parser accepts *)

Lemma parse_loop_S ev who args fuel ps :
  parse_loop ev who args (S fuel) ps
  = if bool_decide (pos ps < length args)%nat
    then parse_step ev who args ps ≫= parse_loop ev who args fuel
    else mret ps.
Proof. reflexivity. Qed.

Lemma parse_loop_done ev who args fuel ps st :
  (length args ≤ pos ps)%nat →
  parse_loop ev who args fuel ps st = (Ok ps, st).
Proof.
  intros Hle. destruct fuel; simpl; by rewrite bool_decide_eq_false_2 by lia.
Qed.

Lemma fold_push_line_set_pos l : ∀ p ps,
  fold_left (λ ps elem, push_line elem ps) l (set_pos p ps)
  = set_pos p (fold_left (λ ps elem, push_line elem ps) l ps).
Proof.
  induction l as [|a l IH]; intros p ps; simpl; [done|].
  change (push_line a (set_pos p ps)) with (set_pos p (push_line a ps)).
  apply IH.
Qed.

Lemma fold_push_line_fields l : ∀ ps,
  let ps' := fold_left (λ ps elem, push_line elem ps) l ps in
  func_name ps' = func_name ps ∧ class_name ps' = class_name ps
  ∧ cond ps' = cond ps ∧ list_idx ps' = list_idx ps + Z.of_nat (length l).
Proof.
  induction l as [|a l IH]; intros ps; simpl; [repeat split; lia|].
  destruct (IH (push_line a ps)) as (-> & -> & -> & ->). simpl.
  repeat split; lia.
Qed.

Lemma fold_push_line_lookup l : ∀ ps (i : nat),
  lines_indexed ps →
  lines (fold_left (λ ps elem, push_line elem ps) l ps)
    !! (list_idx ps + Z.of_nat i) = l !! i.
Proof.
  induction l as [|a l IH]; intros ps i Hps; cbn [fold_left].
  - destruct Hps as (_ & _ & Hdom). rewrite lookup_nil.
    apply eq_None_not_Some. rewrite Hdom. lia.
  - destruct i as [|i].
    + assert (Hkeep : ∀ l ps k v, lines ps !! k = Some v → k < list_idx ps →
                lines (fold_left (λ ps elem, push_line elem ps) l ps) !! k = Some v).
      { clear. induction l as [|b l IH]; intros ps k v Hk Hlt; cbn [fold_left];
          [done|].
        apply IH; cbn [lines list_idx push_line]; [|lia].
        rewrite lookup_insert_ne by lia. done. }
      rewrite Z.add_0_r. change ((a :: l) !! 0%nat) with (Some a).
      apply Hkeep; cbn [lines list_idx push_line];
        [by rewrite lookup_insert_eq | lia].
    + change ((a :: l) !! S i) with (l !! i).
      rewrite <- (IH (push_line a ps) i (push_line_indexed a ps Hps)).
      f_equal. cbn [list_idx push_line]. lia.
Qed.

Lemma add_lines_nil ps : add_lines [] ps = ps.
Proof.
  unfold add_lines. cbn [fold_left length]. rewrite Nat.add_0_r. by destruct ps.
Qed.

Lemma add_lines_cons a l ps :
  add_lines l (set_pos (S (pos ps)) (push_line a ps)) = add_lines (a :: l) ps.
Proof.
  unfold add_lines. cbn [fold_left]. rewrite fold_push_line_set_pos.
  replace (pos ps + length (a :: l))%nat with (S (pos ps) + length l)%nat
    by (cbn [length]; lia).
  reflexivity.
Qed.

(** A run of strings that denote positive numbers is read in full, in
    order. *)
Lemma read_lines_strings who (ls : list string) : ∀ ps st,
  Forall (λ s, 0 < atoi s) ls →
  read_lines who (ov_string <$> ls) ps st = (Ok (add_lines (atoi <$> ls) ps), st).
Proof.
  induction ls as [|s ls IH]; intros ps st Hls.
  - by rewrite add_lines_nil.
  - apply Forall_cons in Hls as [Hs Hls].
    change (read_lines who (ov_string <$> s :: ls) ps st)
      with ((if 0 <? atoi s
             then read_lines who (ov_string <$> ls)
                    (set_pos (S (pos ps)) (push_line (atoi s) ps))
             else mret ps) st).
    rewrite (proj2 (Z.ltb_lt _ _) Hs). rewrite IH by done.
    change (atoi <$> s :: ls) with (atoi s :: (atoi <$> ls)).
    by rewrite add_lines_cons.
Qed.

Lemma atoi_keyword s : 0 < atoi s → not_keyword s.
Proof. intros Hs. repeat split; intros ->; by vm_compute in Hs. Qed.

Lemma classify_name args p f st :
  arg_at args p = ov_string f → not_keyword f → atoi f ≤ 0 →
  classify args p st = (Ok (dbstop_in, p), st).
Proof.
  intros Harg (Hin & Hat & Hif) Hf. unfold classify. rewrite Harg. simpl.
  unfold mbind, M_bind, mret, M_ret. simpl.
  rewrite (proj2 (String.eqb_neq _ _) Hin), (proj2 (String.eqb_neq _ _) Hat),
    (proj2 (String.eqb_neq _ _) Hif).
  by rewrite (proj2 (Z.ltb_ge _ _) Hf).
Qed.

Lemma classify_line args p s st :
  arg_at args p = ov_string s → 0 < atoi s →
  classify args p st = (Ok (dbstop_at, p), st).
Proof.
  intros Harg Hs. destruct (atoi_keyword s Hs) as (Hin & Hat & Hif).
  unfold classify. rewrite Harg. simpl.
  unfold mbind, M_bind, mret, M_ret. simpl.
  rewrite (proj2 (String.eqb_neq _ _) Hin), (proj2 (String.eqb_neq _ _) Hat),
    (proj2 (String.eqb_neq _ _) Hif).
  by rewrite (proj2 (Z.ltb_lt _ _) Hs).
Qed.

Lemma lines_indexed_init f c cond p b1 b2 b3 :
  lines_indexed (mk_parse_state f c ∅ cond 0 b1 b2 b3 p).
Proof.
  split; [done|]. split; [done|]. intros i. simpl. rewrite lookup_empty.
  split; [by intros [? ?] | lia].
Qed.

Ltac parse_fields :=
  cbn [pos set_pos seen_in seen_at seen_if set_seen_at set_seen_in
       set_func_name set_class_name set_cond func_name class_name lines cond
       list_idx string_value is_string ov_string].

(** One turn of the loop on a function name, on the keyword "in" and on a
    line number. *)
Lemma parse_step_name ev who args ps f st :
  arg_at args (pos ps) = ov_string f → not_keyword f → atoi f ≤ 0 →
  (pos ps < length args)%nat →
  seen_in ps = false → seen_at ps = false → seen_if ps = false →
  parse_step ev who args ps st
  = (Ok (set_pos (S (pos ps)) (set_seen_in true (set_func_name f ps))), st).
Proof.
  intros Harg Hkw Hf Hlt Hin Hat Hif. unfold parse_step, mbind, M_bind.
  rewrite (classify_name args (pos ps) f st Harg Hkw Hf).
  rewrite bool_decide_eq_false_2 by lia.
  unfold process_in, mbind, M_bind, get_string. parse_fields.
  rewrite Harg. parse_fields. unfold mret at 1, M_ret at 1.
  rewrite Hin, Hat, Hif. by destruct ps.
Qed.

Lemma parse_step_in ev who args ps f st :
  arg_at args (pos ps) = ov_string "in" →
  arg_at args (S (pos ps)) = ov_string f →
  (S (pos ps) < length args)%nat →
  seen_in ps = false → seen_at ps = false → seen_if ps = false →
  parse_step ev who args ps st
  = (Ok (set_pos (S (S (pos ps))) (set_seen_in true (set_func_name f ps))), st).
Proof.
  intros Harg Hname Hlt Hin Hat Hif. unfold parse_step, mbind, M_bind.
  unfold classify, mbind, M_bind, get_string. rewrite Harg. parse_fields.
  unfold mret at 1, M_ret at 1.
  change (String.eqb "in" "in") with true. cbv iota.
  unfold mret at 1, M_ret at 1.
  rewrite bool_decide_eq_false_2 by lia.
  unfold process_in, mbind, M_bind, get_string. parse_fields.
  rewrite Hname. parse_fields. unfold mret at 1, M_ret at 1.
  rewrite Hin, Hat, Hif. by destruct ps.
Qed.

Lemma parse_step_lines ev who args ps s st :
  arg_at args (pos ps) = ov_string s → 0 < atoi s →
  (pos ps < length args)%nat →
  seen_in ps = true → seen_at ps = false → seen_if ps = false →
  parse_step ev who args ps st
  = read_lines who (drop (pos ps) args) (set_seen_at true ps) st.
Proof.
  intros Harg Hs Hlt Hin Hat Hif. unfold parse_step, mbind, M_bind.
  rewrite (classify_line args (pos ps) s st Harg Hs).
  rewrite bool_decide_eq_false_2 by lia.
  unfold process_at, mbind, M_bind, get_string. parse_fields.
  rewrite Hin, Hat, Hif, Harg. parse_fields.
  unfold mret at 1, M_ret at 1.
  rewrite (proj2 (Z.eqb_neq _ _)) by lia. by destruct ps.
Qed.

Lemma parse_step_lines_debugger ev who args ps s st :
  arg_at args (pos ps) = ov_string s → 0 < atoi s →
  (pos ps < length args)%nat →
  seen_in ps = false → seen_at ps = false → seen_if ps = false →
  parse_step ev who args ps st
  = if in_debug_repl ev
    then read_lines who (drop (pos ps) args)
           (set_seen_in true
              (set_func_name (debugged_profiler_name ev) (set_seen_at true ps)))
           st
    else (Error (who +:+ ": function name must come before line number "
                     +:+ "and 'if'"), st).
Proof.
  intros Harg Hs Hlt Hin Hat Hif. unfold parse_step, mbind, M_bind.
  rewrite (classify_line args (pos ps) s st Harg Hs).
  rewrite bool_decide_eq_false_2 by lia.
  unfold process_at. parse_fields.
  rewrite Hin, Hat, Hif. destruct (in_debug_repl ev); by destruct ps.
Qed.

Lemma parse_loop_step ev who args fuel ps st :
  (pos ps < length args)%nat →
  parse_loop ev who args (S fuel) ps st
  = match parse_step ev who args ps st with
    | (Ok ps1, st1) => parse_loop ev who args fuel ps1 st1
    | (Error msg, st1) => (Error msg, st1)
    | (OutOfFuel, st1) => (OutOfFuel, st1)
    end.
Proof.
  intros Hlt. rewrite parse_loop_S. by rewrite bool_decide_eq_true_2 by done.
Qed.

Lemma parse_usage_passed ev who (v : octave_value) args cond0 st :
  is_string v = true →
  parse_dbfunction_params ev who (v :: args) cond0 st
  = parse_loop ev who (v :: args) (S (length args))
      (mk_parse_state "" "" ∅ cond0 0 false false false 0) st.
Proof.
  intros Hv. unfold parse_dbfunction_params.
  change (arg_at (v :: args) 0) with v. by rewrite Hv.
Qed.

(** X5.  dbstop f l1 ... ln: a name that is no keyword and for which atoi
    gives no positive int, followed by strings for which atoi gives a
    positive int, is accepted; the function is the name, the lines are the
    values of atoi in the order of the strings, the condition and the table
    are left as they are. *)
Theorem parse_function_and_lines (ev : tree_evaluator) (who f : string)
    (ls : list string) (cond0 : string) (st : bp_table) :
  not_keyword f → atoi f ≤ 0 → Forall (λ s, 0 < atoi s) ls →
  ∃ out,
    parse_dbfunction_params ev who (ov_string f :: (ov_string <$> ls)) cond0 st
    = (Ok out, st)
    ∧ func_name out = f ∧ class_name out = "" ∧ cond out = cond0
    ∧ size (lines out) = length ls
    ∧ ∀ i : nat, lines out !! Z.of_nat i = atoi <$> ls !! i.
Proof.
  intros Hkw Hf Hls. rewrite parse_usage_passed by done.
  rewrite length_fmap.
  set (args := ov_string f :: (ov_string <$> ls)).
  assert (Hlen : length args = S (length ls))
    by (subst args; cbn [length]; by rewrite length_fmap).
  set (ps0 := mk_parse_state "" "" ∅ cond0 0 false false false 0).
  rewrite parse_loop_step by (rewrite Hlen; cbn [pos ps0]; lia).
  rewrite (parse_step_name ev who args ps0 f st eq_refl Hkw Hf)
    by (done || (rewrite Hlen; cbn [pos ps0]; lia)).
  set (ps1 := set_pos _ _).
  destruct ls as [|s ls].
  - rewrite parse_loop_done by (rewrite Hlen; cbn; lia).
    exists ps1. split; [done|]. repeat (split; [done|]).
    intros i. cbn [lines ps1 set_pos set_seen_in set_func_name ps0].
    by rewrite lookup_empty, lookup_nil.
  - pose proof (Forall_inv Hls) as Hs. cbn beta in Hs. cbn [length].
    rewrite parse_loop_step by (rewrite Hlen; cbn; lia).
    rewrite (parse_step_lines ev who args ps1 s st eq_refl Hs)
      by (done || (rewrite Hlen; cbn; lia)).
    change (drop (pos ps1) args) with (ov_string <$> s :: ls).
    rewrite read_lines_strings by done.
    set (ps2 := set_seen_at true ps1).
    assert (Hinit : lines_indexed ps2) by apply lines_indexed_init.
    destruct (fold_push_line_fields (atoi <$> s :: ls) ps2)
      as (Hfn & Hcn & Hc & Hidx).
    pose proof (fold_push_line_indexed (atoi <$> s :: ls) ps2 Hinit)
      as (_ & Hsize & _).
    rewrite parse_loop_done
      by (rewrite Hlen; unfold add_lines; cbn [pos set_pos];
          rewrite length_fmap; cbn; lia).
    eexists. split; [reflexivity|]. unfold add_lines.
    cbn [func_name class_name cond lines set_pos].
    split; [done|]. split; [done|]. split; [done|]. split.
    + rewrite Hidx in Hsize. rewrite length_fmap in Hsize.
      cbn [list_idx ps2 ps1 ps0 set_seen_at set_pos set_seen_in set_func_name]
        in Hsize. cbn [length] in Hsize. lia.
    + intros i.
      pose proof (fold_push_line_lookup (atoi <$> s :: ls) ps2 i Hinit) as Hl.
      cbn [list_idx ps2 ps1 ps0 set_seen_at set_pos set_seen_in set_func_name]
        in Hl. rewrite Z.add_0_l in Hl. by rewrite list_lookup_fmap in Hl.
Qed.

(** X5, witness: dbstop help 104 204. *)
Lemma parse_function_and_lines_witness :
  ∃ out,
    parse_dbfunction_params fx_evaluator "dbstop"
      [ov_string "help"; ov_string "104"; ov_string "204"] "" empty_table
    = (Ok out, empty_table)
    ∧ func_name out = "help" ∧ class_name out = "" ∧ cond out = ""
    ∧ size (lines out) = 2%nat
    ∧ ∀ i : nat, lines out !! Z.of_nat i = atoi <$> ["104"; "204"] !! i.
Proof.
  apply (parse_function_and_lines fx_evaluator "dbstop" "help" ["104"; "204"]).
  - repeat split; discriminate.
  - vm_compute. discriminate.
  - repeat constructor.
Defined.

Lemma read_cond_strings who (toks : list string) : ∀ c st,
  read_cond who (ov_string <$> toks) c st
  = (Ok (fold_left (λ c s, c +:+ " " +:+ s) toks c), st).
Proof.
  induction toks as [|t toks IH]; intros c st; simpl; [done|].
  unfold mbind, M_bind, get_string, mret, M_ret. simpl. apply IH.
Qed.

Lemma string_app_assoc (a b c : string) : (a +:+ b) +:+ c = a +:+ (b +:+ c).
Proof.
  induction a as [|x a IH]; [done|].
  change (String x ((a +:+ b) +:+ c) = String x (a +:+ (b +:+ c))).
  by rewrite IH.
Qed.

Lemma fold_join_prefix (toks : list string) : ∀ c,
  fold_left (λ c s, c +:+ " " +:+ s) toks c
  = c +:+ fold_left (λ c s, c +:+ " " +:+ s) toks "".
Proof.
  induction toks as [|t toks IH]; intros c; simpl.
  - induction c as [|x c IHc]; [done|].
    change (String x c = String x (c +:+ "")). by rewrite <- IHc.
  - rewrite IH. rewrite (IH ("" +:+ " " +:+ t)). by rewrite string_app_assoc.
Qed.

Lemma substring_all (s : string) : substring 0 (String.length s) s = s.
Proof. induction s as [|x s IH]; simpl; [done|]. by rewrite IH. Qed.

Lemma substr_from_1_cons c (x : string) : substr_from_1 (String c x) = x.
Proof.
  unfold substr_from_1. cbn [String.length].
  replace (S (String.length x) - 1)%nat with (String.length x) by lia.
  cbn [substring]. apply substring_all.
Qed.

Lemma string_app_nil_r (s : string) : s +:+ "" = s.
Proof.
  induction s as [|x s IH]; [done|].
  change (String x (s +:+ "") = String x s). by rewrite IH.
Qed.

Lemma concat_cons_joined (toks : list string) : ∀ t,
  t +:+ fold_left (λ c s, c +:+ " " +:+ s) toks "" = String.concat " " (t :: toks).
Proof.
  induction toks as [|u toks IH]; intros t.
  - cbn [fold_left String.concat]. apply string_app_nil_r.
  - cbn [fold_left]. rewrite fold_join_prefix.
    change (String.concat " " (t :: u :: toks))
      with (t +:+ " " +:+ String.concat " " (u :: toks)).
    rewrite <- IH. change ("" +:+ " " +:+ u) with (" " +:+ u).
    by rewrite string_app_assoc.
Qed.

(** The condition as the parser joins it is the tokens with one space
    between them. *)
Lemma joined_condition (toks : list string) :
  toks ≠ [] →
  substr_from_1 (fold_left (λ c s, c +:+ " " +:+ s) toks "")
  = String.concat " " toks.
Proof.
  destruct toks as [|t toks]; [done|]. intros _. cbn [fold_left].
  rewrite fold_join_prefix.
  change (("" +:+ " " +:+ t) +:+ ?x) with (String " " (t +:+ x)).
  rewrite substr_from_1_cons. apply concat_cons_joined.
Qed.

Lemma parse_step_if_condition ev who args ps (toks : list string) st :
  arg_at args (pos ps) = ov_string "if" →
  drop (S (pos ps)) args = ov_string <$> toks →
  (S (pos ps) < length args)%nat →
  seen_in ps = true →
  parse_step ev who args ps st
  = (Ok (set_pos (length args)
           (set_cond (substr_from_1 (fold_left (λ c s, c +:+ " " +:+ s) toks ""))
              ps)), st).
Proof.
  intros Harg Hrest Hlt Hin. unfold parse_step, mbind, M_bind.
  unfold classify, mbind, M_bind, get_string. rewrite Harg. parse_fields.
  unfold mret at 1, M_ret at 1.
  change (String.eqb "if" "in") with false.
  change (String.eqb "if" "at") with false.
  change (String.eqb "if" "if") with true. cbv iota.
  unfold mret at 1, M_ret at 1.
  rewrite bool_decide_eq_false_2 by lia.
  unfold process_if, mbind, M_bind. parse_fields. rewrite Hin, Hrest.
  rewrite read_cond_strings. unfold mret, M_ret.
  rewrite Nat.max_r by lia. by destruct ps.
Qed.

(** X6.  dbstop in f if t1 ... tn: after "in" any string is taken as the
    function name, and after "if" all remaining strings, whatever they are,
    become the condition, joined by single spaces; no line is recorded and
    the table is left as it is. *)
Theorem parse_conditional (ev : tree_evaluator) (who f : string)
    (toks : list string) (cond0 : string) (st : bp_table) :
  toks ≠ [] →
  ∃ out,
    parse_dbfunction_params ev who
      (ov_string "in" :: ov_string f :: ov_string "if" :: (ov_string <$> toks))
      cond0 st
    = (Ok out, st)
    ∧ func_name out = f ∧ class_name out = "" ∧ lines out = ∅
    ∧ cond out = String.concat " " toks.
Proof.
  intros Htoks. rewrite parse_usage_passed by done.
  set (args := ov_string "in" :: ov_string f :: ov_string "if"
               :: (ov_string <$> toks)).
  assert (Hlen : length args = S (S (S (length toks))))
    by (subst args; cbn [length]; by rewrite length_fmap).
  assert (Hn : (0 < length toks)%nat) by (destruct toks; [done | simpl; lia]).
  set (ps0 := mk_parse_state "" "" ∅ cond0 0 false false false 0).
  cbn [length]. rewrite length_fmap.
  rewrite parse_loop_step by (rewrite Hlen; cbn [pos ps0]; lia).
  rewrite (parse_step_in ev who args ps0 f st eq_refl eq_refl)
    by (done || (rewrite Hlen; cbn [pos ps0]; lia)).
  set (ps1 := set_pos _ _).
  rewrite parse_loop_step by (rewrite Hlen; cbn; lia).
  rewrite (parse_step_if_condition ev who args ps1 toks st eq_refl eq_refl)
    by (done || (rewrite Hlen; cbn; lia)).
  rewrite parse_loop_done by (cbn [pos set_pos]; lia).
  eexists. split; [reflexivity|].
  cbn [func_name class_name lines cond set_pos set_cond].
  repeat (split; [done|]). by apply joined_condition.
Qed.

(** X6, witness: dbstop in ls if a == 5, given as separate words. *)
Lemma parse_conditional_witness :
  ∃ out,
    parse_dbfunction_params fx_evaluator "dbstop"
      [ov_string "in"; ov_string "ls"; ov_string "if"; ov_string "a";
       ov_string "=="; ov_string "5"] "" empty_table
    = (Ok out, empty_table)
    ∧ func_name out = "ls" ∧ class_name out = "" ∧ lines out = ∅
    ∧ cond out = "a == 5".
Proof.
  apply (parse_conditional fx_evaluator "dbstop" "ls" ["a"; "=="; "5"]). done.
Defined.

(** X7.  dbstop l1 ... ln with no function name, each string one for which
    atoi gives a positive int: outside the debugger the command is an error;
    inside it the function is the one being debugged and the lines are the
    values of atoi in the order of the strings.  The table is left as it is
    in both cases. *)
Theorem parse_lines_without_function (ev : tree_evaluator) (who s : string)
    (ls : list string) (cond0 : string) (st : bp_table) :
  Forall (λ s, 0 < atoi s) (s :: ls) →
  let res := parse_dbfunction_params ev who (ov_string <$> s :: ls) cond0 st in
  (in_debug_repl ev = false → ∃ msg, res = (Error msg, st))
  ∧ (in_debug_repl ev = true →
     ∃ out, res = (Ok out, st)
            ∧ func_name out = debugged_profiler_name ev
            ∧ size (lines out) = S (length ls)
            ∧ ∀ i : nat, lines out !! Z.of_nat i = atoi <$> (s :: ls) !! i).
Proof.
  intros Hls res. subst res.
  change (ov_string <$> s :: ls) with (ov_string s :: (ov_string <$> ls)).
  rewrite parse_usage_passed by done. rewrite length_fmap.
  set (args := ov_string s :: (ov_string <$> ls)).
  assert (Hlen : length args = S (length ls))
    by (subst args; cbn [length]; by rewrite length_fmap).
  pose proof (Forall_inv Hls) as Hs. cbn beta in Hs.
  set (ps0 := mk_parse_state "" "" ∅ cond0 0 false false false 0).
  rewrite parse_loop_step by (rewrite Hlen; cbn [pos ps0]; lia).
  rewrite (parse_step_lines_debugger ev who args ps0 s st eq_refl Hs)
    by (done || (rewrite Hlen; cbn [pos ps0]; lia)).
  destruct (in_debug_repl ev); split; try done; [|intros _; by eexists].
  - intros _. change (drop (pos ps0) args) with (ov_string <$> s :: ls).
    rewrite read_lines_strings by done.
    set (ps1 := set_seen_in true _).
    assert (Hinit : lines_indexed ps1) by apply lines_indexed_init.
    destruct (fold_push_line_fields (atoi <$> s :: ls) ps1)
      as (Hfn & _ & _ & Hidx).
    pose proof (fold_push_line_indexed (atoi <$> s :: ls) ps1 Hinit)
      as (_ & Hsize & _).
    rewrite parse_loop_done
      by (rewrite Hlen; unfold add_lines; cbn [pos set_pos];
          rewrite length_fmap; cbn; lia).
    eexists. split; [reflexivity|]. unfold add_lines.
    cbn [func_name lines set_pos]. split; [done|]. split.
    + rewrite Hidx in Hsize. rewrite length_fmap in Hsize.
      cbn [list_idx ps1 ps0 set_seen_at set_pos set_seen_in set_func_name]
        in Hsize. cbn [length] in Hsize. lia.
    + intros i.
      pose proof (fold_push_line_lookup (atoi <$> s :: ls) ps1 i Hinit) as Hl.
      cbn [list_idx ps1 ps0 set_seen_at set_pos set_seen_in set_func_name]
        in Hl. rewrite Z.add_0_l in Hl. by rewrite list_lookup_fmap in Hl.
Qed.

(** X7, witness: dbstop 7 9 at the prompt. *)
Lemma parse_lines_without_function_witness :
  ∃ msg,
    parse_dbfunction_params fx_evaluator "dbstop" [ov_string "7"; ov_string "9"]
      "" empty_table = (Error msg, empty_table).
Proof.
  apply (parse_lines_without_function fx_evaluator "dbstop" "7" ["9"]).
  - repeat constructor.
  - reflexivity.
Defined.

(** Digit strings beyond the range of int: atoi wraps, so the parser does
    not take "4294967296" (0 as an int) or "2147483648" (negative as an int)
    as a line number. *)
Example atoi_beyond_int :
  atoi "2147483647" = 2147483647
  ∧ atoi "2147483648" = -2147483648
  ∧ atoi "4294967296" = 0.
Proof. by vm_compute. Qed.

Example parse_line_beyond_int :
  parse_dbfunction_params fx_evaluator "dbstop"
    [ov_string "f"; ov_string "4294967296"] "" empty_table
  = (Error "dbstop: Too many function names specified -- 4294967296",
     empty_table).
Proof. reflexivity. Qed.

Example parse_line_wrapping_negative :
  ∃ out,
    parse_dbfunction_params fx_evaluator "dbstop" [ov_string "2147483648"] ""
      empty_table = (Ok out, empty_table)
    ∧ func_name out = "2147483648" ∧ lines out = ∅.
Proof. eexists. split; [reflexivity|]. by split. Qed.

(** ** Trigger flags: what a call leaves alone, and what it keeps *)

(** X8.  A call of process_id_list for one trigger leaves the identifier
    sets and flags of the other two triggers, the set of names with
    breakpoints and the statement lists as they are; it changes the
    interrupt flag only in the form without identifier on the error
    trigger. *)
Theorem process_id_list_frame (t : trigger) (who : string)
    (args : list octave_value) (nargin pos : nat) (on_off : bool)
    (st : bp_table) :
  let st' := snd (process_id_list who (trigger_condition t) args nargin pos
                    on_off (trigger_ids t) st) in
  m_bp_set st' = m_bp_set st
  ∧ stmt_lists st' = stmt_lists st
  ∧ (∀ t', t' ≠ t →
       read_ids (trigger_ids t') st' = read_ids (trigger_ids t') st
       ∧ trigger_flag t' st' = trigger_flag t' st)
  ∧ (Vdebug_on_interrupt st' ≠ Vdebug_on_interrupt st →
     t = trig_error ∧ (nargin ≤ S pos)%nat).
Proof.
  unfold process_id_list.
  destruct (decide (S pos < nargin)%nat) as [Hlt|Hge].
  - destruct (_ || _); [by repeat split|].
    unfold get_string. destruct (string_value _) as [id|];
      [|destruct on_off; by repeat split].
    destruct on_off.
    + destruct t; simpl; (split; [done|]); (split; [done|]);
        (split; [|done]); by intros [].
    + unfold mbind, M_bind, modify, gets, mret, M_ret. simpl.
      destruct (bool_decide _); destruct t; simpl;
        (split; [done|]); (split; [done|]); (split; [|done]); by intros [].
  - destruct t; simpl; (split; [done|]); (split; [done|]);
      (split; [by intros []|]); intros Hne; (split; [done|lia]) || done.
Qed.

Lemma preserves_pure {A : Type} (P : bp_table → Prop) (m : M A) :
  pure m → preserves P m.
Proof. intros Hm st HP. by rewrite Hm. Qed.

Lemma preserves_bind {A B : Type} (P : bp_table → Prop) (m : M A) (k : A → M B) :
  preserves P m → (∀ a, preserves P (k a)) → preserves P (m ≫= k).
Proof.
  intros Hm Hk st HP. unfold mbind, M_bind. specialize (Hm st HP).
  destruct (m st) as [[a|msg|] s]; simpl in *; [by apply Hk | done | done].
Qed.

Lemma process_id_list_other_triggers (t : trigger) who args nargin pos on_off st :
  ∀ t', t' ≠ t →
    let st' := snd (process_id_list who (trigger_condition t) args nargin pos
                      on_off (trigger_ids t) st) in
    read_ids (trigger_ids t') st' = read_ids (trigger_ids t') st
    ∧ trigger_flag t' st' = trigger_flag t' st.
Proof.
  intros t' Hne. unfold process_id_list.
  destruct (decide (S pos < nargin)%nat) as [Hlt|Hge].
  - destruct (_ || _); [done|].
    unfold get_string. destruct (string_value _) as [id|];
      [|by destruct on_off].
    destruct on_off.
    + by destruct t, t'.
    + unfold mbind, M_bind, modify, gets, mret, M_ret. simpl.
      destruct (bool_decide _); by destruct t, t'.
  - by destruct t, t'.
Qed.

Lemma process_id_list_consistent (t : trigger) who args nargin pos on_off :
  preserves triggers_consistent
    (process_id_list who (trigger_condition t) args nargin pos on_off
       (trigger_ids t)).
Proof.
  intros st Hst.
  assert (Hother : ∀ st', (∀ t', t' ≠ t →
            read_ids (trigger_ids t') st' = read_ids (trigger_ids t') st
            ∧ trigger_flag t' st' = trigger_flag t' st) →
            (read_ids (trigger_ids t) st' ≠ ∅ → trigger_flag t st' = true) →
            triggers_consistent st').
  { intros st' Hframe Hself t'. destruct (decide (t' = t)) as [->|Hne]; [done|].
    destruct (Hframe t' Hne) as [-> ->]. apply Hst. }
  apply Hother; [apply process_id_list_other_triggers|].
  clear Hother. unfold process_id_list.
  destruct (decide (S pos < nargin)%nat) as [Hlt|Hge].
  - destruct (_ || _); [apply Hst|].
    unfold get_string. destruct (string_value _) as [id|];
      [|destruct on_off; apply Hst].
    destruct on_off; [by destruct t|].
    unfold mbind, M_bind, modify, gets, mret, M_ret. simpl.
    destruct (bool_decide_reflect
                (read_ids (trigger_ids t)
                   (write_ids (trigger_ids t)
                      (read_ids (trigger_ids t) st ∖ {[id]}) st) = ∅))
      as [He|He].
    + intros Hne. exfalso. apply Hne. by destruct t.
    + intros _. specialize (Hst t).
      assert (read_ids (trigger_ids t) st ≠ ∅) as Hne.
      { intros Hempty. apply He. destruct t; simpl in *; rewrite Hempty;
          apply set_eq; intros x; rewrite elem_of_difference;
          (split; [by intros [?%not_elem_of_empty _]
                  | by intros ?%not_elem_of_empty]). }
      specialize (Hst Hne). by destruct t.
  - destruct t; simpl; by intros [].
Qed.

Lemma preserves_ret {A : Type} (P : bp_table → Prop) (a : A) :
  preserves P (mret a).
Proof. by intros st. Qed.

Lemma preserves_error {A : Type} (P : bp_table → Prop) msg :
  preserves P (@error A msg).
Proof. by intros st. Qed.

Lemma process_if_consistent who args ps :
  preserves triggers_consistent (process_if who args ps).
Proof.
  unfold process_if. destruct (seen_in ps) eqn:Hin.
  { apply preserves_pure. pose proof (process_if_condition_pure who args ps Hin)
      as Hp. unfold process_if in Hp. by rewrite Hin in Hp. }
  apply preserves_bind; [apply preserves_pure, pure_get_string|].
  intros condition.
  apply preserves_bind; [|intros; apply preserves_ret].
  destruct (String.eqb condition "error") eqn:He.
  { apply String.eqb_eq in He as ->.
    apply preserves_bind; [|intros; apply preserves_ret].
    apply (process_id_list_consistent trig_error). }
  destruct (String.eqb condition "warning") eqn:Hw.
  { apply String.eqb_eq in Hw as ->.
    apply preserves_bind; [|intros; apply preserves_ret].
    apply (process_id_list_consistent trig_warning). }
  destruct (String.eqb condition "caught") eqn:Hc; simpl.
  { apply String.eqb_eq in Hc as ->. destruct (bool_decide _).
    - apply preserves_bind; [apply preserves_pure, pure_get_string|].
      intros next. destruct (String.eqb next "error"); [|apply preserves_error].
      apply preserves_bind; [|intros; apply preserves_ret].
      apply (process_id_list_consistent trig_caught).
    - apply preserves_error. }
  destruct (String.eqb condition "interrupt").
  { intros st Hst t. specialize (Hst t). by destruct t. }
  destruct (String.eqb condition "naninf");
    [apply preserves_ret | apply preserves_error].
Qed.

Lemma parse_step_consistent ev who args ps :
  preserves triggers_consistent (parse_step ev who args ps).
Proof.
  unfold parse_step.
  apply preserves_bind; [apply preserves_pure, pure_classify|].
  intros [tok p]. destruct (bool_decide _); [apply preserves_error|].
  destruct tok.
  - apply preserves_pure, pure_process_in.
  - apply preserves_pure, pure_process_at.
  - apply process_if_consistent.
  - apply preserves_ret.
Qed.

Lemma parse_loop_consistent ev who args : ∀ fuel ps,
  preserves triggers_consistent (parse_loop ev who args fuel ps).
Proof.
  induction fuel as [|fuel IH]; intros ps; simpl;
    destruct (bool_decide (pos ps < length args)%nat);
    try apply preserves_ret; [by intros st|].
  apply preserves_bind; [apply parse_step_consistent | apply IH].
Qed.

(** X9.  Every dbstop or dbclear command keeps the trigger state
    consistent: whenever the identifier set of a trigger is not empty, its
    flag is on, so that the identifiers that a status report lists are in
    force. *)
Theorem parse_dbfunction_params_consistent (ev : tree_evaluator) (who : string)
    (args : list octave_value) (cond : string) (st : bp_table) :
  triggers_consistent st →
  triggers_consistent (snd (parse_dbfunction_params ev who args cond st)).
Proof.
  unfold parse_dbfunction_params. destruct (_ || _); [done|].
  apply parse_loop_consistent.
Qed.

(** X9, witness: errors A and B stop; after dbclear if error A the error B
    is still in the set, and the trigger is still on. *)
Lemma parse_dbfunction_params_consistent_witness :
  "B" ∈ m_errors_that_stop
          (snd (parse_dbfunction_params fx_evaluator "dbclear"
                  [ov_string "if"; ov_string "error"; ov_string "A"] ""
                  (set_debug_on_error true
                     (set_errors_that_stop {[ "A"; "B" ]} empty_table))))
  ∧ triggers_consistent
      (snd (parse_dbfunction_params fx_evaluator "dbclear"
              [ov_string "if"; ov_string "error"; ov_string "A"] ""
              (set_debug_on_error true
                 (set_errors_that_stop {[ "A"; "B" ]} empty_table)))).
Proof.
  split.
  - change ("B" ∈ ({[ "A"; "B" ]} : gset string) ∖ {[ "A" ]}).
    apply elem_of_difference. split.
    + apply elem_of_union. right. by apply elem_of_singleton.
    + by intros ?%elem_of_singleton.
  - apply (parse_dbfunction_params_consistent fx_evaluator "dbclear"
             [ov_string "if"; ov_string "error"; ov_string "A"] ""
             (set_debug_on_error true
                (set_errors_that_stop {[ "A"; "B" ]} empty_table))).
    intros t Hne. destruct t; [reflexivity | |]; by destruct Hne.
Defined.

(** X10.  Enabling a trigger for an identifier and then disabling it for the
    same identifier does not restore the state before: the set is the
    earlier set without the identifier, and the flag is off when that set is
    empty, also when the trigger was on without identifiers (stop on every
    event) before; it is on when other identifiers remain. *)
Theorem enable_then_disable (t : trigger) (who : string)
    (args : list octave_value) (pos : nat) (id : string) (st : bp_table) :
  length args = S (S pos) →
  is_string (arg_at args (S pos)) = true →
  string_value (arg_at args (S pos)) = Some id →
  ∃ st1 st2,
    process_id_list who (trigger_condition t) args (length args) pos true
      (trigger_ids t) st = (Ok (S pos), st1)
    ∧ process_id_list who (trigger_condition t) args (length args) pos false
        (trigger_ids t) st1 = (Ok (S pos), st2)
    ∧ read_ids (trigger_ids t) st2 = read_ids (trigger_ids t) st ∖ {[id]}
    ∧ trigger_flag t st2
      = if decide (read_ids (trigger_ids t) st ∖ {[id]} = ∅) then false else true.
Proof.
  intros Hlen Hstr Hval. unfold process_id_list, get_string.
  rewrite Hlen, Hstr, Hval.
  destruct (decide (S pos < S (S pos))%nat) as [_|]; [|lia].
  rewrite bool_decide_eq_false_2 by lia.
  change (negb true || false) with false. cbv iota.
  assert (Hset : ∀ s : gset string, ({[id]} ∪ s) ∖ {[id]} = s ∖ {[id]}).
  { intros s. apply set_eq. intros x.
    rewrite !elem_of_difference, elem_of_union, elem_of_singleton. tauto. }
  unfold mbind, M_bind, modify, gets, mret, M_ret.
  destruct t; simpl;
    (destruct (decide (_ ∖ {[id]} = ∅)) as [He|He];
     eexists _, _; (split; [reflexivity|]); simpl; rewrite Hset;
     [rewrite bool_decide_eq_true_2 by done
     |rewrite bool_decide_eq_false_2 by done]; by simpl).
Qed.

(** X10, witness: stop on every error, then dbstop if error X, then dbclear
    if error X: the error trigger is off. *)
Lemma enable_then_disable_witness :
  ∃ st1 st2,
    process_id_list "dbstop" "error"
      [ov_string "if"; ov_string "error"; ov_string "X"] 3 1 true
      errors_that_stop (set_debug_on_error true empty_table)
    = (Ok 2%nat, st1)
    ∧ process_id_list "dbstop" "error"
        [ov_string "if"; ov_string "error"; ov_string "X"] 3 1 false
        errors_that_stop st1
      = (Ok 2%nat, st2)
    ∧ m_errors_that_stop st2 = ∅ ∖ {[ "X" ]}
    ∧ debug_on_error st2
      = if decide ((∅ : gset string) ∖ {[ "X" ]} = ∅) then false else true.
Proof.
  apply (enable_then_disable trig_error "dbstop"
           [ov_string "if"; ov_string "error"; ov_string "X"] 1 "X"
           (set_debug_on_error true empty_table)); reflexivity.
Defined.

(** ** Termination of the argument scan *)

(** X11.  The scan of the arguments ends: every turn of the loop consumes at
    least one argument, so after at most as many turns as there are
    arguments the parser has returned its result or raised an error. *)
Theorem parse_dbfunction_params_terminates (ev : tree_evaluator) (who : string)
    (args : list octave_value) (cond : string) (st : bp_table) :
  ∃ st', (∃ out, parse_dbfunction_params ev who args cond st = (Ok out, st'))
         ∨ (∃ msg, parse_dbfunction_params ev who args cond st = (Error msg, st')).
Proof.
  unfold parse_dbfunction_params.
  destruct (_ || _); [exists st; right; by eexists|].
  pose proof (total_parse_loop ev who args (length args)
                (mk_parse_state "" "" ∅ cond 0 false false false 0)
                ltac:(simpl; lia) st) as Htotal.
  destruct (parse_loop _ _ _ _ _ _) as [[out|msg|] st']; [| |done];
    exists st'; [left | right]; by eexists.
Qed.

(** ** Clearing and reporting the triggers *)

(** X12.  After dbclear_all_signals the status report is empty in both
    modes: nothing is printed and the record has no field.  The names with
    breakpoints and the statement lists are left as they are. *)
Theorem dbclear_all_signals_silences (to_screen : bool) (st : bp_table) :
  ∃ st', dbclear_all_signals st = (Ok tt, st')
    ∧ stop_on_err_warn_status to_screen st' = ([], ∅)
    ∧ m_bp_set st' = m_bp_set st ∧ stmt_lists st' = stmt_lists st.
Proof. eexists. split; [reflexivity|]. by destruct to_screen. Qed.

Lemma report_trigger_screen flag ids label field acc :
  (report_trigger true flag ids label field acc).2 = acc.2.
Proof.
  unfold report_trigger. destruct acc as [out retval].
  destruct flag; [|done]. by destruct (bool_decide _).
Qed.

Lemma report_trigger_record flag ids label field acc :
  let r := report_trigger false flag ids label field acc in
  r.1 = acc.1
  ∧ (∀ k, k ≠ field → r.2 !! k = acc.2 !! k)
  ∧ r.2 !! field
    = if flag
      then Some [if bool_decide (ids = ∅) then mv_empty_string
                 else mv_cell (ids_in_order ids)]
      else acc.2 !! field.
Proof.
  unfold report_trigger, assign. destruct acc as [out retval].
  destruct flag; [|done].
  destruct (bool_decide _); simpl;
    (split; [done|]); (split; [|by rewrite lookup_insert_eq]);
    intros k Hk; by rewrite lookup_insert_ne.
Qed.

(** The record of the status report, field by field. *)
Lemma status_record_lookup (st : bp_table) :
  let r := stop_on_err_warn_status false st in
  r.1 = []
  ∧ (∀ t, r.2 !! trigger_field t
          = if trigger_flag t st
            then Some [if bool_decide (read_ids (trigger_ids t) st = ∅)
                       then mv_empty_string
                       else mv_cell (ids_in_order (read_ids (trigger_ids t) st))]
            else None)
  ∧ r.2 !! "intr" = (if Vdebug_on_interrupt st then Some [mv_undefined] else None)
  ∧ ∀ k, (∀ t, k ≠ trigger_field t) → k ≠ "intr" → r.2 !! k = None.
Proof.
  unfold stop_on_err_warn_status.
  set (acc0 := ([], ∅) : list string * octave_map).
  destruct (report_trigger_record (debug_on_error st) (m_errors_that_stop st)
              "stop if error" "errs" acc0) as (Ho1 & Hk1 & Hf1).
  set (acc1 := report_trigger false _ _ _ "errs" acc0) in *.
  destruct (report_trigger_record (debug_on_caught st) (m_caught_that_stop st)
              "stop if caught error" "caught" acc1) as (Ho2 & Hk2 & Hf2).
  set (acc2 := report_trigger false _ _ _ "caught" acc1) in *.
  destruct (report_trigger_record (debug_on_warning st) (m_warnings_that_stop st)
              "stop if warning" "warn" acc2) as (Ho3 & Hk3 & Hf3).
  set (acc3 := report_trigger false _ _ _ "warn" acc2) in *.
  assert (Hacc : acc3.1 = []
    ∧ (∀ t, acc3.2 !! trigger_field t
          = if trigger_flag t st
            then Some [if bool_decide (read_ids (trigger_ids t) st = ∅)
                       then mv_empty_string
                       else mv_cell (ids_in_order (read_ids (trigger_ids t) st))]
            else None)
    ∧ acc3.2 !! "intr" = None
    ∧ ∀ k, (∀ t, k ≠ trigger_field t) → k ≠ "intr" → acc3.2 !! k = None).
  { split; [by rewrite Ho3, Ho2, Ho1|]. split; [|split].
    - intros [].
      + cbn [trigger_field trigger_flag trigger_ids read_ids].
        rewrite Hk3, Hk2, Hf1 by done. by destruct (debug_on_error st).
      + cbn [trigger_field trigger_flag trigger_ids read_ids].
        rewrite Hf3. destruct (debug_on_warning st); [done|].
        by rewrite Hk2, Hk1.
      + cbn [trigger_field trigger_flag trigger_ids read_ids].
        rewrite Hk3, Hf2 by done. destruct (debug_on_caught st); [done|].
        by rewrite Hk1.
    - by rewrite Hk3, Hk2, Hk1.
    - intros k Hk _. rewrite Hk3, Hk2, Hk1; [done|..].
      + apply (Hk trig_error).
      + apply (Hk trig_caught).
      + apply (Hk trig_warning). }
  clearbody acc3. destruct Hacc as (Ho & Ht & Hi & Hk).
  destruct (Vdebug_on_interrupt st); [|done]. unfold assign. simpl.
  split; [done|]. split; [|split].
  - intros t. rewrite lookup_insert_ne by (by destruct t). apply Ht.
  - by rewrite lookup_insert_eq.
  - intros k Hkt Hki. rewrite lookup_insert_ne by done. by apply Hk.
Qed.

(** X13.  The two modes of the status report do not mix: the text mode
    returns a record without fields, the record mode prints nothing.  The
    record has a field exactly for each trigger whose flag is on ("errs",
    "caught", "warn") and "intr" when the interrupt flag is on; the
    identifier sets of triggers whose flag is off are not reported. *)
Theorem status_fields (st : bp_table) :
  (stop_on_err_warn_status true st).2 = ∅
  ∧ (stop_on_err_warn_status false st).1 = []
  ∧ ∀ k, is_Some ((stop_on_err_warn_status false st).2 !! k)
         ↔ (∃ t, k = trigger_field t ∧ trigger_flag t st = true)
           ∨ (k = "intr" ∧ Vdebug_on_interrupt st = true).
Proof.
  split; [|split].
  - unfold stop_on_err_warn_status.
    destruct (Vdebug_on_interrupt st); cbn [fst snd];
      by rewrite !report_trigger_screen.
  - apply status_record_lookup.
  - destruct (status_record_lookup st) as (_ & Ht & Hi & Hk). intros k. split.
    + intros Hsome.
      destruct (decide (k = "intr")) as [->|Hni].
      { right. split; [done|]. rewrite Hi in Hsome.
        destruct (Vdebug_on_interrupt st); [done|by destruct Hsome]. }
      destruct (decide (k = "errs")) as [->|Hne].
      { left. exists trig_error. split; [done|].
        pose proof (Ht trig_error) as Hf. cbn [trigger_field] in Hf.
        rewrite Hf in Hsome.
        destruct (trigger_flag trig_error st); [done|by destruct Hsome]. }
      destruct (decide (k = "warn")) as [->|Hnw].
      { left. exists trig_warning. split; [done|].
        pose proof (Ht trig_warning) as Hf. cbn [trigger_field] in Hf.
        rewrite Hf in Hsome.
        destruct (trigger_flag trig_warning st); [done|by destruct Hsome]. }
      destruct (decide (k = "caught")) as [->|Hnc].
      { left. exists trig_caught. split; [done|].
        pose proof (Ht trig_caught) as Hf. cbn [trigger_field] in Hf.
        rewrite Hf in Hsome.
        destruct (trigger_flag trig_caught st); [done|by destruct Hsome]. }
      rewrite Hk in Hsome; [by destruct Hsome| |done]. by intros [].
    + intros [(t & -> & Hflag)|[-> Hflag]].
      * rewrite Ht, Hflag. by eexists.
      * rewrite Hi, Hflag. by eexists.
Qed.

(** X14.  In the record of the status report the field of a trigger whose
    flag is on holds one value: a value that is empty when the trigger has
    no identifiers (it stops on every event), and otherwise a cell that is
    not empty and lists the identifiers of the trigger, each once. *)
Theorem status_reports_identifiers (t : trigger) (st : bp_table) :
  trigger_flag t st = true →
  ∃ v, (stop_on_err_warn_status false st).2 !! trigger_field t = Some [v]
    ∧ isempty v = bool_decide (read_ids (trigger_ids t) st = ∅)
    ∧ (read_ids (trigger_ids t) st ≠ ∅ →
       iscell v = true
       ∧ ∃ l, cell_value v = ov_string <$> l ∧ NoDup l
              ∧ ∀ id, id ∈ l ↔ id ∈ read_ids (trigger_ids t) st).
Proof.
  intros Hflag. destruct (status_record_lookup st) as (_ & Ht & _).
  rewrite Ht, Hflag. eexists. split; [reflexivity|].
  destruct (bool_decide_reflect (read_ids (trigger_ids t) st = ∅)) as [He|He];
    [done|]. cbn [isempty iscell cell_value mv_cell]. split.
  - apply bool_decide_eq_false_2. intros Hnil. apply He.
    apply set_eq. intros x. rewrite <- elem_of_elements.
    rewrite <- (merge_sort_Permutation String.le (elements _)).
    fold (ids_in_order (read_ids (trigger_ids t) st)). rewrite Hnil.
    rewrite elem_of_nil. split; [done|]. by intros ?%not_elem_of_empty.
  - intros _. split; [done|]. exists (ids_in_order (read_ids (trigger_ids t) st)).
    split; [done|]. unfold ids_in_order. split.
    + rewrite (merge_sort_Permutation String.le). apply NoDup_elements.
    + intros id. rewrite (merge_sort_Permutation String.le).
      apply elem_of_elements.
Qed.

(** X14, witness: after dbstop if error X the field errs lists X. *)
Lemma status_reports_identifiers_witness :
  ∃ v, (stop_on_err_warn_status false
          (set_debug_on_error true
             (set_errors_that_stop {[ "X" ]} empty_table))).2 !! "errs"
       = Some [v]
    ∧ isempty v = bool_decide (({[ "X" ]} : gset string) = ∅)
    ∧ (({[ "X" ]} : gset string) ≠ ∅ →
       iscell v = true
       ∧ ∃ l, cell_value v = ov_string <$> l ∧ NoDup l
              ∧ ∀ id, id ∈ l ↔ id ∈ ({[ "X" ]} : gset string)).
Proof.
  exact (status_reports_identifiers trig_error
           (set_debug_on_error true
              (set_errors_that_stop {[ "X" ]} empty_table)) eq_refl).
Defined.

(** ** Restoring the triggers from a status record *)

Lemma ids_in_order_set (s : gset string) : list_to_set (ids_in_order s) = s.
Proof.
  apply set_eq. intros x. rewrite elem_of_list_to_set. unfold ids_in_order.
  rewrite (merge_sort_Permutation String.le). apply elem_of_elements.
Qed.

Lemma ids_in_order_nil (s : gset string) : ids_in_order s = [] → s = ∅.
Proof. intros Hnil. by rewrite <- (ids_in_order_set s), Hnil. Qed.

Lemma for_each_insert_ids (t : trigger) (l : list string) : ∀ st,
  for_each (ov_string <$> l)
    (λ _ v,
       id ← get_string v;
       modify (λ t', write_ids (trigger_ids t)
                       ({[id]} ∪ read_ids (trigger_ids t) t') t');;
       modify (set_trigger_flag t true))
    tt st
  = (Ok tt, fold_left (insert_id t) l st).
Proof.
  induction l as [|a l IH]; intros st; [done|].
  change (ov_string <$> a :: l) with (ov_string a :: (ov_string <$> l)).
  cbn [for_each fold_left]. unfold mbind at 1, M_bind at 1.
  change ((get_string (ov_string a) ≫= _) st) with (Ok tt, insert_id t st a).
  apply IH.
Qed.

Lemma read_ids_insert_id t st a :
  read_ids (trigger_ids t) (insert_id t st a)
  = {[a]} ∪ read_ids (trigger_ids t) st.
Proof. by destruct t, st. Qed.

Lemma write_ids_insert_id t X st a :
  set_trigger_flag t true (write_ids (trigger_ids t) X (insert_id t st a))
  = set_trigger_flag t true (write_ids (trigger_ids t) X st).
Proof. by destruct t, st. Qed.

Lemma fold_insert_id t (l : list string) : ∀ a st,
  fold_left (insert_id t) l (insert_id t st a)
  = set_trigger_flag t true
      (write_ids (trigger_ids t)
         (list_to_set (a :: l) ∪ read_ids (trigger_ids t) st) st).
Proof.
  induction l as [|b l IH]; intros a st.
  - cbn [fold_left]. unfold insert_id. do 2 f_equal.
    apply set_eq. intros x. rewrite !elem_of_union, elem_of_list_to_set.
    rewrite elem_of_cons, elem_of_nil, elem_of_singleton. tauto.
  - cbn [fold_left]. rewrite IH, read_ids_insert_id, write_ids_insert_id.
    do 2 f_equal. apply set_eq. intros x.
    rewrite !elem_of_union, !elem_of_list_to_set, !elem_of_cons,
      elem_of_singleton. tauto.
Qed.

Lemma write_ids_read_ids t st :
  write_ids (trigger_ids t) (read_ids (trigger_ids t) st) st = st.
Proof. by destruct t, st. Qed.

(** What dbstop_process_map_args does for a field that the status report
    wrote for a trigger. *)
Lemma process_map_field_status (t : trigger) (mv : octave_map)
    (st st1 : bp_table) :
  mv !! trigger_field t
  = (if trigger_flag t st
     then Some [if bool_decide (read_ids (trigger_ids t) st = ∅)
                then mv_empty_string
                else mv_cell (ids_in_order (read_ids (trigger_ids t) st))]
     else None) →
  process_map_field mv (trigger_field t) (trigger_ids t) (set_trigger_flag t) st1
  = (Ok tt,
     if trigger_flag t st
     then set_trigger_flag t true
            (write_ids (trigger_ids t)
               (read_ids (trigger_ids t) st ∪ read_ids (trigger_ids t) st1) st1)
     else st1).
Proof.
  intros Hl. unfold process_map_field, contents. rewrite Hl.
  destruct (trigger_flag t st); [|done].
  destruct (bool_decide_reflect (read_ids (trigger_ids t) st = ∅)) as [He|He].
  - rewrite He, (left_id_L ∅ (∪)), write_ids_read_ids. done.
  - destruct (ids_in_order (read_ids (trigger_ids t) st)) as [|a l] eqn:Hids;
      [by apply ids_in_order_nil in Hids|].
    cbn [default from_option id length Nat.eqb negb take isempty iscell
         cell_value mv_cell].
    rewrite bool_decide_eq_false_2 by done. cbn [negb].
    unfold mbind at 1, M_bind at 1. unfold mbind at 1, M_bind at 1.
    rewrite for_each_insert_ids. cbn [fold_left].
    rewrite fold_insert_id, <- Hids, ids_in_order_set. done.
Qed.

(** X15.  Round trip: when every trigger with identifiers is switched on
    (the invariant that the commands keep), clearing all triggers and then
    processing the record that the status report returned before brings
    back the table as it was. *)
Theorem status_round_trip (st : bp_table) :
  triggers_consistent st →
  ∃ st0, dbclear_all_signals st = (Ok tt, st0)
    ∧ dbstop_process_map_args (stop_on_err_warn_status false st).2 st0
      = (Ok tt, st).
Proof.
  intros Hc. eexists. split; [reflexivity|].
  destruct (status_record_lookup st) as (_ & Ht & Hi & _).
  set (mv := (stop_on_err_warn_status false st).2) in *.
  unfold dbstop_process_map_args.
  change (process_map_field mv "errs" errors_that_stop set_debug_on_error)
    with (process_map_field mv (trigger_field trig_error)
            (trigger_ids trig_error) (set_trigger_flag trig_error)).
  change (process_map_field mv "caught" caught_that_stop set_debug_on_caught)
    with (process_map_field mv (trigger_field trig_caught)
            (trigger_ids trig_caught) (set_trigger_flag trig_caught)).
  change (process_map_field mv "warn" warnings_that_stop set_debug_on_warning)
    with (process_map_field mv (trigger_field trig_warning)
            (trigger_ids trig_warning) (set_trigger_flag trig_warning)).
  unfold mbind, M_bind.
  rewrite (process_map_field_status trig_error mv st _ (Ht _)).
  rewrite (process_map_field_status trig_caught mv st _ (Ht _)).
  rewrite (process_map_field_status trig_warning mv st _ (Ht _)).
  unfold isfield. rewrite Hi. clear Ht Hi. clearbody mv.
  pose proof (Hc trig_error) as He. pose proof (Hc trig_caught) as Hca.
  pose proof (Hc trig_warning) as Hw. clear Hc.
  destruct st as [bp e c w fe fc fw fi sl].
  cbn [trigger_flag trigger_ids read_ids m_errors_that_stop m_caught_that_stop
       m_warnings_that_stop debug_on_error debug_on_caught debug_on_warning
       Vdebug_on_interrupt] in *.
  assert (He' : fe = false → e = ∅).
  { intros ->. destruct (decide (e = ∅)) as [|Hne]; [done|]. by apply He in Hne. }
  assert (Hc' : fc = false → c = ∅).
  { intros ->. destruct (decide (c = ∅)) as [|Hne]; [done|]. by apply Hca in Hne. }
  assert (Hw' : fw = false → w = ∅).
  { intros ->. destruct (decide (w = ∅)) as [|Hne]; [done|]. by apply Hw in Hne. }
  clear He Hca Hw.
  destruct fe, fc, fw, fi;
    rewrite ?(He' eq_refl), ?(Hc' eq_refl), ?(Hw' eq_refl);
    cbn; rewrite ?(right_id_L ∅ (∪)); reflexivity.
Qed.

(** X15, witness: the table after dbstop if error X and dbstop if
    interrupt. *)
Lemma status_round_trip_witness :
  ∃ st0,
    dbclear_all_signals
      (set_debug_on_interrupt true
         (set_debug_on_error true (set_errors_that_stop {[ "X" ]} empty_table)))
    = (Ok tt, st0)
    ∧ dbstop_process_map_args
        (stop_on_err_warn_status false
           (set_debug_on_interrupt true
              (set_debug_on_error true
                 (set_errors_that_stop {[ "X" ]} empty_table)))).2 st0
      = (Ok tt,
         set_debug_on_interrupt true
           (set_debug_on_error true
              (set_errors_that_stop {[ "X" ]} empty_table))).
Proof.
  apply (status_round_trip
           (set_debug_on_interrupt true
              (set_debug_on_error true
                 (set_errors_that_stop {[ "X" ]} empty_table)))).
  intros t Hne. by destruct t.
Defined.

Lemma preserves_modify (P : bp_table → Prop) (f : bp_table → bp_table) :
  (∀ st, P st → P (f st)) → preserves P (modify f).
Proof. intros Hf st HP. by apply Hf. Qed.

Lemma preserves_for_each {A S : Type} (P : bp_table → Prop) (l : list A)
    (f : S → A → M S) :
  (∀ s a, preserves P (f s a)) → ∀ s, preserves P (for_each l f s).
Proof.
  intros Hf. induction l as [|a l IH]; intros s; [apply preserves_ret|].
  apply preserves_bind; [apply Hf | apply IH].
Qed.

Lemma triggers_grow_refl st : triggers_grow st st.
Proof. by repeat split. Qed.

Lemma triggers_grow_flag st0 t st :
  triggers_grow st0 st → triggers_grow st0 (set_trigger_flag t true st).
Proof.
  intros (Ht & Hi & Hbp & Hsl). split; [|by destruct t].
  intros t'. destruct (Ht t') as [Hids Hflag]. split; [by destruct t, t'|].
  intros Hon. specialize (Hflag Hon). by destruct t, t'.
Qed.

Lemma triggers_grow_insert st0 t id st :
  triggers_grow st0 st →
  triggers_grow st0
    (write_ids (trigger_ids t) ({[id]} ∪ read_ids (trigger_ids t) st) st).
Proof.
  intros (Ht & Hi & Hbp & Hsl). split; [|by destruct t].
  intros t'. destruct (Ht t') as [Hids Hflag]. split; [|by destruct t, t'].
  destruct t, t'; try done; simpl in *; intros x Hx;
    apply elem_of_union; right; by apply Hids.
Qed.

Lemma process_map_field_grows st0 mv field (t : trigger) :
  preserves (triggers_grow st0)
    (process_map_field mv field (trigger_ids t) (set_trigger_flag t)).
Proof.
  unfold process_map_field.
  apply preserves_bind;
    [|intros []; [apply preserves_error | apply preserves_ret]].
  destruct (negb _); [apply preserves_ret|].
  assert (Hflag : preserves (triggers_grow st0)
                    (modify (set_trigger_flag t true) ≫= λ _, mret false)).
  { apply preserves_bind; [|intros; apply preserves_ret].
    apply preserves_modify. intros st. apply triggers_grow_flag. }
  destruct (take 1 _) as [|w0 ?]; [done|].
  destruct (isempty w0); [done|].
  destruct (negb _); [apply preserves_ret|].
  apply preserves_bind; [|intros; apply preserves_ret].
  apply preserves_for_each. intros _ v.
  apply preserves_bind; [apply preserves_pure, pure_get_string|]. intros id.
  apply preserves_bind; [|intros _].
  - apply preserves_modify. intros st. apply triggers_grow_insert.
  - apply preserves_modify. intros st. apply triggers_grow_flag.
Qed.

(** X16.  dbstop_process_map_args only adds: whatever the record holds and
    whether or not it is rejected, every identifier that was in a set is
    still there, every flag that was on is still on, and the breakpoints are
    untouched. *)
Theorem dbstop_process_map_args_grows (mv : octave_map) (st : bp_table) :
  triggers_grow st (snd (dbstop_process_map_args mv st)).
Proof.
  assert (H : preserves (triggers_grow st) (dbstop_process_map_args mv)).
  { unfold dbstop_process_map_args.
    apply preserves_bind; [apply (process_map_field_grows st mv _ trig_error)|].
    intros _.
    apply preserves_bind; [apply (process_map_field_grows st mv _ trig_caught)|].
    intros _.
    apply preserves_bind; [apply (process_map_field_grows st mv _ trig_warning)|].
    intros _. destruct (isfield mv "intr"); [|apply preserves_ret].
    apply preserves_modify. intros st' (Ht & Hi & Hbp & Hsl).
    by repeat split; try apply Ht. }
  apply H, triggers_grow_refl.
Qed.

Lemma length_ids_in_order (s : gset string) : length (ids_in_order s) = size s.
Proof.
  unfold ids_in_order. by rewrite (merge_sort_Permutation String.le).
Qed.

Lemma report_trigger_lines flag ids label field acc :
  length (report_trigger true flag ids label field acc).1
  = (length acc.1 + trigger_lines flag ids)%nat.
Proof.
  unfold report_trigger, trigger_lines. destruct acc as [out retval].
  destruct flag; [|simpl; lia].
  destruct (bool_decide_reflect (ids = ∅)) as [->|Hne]; cbn [fst].
  - rewrite length_app, size_empty. simpl. lia.
  - rewrite length_app, length_fmap, length_ids_in_order.
    assert (size ids ≠ 0%nat) by (by intros ?%size_empty_inv%leibniz_equiv).
    lia.
Qed.

(** X17.  The text mode of the status report prints one line for each
    identifier of a trigger whose flag is on, one line for a trigger that is
    on without identifiers, one line when the interrupt flag is on, and
    nothing else. *)
Theorem status_screen_lines (st : bp_table) :
  length (stop_on_err_warn_status true st).1
  = (trigger_lines (debug_on_error st) (m_errors_that_stop st)
     + trigger_lines (debug_on_caught st) (m_caught_that_stop st)
     + trigger_lines (debug_on_warning st) (m_warnings_that_stop st)
     + (if Vdebug_on_interrupt st then 1 else 0))%nat.
Proof.
  unfold stop_on_err_warn_status.
  destruct (Vdebug_on_interrupt st); cbn [fst snd];
    rewrite ?length_app, !report_trigger_lines; simpl; lia.
Qed.

(** ** The list of breakpoints *)

Lemma reads_ret {A : Type} st (a : A) (Q : A → Prop) : Q a → reads st (mret a) Q.
Proof. intros HQ. split; [done|]. by intros ? [= <-]. Qed.

Lemma reads_error {A : Type} st msg (Q : A → Prop) : reads st (error msg) Q.
Proof. by split. Qed.

Lemma reads_bind {A B : Type} st (m : M A) (k : A → M B) (P : A → Prop)
    (Q : B → Prop) :
  reads st m P → (∀ a, P a → reads st (k a) Q) → reads st (m ≫= k) Q.
Proof.
  intros [Hst HP] Hk. unfold reads, mbind, M_bind.
  destruct (m st) as [[a|msg|] st']; simpl in *; subst; [|done|done].
  by apply Hk, HP.
Qed.

Lemma reads_get_string st v (Q : string → Prop) :
  (∀ s, string_value v = Some s → Q s) → reads st (get_string v) Q.
Proof.
  intros HQ. unfold get_string. destruct (string_value v) as [s|];
    [by apply reads_ret, HQ | apply reads_error].
Qed.

Lemma reads_for_each {A S : Type} st (l : list A) (f : S → A → M S)
    (I : S → Prop) :
  (∀ s a, a ∈ l → I s → reads st (f s a) I) →
  ∀ s, I s → reads st (for_each l f s) I.
Proof.
  induction l as [|a l IH]; intros Hf s Hs; [by apply reads_ret|].
  cbn [for_each]. apply reads_bind with (P := I).
  - apply Hf; [by left | done].
  - intros s' Hs'. apply IH; [|done]. intros s'' b Hb. apply Hf. by right.
Qed.

Lemma reads_find_bkpt_list st (slist : list octave_value) (match_ : string) :
  reads st (find_bkpt_list slist match_)
    (λ s, s ≠ "" → ∃ v, v ∈ slist ∧ string_value v = Some match_).
Proof.
  induction slist as [|v rest IH]; [by apply reads_ret|].
  cbn [find_bkpt_list].
  apply reads_bind with (P := λ s, string_value v = Some s);
    [by apply reads_get_string|].
  intros s Hs. destruct (String.eqb_spec s match_) as [->|Hne].
  - apply reads_get_string. intros _ _ _. exists v. split; [by left | done].
  - destruct IH as [Hst HQ]. split; [done|]. intros a Ha Hne'.
    destruct (HQ a Ha Hne') as (w & Hw & Hval). exists w. split; [by right|done].
Qed.

Lemma reads_record_breakpoints st cmds key retval (I : fname_bp_map → Prop) :
  I retval →
  (∀ c bkpts, cmds = Some c → bkpts = breakpoints_and_conds (deref st c) →
              bkpts ≠ [] → I (<[key := bkpts]> retval)) →
  reads st (record_breakpoints cmds key retval) I.
Proof.
  intros Hret Hins. unfold record_breakpoints.
  destruct cmds as [c|]; [|by apply reads_ret].
  apply reads_bind with (P := λ l, l = deref st c).
  { split; [done|]. by intros ? [= <-]. }
  intros ? ->.
  destruct (breakpoints_and_conds (deref st c)) as [|b l] eqn:Hb;
    cbn [length Nat.eqb negb]; [by apply reads_ret|].
  apply reads_ret. rewrite <- Hb. apply (Hins c); [done| |]; by rewrite Hb.
Qed.

(** X18.  find_bkpt_list on a list of strings returns the name it is given
    when the name is in the list, and the empty string otherwise; so the
    empty name is never told from a name that is missing. *)
Theorem find_bkpt_list_spec (names : list string) (match_ : string)
    (st : bp_table) :
  find_bkpt_list (ov_string <$> names) match_ st
  = (Ok (if bool_decide (match_ ∈ names) then match_ else ""), st).
Proof.
  induction names as [|n names IH]; [done|].
  change (ov_string <$> n :: names) with (ov_string n :: (ov_string <$> names)).
  cbn [find_bkpt_list]. unfold mbind, M_bind, get_string.
  cbn [string_value ov_string]. unfold mret at 1, M_ret at 1.
  destruct (String.eqb_spec n match_) as [->|Hne].
  - rewrite bool_decide_eq_true_2 by (by left). done.
  - rewrite IH. destruct (bool_decide_reflect (match_ ∈ names)) as [Hin|Hnin].
    + rewrite bool_decide_eq_true_2 by (by right). done.
    + rewrite bool_decide_eq_false_2; [done|].
      intros [->|?]%elem_of_cons; done.
Qed.

(** X19.  get_breakpoint_list leaves the table as it is, and every entry of
    the list it returns has a list of breakpoints that is not empty, under
    the name of a file of the set or of one of its subfunctions behind the
    name of the file and '>'; when the caller names files, the file is one
    of those. *)
Theorem get_breakpoint_list_entries (ev : tree_evaluator)
    (fname_list : list octave_value) (st : bp_table) :
  snd (get_breakpoint_list ev fname_list st) = st
  ∧ ∀ retval, fst (get_breakpoint_list ev fname_list st) = Ok retval →
      ∀ key bkpts, retval !! key = Some bkpts →
                   listed_entry st fname_list key bkpts.
Proof.
  set (I := λ retval : fname_bp_map,
         ∀ key bkpts, retval !! key = Some bkpts →
                      listed_entry st fname_list key bkpts).
  assert (Hins : ∀ (retval : fname_bp_map) f key bkpts,
            I retval → f ∈ m_bp_set st →
            (key = f ∨ ∃ sub, key = f +:+ ">" +:+ sub) →
            (fname_list ≠ [] → ∃ v, v ∈ fname_list ∧ string_value v = Some f) →
            bkpts ≠ [] → I (<[key := bkpts]> retval)).
  { intros retval f key bkpts Hret Hf Hkey Hlist Hne key' bkpts'.
    destruct (decide (key = key')) as [<-|Hk].
    - rewrite lookup_insert_eq. intros [= <-]. split; [done|]. by exists f.
    - rewrite lookup_insert_ne by done. apply Hret. }
  change (reads st (get_breakpoint_list ev fname_list) I).
  unfold get_breakpoint_list, gets, mbind at 1, M_bind at 1.
  apply reads_for_each; [|by intros ? ? ?].
  intros retval bp_fname Hin Hret.
  assert (Hf : bp_fname ∈ m_bp_set st).
  { apply elem_of_elements.
    by rewrite <- (merge_sort_Permutation String.le (elements _)). }
  unfold get_breakpoint_list_file.
  apply reads_bind with
    (P := λ listed : bool, listed = true → fname_list ≠ [] →
            ∃ v, v ∈ fname_list ∧ string_value v = Some bp_fname).
  { destruct fname_list as [|v0 fl]; [by apply reads_ret|].
    cbn [length Nat.eqb].
    eapply reads_bind; [apply reads_find_bkpt_list|].
    intros s Hs. apply reads_ret. intros Hneg _. apply Hs.
    intros ->. done. }
  intros [] Hlisted; [|by apply reads_ret].
  specialize (Hlisted eq_refl).
  destruct (get_user_code ev bp_fname "") as [dbg_fcn|]; [|by apply reads_ret].
  apply reads_bind with (P := I).
  { apply reads_record_breakpoints; [done|]. intros c bkpts _ _ Hne.
    apply (Hins retval bp_fname); auto. }
  intros retval' Hret'. apply reads_for_each; [|done].
  intros retval'' subfcn_nm _ Hret''.
  destruct (find_subfunction _ _) as [dbg_subfcn|]; [|by apply reads_ret].
  apply reads_record_breakpoints; [done|]. intros c bkpts _ _ Hne.
  apply (Hins retval'' bp_fname); eauto.
Qed.

Lemma returns_ret {A : Type} st (a : A) (Q : A → Prop) :
  Q a → returns st (mret a) Q.
Proof. intros HQ. by exists a. Qed.

Lemma returns_bind {A B : Type} st (m : M A) (k : A → M B) (P : A → Prop)
    (Q : B → Prop) :
  returns st m P → (∀ a, P a → returns st (k a) Q) → returns st (m ≫= k) Q.
Proof.
  intros (a & Hm & HP) Hk. unfold returns, mbind, M_bind. rewrite Hm.
  by apply Hk.
Qed.

Lemma returns_for_each {A S : Type} st (f : S → A → M S)
    (I : list A → S → Prop) :
  (∀ seen a s, I seen s → returns st (f s a) (I (seen ++ [a])%list)) →
  ∀ l seen s, I seen s → returns st (for_each l f s) (I (seen ++ l)%list).
Proof.
  intros Hf. induction l as [|a l IH]; intros seen s Hs.
  - rewrite app_nil_r. by apply returns_ret.
  - cbn [for_each]. eapply returns_bind; [by apply Hf|].
    intros s' Hs'. rewrite (cons_middle a seen l), app_assoc. by apply IH.
Qed.

Lemma strchr_qualified (a b : string) : strchr (a +:+ ">" +:+ b) ">" ≠ None.
Proof.
  induction a as [|c a IH]; [done|].
  change (String c a +:+ ">" +:+ b) with (String c (a +:+ ">" +:+ b)).
  cbn [strchr]. destruct (Ascii.eqb c ">"); [done|].
  by destruct (strchr (a +:+ ">" +:+ b) ">").
Qed.

Lemma returns_record_breakpoints st cmds key (retval : fname_bp_map) :
  returns st (record_breakpoints cmds key retval)
    (λ r, (∀ k, k ≠ key → r !! k = retval !! k)
          ∧ (∀ c, cmds = Some c → breakpoints_and_conds (deref st c) ≠ [] →
                  r !! key = Some (breakpoints_and_conds (deref st c)))).
Proof.
  unfold record_breakpoints. destruct cmds as [c|]; [|by apply returns_ret].
  apply returns_bind with (P := λ l, l = deref st c); [by eexists|].
  intros ? ->.
  destruct (breakpoints_and_conds (deref st c)) as [|b l] eqn:Hb;
    cbn [length Nat.eqb negb]; apply returns_ret.
  - split; [done|]. intros ? [= <-]. by rewrite Hb.
  - split; [intros k Hk; by rewrite lookup_insert_ne|].
    intros ? [= <-] _. by rewrite Hb, lookup_insert_eq.
Qed.

(** X20.  Without a list of names, get_breakpoint_list returns a list, and
    it reports every file of the set whose name holds no '>' and resolves to
    a routine with breakpoints in its body: the entry of the file holds the
    breakpoints of that body with their conditions. *)
Theorem get_breakpoint_list_reports (ev : tree_evaluator) (st : bp_table)
    (f : string) (fcn : octave_user_code) (cmds : nat) :
  f ∈ m_bp_set st →
  strchr f ">" = None →
  get_user_code ev f "" = Some fcn →
  body fcn = Some cmds →
  breakpoints_and_conds (deref st cmds) ≠ [] →
  ∃ retval,
    get_breakpoint_list ev [] st = (Ok retval, st)
    ∧ retval !! f = Some (breakpoints_and_conds (deref st cmds)).
Proof.
  intros Hf Hplain Hcode Hbody Hbk.
  set (bk := breakpoints_and_conds (deref st cmds)) in *.
  assert (Hsub : ∀ a sub, a +:+ ">" +:+ sub ≠ f).
  { intros a sub <-. by apply (strchr_qualified a sub). }
  assert (Hstep : ∀ retval a,
            returns st (get_breakpoint_list_file ev [] retval a)
              (λ r, (a = f → r !! f = Some bk)
                    ∧ (retval !! f = Some bk → r !! f = Some bk))).
  { intros retval a. unfold get_breakpoint_list_file. cbn [length Nat.eqb].
    apply returns_bind with (P := λ b : bool, b = true);
      [by apply returns_ret|]. intros ? ->.
    destruct (get_user_code ev a "") as [dbg_fcn|] eqn:Ha.
    - eapply returns_bind; [apply returns_record_breakpoints|].
      intros r1 [Hother Hkey].
      assert (Hloop : ∀ l r,
                r !! f = r1 !! f →
                returns st
                  (for_each l
                     (λ retval subfcn_nm,
                        match find_subfunction (subfunctions dbg_fcn) subfcn_nm
                        with
                        | Some dbg_subfcn =>
                            record_breakpoints (body dbg_subfcn)
                              (a +:+ ">" +:+ name dbg_subfcn) retval
                        | None => mret retval
                        end) r)
                  (λ r', r' !! f = r1 !! f)).
      { induction l as [|nm l IH]; intros r Hr; [by apply returns_ret|].
        cbn [for_each].
        apply returns_bind with (P := λ r', r' !! f = r1 !! f); [|apply IH].
        destruct (find_subfunction _ _) as [dbg_subfcn|];
          [|by apply returns_ret].
        destruct (returns_record_breakpoints st (body dbg_subfcn)
                    (a +:+ ">" +:+ name dbg_subfcn) r) as (r' & Hr' & Ho & _).
        exists r'. split; [done|]. rewrite Ho; [done|].
        intros Heq. by apply (Hsub a (name dbg_subfcn)). }
      destruct (Hloop (subfunction_names dbg_fcn) r1 eq_refl)
        as (r2 & Hr2 & Heq).
      exists r2. split; [done|]. rewrite Heq. split.
      + intros ->. rewrite Hcode in Ha. injection Ha as <-.
        by apply (Hkey cmds).
      + intros Hold. destruct (decide (f = a)) as [->|Hne].
        * rewrite Hcode in Ha. injection Ha as <-. by apply (Hkey cmds).
        * by rewrite Hother.
    - apply returns_ret. split; [|done]. intros ->. congruence. }
  unfold get_breakpoint_list, gets, mbind at 1, M_bind at 1.
  assert (Hloop : ∀ l seen r,
            (f ∈ seen → r !! f = Some bk) →
            returns st (for_each l (get_breakpoint_list_file ev []) r)
              (λ r', f ∈ (seen ++ l)%list → r' !! f = Some bk)).
  { apply (returns_for_each st (get_breakpoint_list_file ev [])
             (λ seen r, f ∈ seen → r !! f = Some bk)).
    intros seen a s Hs. destruct (Hstep s a) as (r & Hr & Hnew & Hold).
    exists r. split; [done|].
    intros [Hin| ->%list_elem_of_singleton]%elem_of_app;
      [by apply Hold, Hs | by apply Hnew]. }
  destruct (Hloop (ids_in_order (m_bp_set st)) [] ∅
              ltac:(by intros ?%elem_of_nil)) as (retval & Hret & Hin).
  exists retval. split; [done|]. apply Hin. rewrite app_nil_l.
  unfold ids_in_order. rewrite (merge_sort_Permutation String.le).
  by apply elem_of_elements.
Qed.

(** X20, witness: f.m with a conditional breakpoint on line 5. *)
Lemma get_breakpoint_list_reports_witness :
  ∃ retval,
    get_breakpoint_list fx_evaluator [] fx_listed_table
    = (Ok retval, fx_listed_table)
    ∧ retval !! "f" = Some [(5, "a==5")].
Proof.
  apply (get_breakpoint_list_reports fx_evaluator fx_listed_table "f" fx_f 0).
  - change ("f" ∈ ({[ "f" ]} : gset string)). by apply elem_of_singleton_2.
  - reflexivity.
  - reflexivity.
  - reflexivity.
  - vm_compute. discriminate.
Defined.

(** ** Errors of add_breakpoint *)

Lemma never_fails_ret {A : Type} (a : A) : never_fails (mret a).
Proof. intros st. by exists a, st. Qed.

Lemma never_fails_bind {A B : Type} (m : M A) (k : A → M B) :
  never_fails m → (∀ a, never_fails (k a)) → never_fails (m ≫= k).
Proof.
  intros Hm Hk st. destruct (Hm st) as (a & st' & Ha).
  unfold mbind, M_bind. rewrite Ha. apply Hk.
Qed.

Lemma never_fails_for_each {A S : Type} (l : list A) (f : S → A → M S) :
  (∀ s a, never_fails (f s a)) → ∀ s, never_fails (for_each l f s).
Proof.
  intros Hf. induction l as [|a l IH]; intros s; [apply never_fails_ret|].
  cbn [for_each]. apply never_fails_bind; [apply Hf | apply IH].
Qed.

Lemma never_fails_add_breakpoint_1 fcn fname line condition retval :
  never_fails (add_breakpoint_1 fcn fname line condition retval).
Proof.
  intros st. unfold add_breakpoint_1.
  destruct (body fcn) as [cmds|]; [|by eexists _, _].
  unfold mbind, M_bind, load, store, gets, modify, mret, M_ret.
  destruct (stmts_add_breakpoint _ _ _) as [ret l'].
  destruct (existsb _ _); by eexists _, _.
Qed.

Lemma never_fails_add_breakpoint_line main_fcn fname line condition retval i :
  never_fails (add_breakpoint_line main_fcn fname line condition retval i).
Proof.
  unfold add_breakpoint_line.
  destruct (line !! i) as [lineno|]; [|apply never_fails_ret].
  destruct (find_fcn_by_line main_fcn lineno None).1 as [dbg_fcn|];
    [|apply never_fails_ret].
  apply never_fails_bind; [apply never_fails_add_breakpoint_1|].
  intros [found ret_one]. destruct found; [|apply never_fails_ret].
  destruct (ret_one !! i); [|apply never_fails_ret].
  destruct (retval !! i); apply never_fails_ret.
Qed.

(** X21.  add_breakpoint raises an error only before it sets a breakpoint:
    when the name does not resolve, or when the condition is rejected; in
    both cases the table is left as it was.  Once the loop over the lines
    has started, no error is raised. *)
Theorem add_breakpoint_errors (ev : tree_evaluator) (fname class_name : string)
    (line : intmap) (condition : string) (st : bp_table) (msg : string) :
  fst (add_breakpoint ev fname class_name line condition st) = Error msg →
  snd (add_breakpoint ev fname class_name line condition st) = st
  ∧ (get_user_code ev fname class_name = None
     ∨ fst (condition_valid ev condition st) = Error msg).
Proof.
  unfold add_breakpoint.
  destruct (get_user_code ev fname class_name) as [main_fcn|];
    [|intros _; split; [done | by left]].
  unfold mbind, M_bind.
  pose proof (condition_valid_state ev condition st) as Hst.
  destruct (condition_valid ev condition st) as [[b|msg'|] st1];
    simpl in Hst; subst st1.
  - destruct (never_fails_for_each (seqZ 0 (Z.of_nat (size line)))
                (add_breakpoint_line main_fcn fname line condition)
                (never_fails_add_breakpoint_line main_fcn fname line condition)
                ∅ st) as (retval & st' & Hloop).
    rewrite Hloop. done.
  - intros [= ->]. split; [done | by right].
  - done.
Qed.

(** X21, witness: no function of the name nope is known. *)
Lemma add_breakpoint_errors_witness :
  snd (add_breakpoint fx_evaluator "nope" "" {[ 0 := 5 ]} "" fx_table) = fx_table
  ∧ (get_user_code fx_evaluator "nope" "" = None
     ∨ fst (condition_valid fx_evaluator "" fx_table)
       = Error "add_breakpoint: unable to find function 'nope'").
Proof.
  apply (add_breakpoint_errors fx_evaluator "nope" "" {[ 0 := 5 ]} "" fx_table).
  reflexivity.
Defined.
